(** * The schema registry of lib/Compiler.js (class JsonSchemaModule)

    A shallow embedding of the module that keeps the catalog of JSON schemas
    ([this.schemas]), the store of deferred extensions
    ([this.schemaExtensions]) and the Ajv instance ([this.validator]).

    Conventions.
    - A JS object used as a dictionary is the [gmap string _] of its own
      properties.  A read [obj[key]] that finds no own property goes on to
      [Object.prototype], which answers for the names in [inheritedNames];
      [schemaAt] and [pendingAt] are the reads of the two dictionaries.
    - A method that mutates [this] is a function [State -> _ * State].
    - An [async] method is cut at its [await]: the part that runs when the
      method is called, and the part that runs when the awaited promise
      settles.  Calling the two parts back to back is the behaviour of a
      caller that awaits the method on its own.
    - Collaborators that live outside lib/Compiler.js (the JsonSchema class,
      safe-regex, Ajv, glob, the host's logger) are parameters. *)

From stdpp Require Import gmap strings list fin_maps.

Open Scope string_scope.
Open Scope list_scope.
Open Scope nat_scope.

(** ** Values *)

(** The values a caller may hand over where a string is expected. *)
Inductive JsValue :=
  | JsUndefined
  | JsNull
  | JsBool (b : bool)
  | JsNumber (n : Z)
  | JsString (s : string).

(** lodash's [_.isString] on these values. *)
Definition isString (v : JsValue) : bool :=
  match v with JsString _ => true | _ => false end.

(** A value used as a property key: [obj[undefined]] reads the property
    named ["undefined"]. *)
Definition propertyKey (k : option string) : string :=
  default "undefined" k.

(** The property names of [Object.prototype] (Node.js): every object
    literal [{}] answers a read of one of them with a function (with
    [Object.prototype] itself for ["__proto__"]), though it has no such
    property of its own. *)
Definition inheritedNames : list string :=
  [ "constructor"; "__defineGetter__"; "__defineSetter__"; "hasOwnProperty";
    "__lookupGetter__"; "__lookupSetter__"; "isPrototypeOf";
    "propertyIsEnumerable"; "toString"; "valueOf"; "__proto__";
    "toLocaleString" ].

Definition inherited (key : string) : bool := bool_decide (key ∈ inheritedNames).

(** A string format handed to [addStringFormats]: a RegExp literal or, from
    configuration, the source text of one. *)
Inductive Pattern :=
  | RegExp (source flags : string)
  | PatternText (text : string).

(** [`${re}`] *)
Definition patternToString (re : Pattern) : string :=
  match re with
  | RegExp source flags => "/" +:+ source +:+ "/" +:+ flags
  | PatternText text => text
  end.

(** The literal [/.*/]. *)
Definition catchAll : Pattern := RegExp ".*" "".

(** ** Errors and log lines *)

(** Why the engine throws a TypeError: a call of something that is no
    function ([callee] is the expression called), a property read on
    [undefined] or [null], or a Symbol in a template literal. *)
Inductive TypeErrorReason :=
  | NotAFunction (callee : string)
  | CannotReadProperty (property : string)
  | CannotConvertToString.

(** [this.app.errors.X.setData({...})], what collaborators reject with, and
    the TypeError of the engine. *)
Inductive AppError :=
  | INVALID_PARAMS (params : list string)
  | SCHEMA_EXISTS (name filepath : string)
  | NOT_FOUND (type id : string)
  | LOAD_FAILED (detail : string)
  | GLOB_FAILED (detail : string)
  | TYPE_ERROR (reason : TypeErrorReason).

Inductive LogArg :=
  | LogText (s : string)
  | LogUndefined
  | LogError (e : AppError).

(** One call [this.log(level, ...args)]. *)
Record LogEntry := { level : string; args : list LogArg }.

Definition logName (k : option string) : LogArg :=
  match k with Some s => LogText s | None => LogUndefined end.

(** ** Schema units *)

(** [$patch] of a raw document; [source_ref] is [$patch?.source?.$ref]. *)
Record Patch := { source_ref : option string }.

(** The part of a parsed document the registry reads ([schema.raw]). *)
Record RawSchema := { patch : option Patch; body : string }.

(** What reading and parsing a schema file yields. *)
Record Document := { docName : string; docRaw : RawSchema }.

(** [new JsonSchema({ filePath, ... })] before [load()] has settled: the name
    is whatever the constructor left in [this.name]. *)
Record NewSchema := {
  newName : option string;
  newFilePath : string;
  newExtensions : list string
}.

(** A loaded unit, as stored in the catalog. *)
Record JsonSchema := {
  name : string;
  filePath : string;
  raw : RawSchema;
  extensions : list string
}.

(** Modelled from the spec: JsonSchema.addExtension of lib/JsonSchema.js,
    "appends extensionName to the ordered extension set if not already
    present; idempotent". *)
Definition addExtensionTo (extSchemaName : string) (xs : list string) : list string :=
  if bool_decide (extSchemaName ∈ xs) then xs else xs ++ [extSchemaName].

Definition addExtension (extSchemaName : string) (schema : JsonSchema) : JsonSchema :=
  {| name := name schema; filePath := filePath schema; raw := raw schema;
     extensions := addExtensionTo extSchemaName (extensions schema) |}.

Definition addExtensionNew (extSchemaName : string) (schema : NewSchema) : NewSchema :=
  {| newName := newName schema; newFilePath := newFilePath schema;
     newExtensions := addExtensionTo extSchemaName (newExtensions schema) |}.

(** ** Options *)

(** RegisterSchemaOptions; [registerSchema(filePath)] uses [{}]. *)
Record RegisterSchemaOptions := { replace : bool }.

Definition noOptions : RegisterSchemaOptions := {| replace := false |}.

(** LoadSchemaOptions of [getSchema]; an absent [compiled] counts as set. *)
Record LoadSchemaOptions := { compiled : option bool }.

(** ** The Ajv instance *)

(** [definition.keyword]: a string or an array of strings for Ajv; a caller
    may also hand over a Symbol. *)
Inductive KeywordName :=
  | KeywordOne (k : string)
  | KeywordMany (ks : list string)
  | KeywordSymbol (description : string).

(** [`${definition.keyword}`]: an array prints its items joined by commas;
    a Symbol is not converted, the template literal throws a TypeError. *)
Definition keywordToString (k : KeywordName) : option string :=
  match k with
  | KeywordOne s => Some s
  | KeywordMany ks => Some (String.concat "," ks)
  | KeywordSymbol _ => None
  end.

Record AjvKeyword := { keyword : KeywordName; implementation : string }.

(** What a caller passes to [addKeyword]: nothing checks that it is a
    definition. *)
Inductive KeywordArgument :=
  | ArgumentUndefined
  | ArgumentNull
  | ArgumentDefinition (definition : AjvKeyword).

(** What Ajv throws, as far as the handler of [addKeyword] uses it:
    [thrownText] is [`${e}`], absent when that conversion throws. *)
Record Thrown := { thrownText : option string }.

Record Ajv := {
  formats : gmap string Pattern;
  keywords : list AjvKeyword
}.

(** [ajv.addFormat(name, format)] *)
Definition addFormat (fname : string) (format : Pattern) (ajv : Ajv) : Ajv :=
  {| formats := <[fname := format]> (formats ajv); keywords := keywords ajv |}.

(** ** The module's state *)

(** [schemas] holds the own properties of [this.schemas] and, under
    ["__proto__"], the unit line 109 has made the prototype of
    [this.schemas], if it has: an assignment to [obj["__proto__"]] sets the
    prototype of [obj] and creates no own property. *)
Record State := {
  schemas : gmap string JsonSchema;
  schemaExtensions : gmap string (list string);
  validator : Ajv;
  journal : list LogEntry;          (* calls of this.log, oldest first *)
  loads : list string               (* files whose load() was started *)
}.

Definition withSchemas (f : gmap string JsonSchema → gmap string JsonSchema) (st : State) : State :=
  {| schemas := f (schemas st); schemaExtensions := schemaExtensions st;
     validator := validator st; journal := journal st; loads := loads st |}.

Definition withSchemaExtensions
    (f : gmap string (list string) → gmap string (list string)) (st : State) : State :=
  {| schemas := schemas st; schemaExtensions := f (schemaExtensions st);
     validator := validator st; journal := journal st; loads := loads st |}.

Definition withValidator (f : Ajv → Ajv) (st : State) : State :=
  {| schemas := schemas st; schemaExtensions := schemaExtensions st;
     validator := f (validator st); journal := journal st; loads := loads st |}.

Definition log (lvl : string) (xs : list LogArg) (st : State) : State :=
  {| schemas := schemas st; schemaExtensions := schemaExtensions st;
     validator := validator st;
     journal := journal st ++ [{| level := lvl; args := xs |}];
     loads := loads st |}.

Definition startLoad (file : string) (st : State) : State :=
  {| schemas := schemas st; schemaExtensions := schemaExtensions st;
     validator := validator st; journal := journal st;
     loads := loads st ++ [file] |}.

(** [init], lines 21-40: empty catalog, empty store of extensions, a fresh
    Ajv instance. *)
Definition initialState : State :=
  {| schemas := ∅; schemaExtensions := ∅;
     validator := {| formats := ∅; keywords := [] |};
     journal := []; loads := [] |}.


(** [this.schemaExtensions?.[key]], read as the list [forEach] walks: nothing
    when the property is absent. *)
Definition pending (key : string) (st : State) : list string :=
  default [] (schemaExtensions st !! key).

(** What [this.schemas[key]] evaluates to: a unit; a value found through
    [Object.prototype], which is truthy and has neither [addExtension] nor
    [build]; or [undefined].  (Once the prototype of [this.schemas] is a
    unit, the names of that unit's members are found through it as well;
    lib/JsonSchema.js decides which they are, and [plainCatalog] excludes
    the case.) *)
Inductive Slot :=
  | Unit (schema : JsonSchema)
  | Foreign
  | Absent.

Definition schemaAt (key : string) (st : State) : Slot :=
  match schemas st !! key with
  | Some schema => Unit schema
  | None => if inherited key then Foreign else Absent
  end.

(** [if (slot)] *)
Definition truthy (slot : Slot) : bool :=
  match slot with Absent => false | _ => true end.

(** [this.schemas] still inherits from [Object.prototype]. *)
Definition plainCatalog (st : State) : Prop := schemas st !! "__proto__" = None.

(** [delete this.schemas[key]]: removes an own property; the prototype is
    not a property and stays. *)
Definition deleteProperty (key : string) (m : gmap string JsonSchema)
    : gmap string JsonSchema :=
  if bool_decide (key = "__proto__") then m else delete key m.

(** [this.schemaExtensions?.[key]?.forEach(...)], as the list walked: the
    list under [key], nothing where [key] answers [undefined], and [None]
    where [Object.prototype] answers with a function, which has no
    [forEach], so that the call throws a TypeError. *)
Definition pendingAt (key : string) (st : State) : option (list string) :=
  match schemaExtensions st !! key with
  | Some xs => Some xs
  | None => if inherited key then None else Some []
  end.

(** [try { body } catch (e) { handler }]: [body] completes, or throws [e]
    and [handler e] runs in the state [body] left; what the handler throws
    escapes. *)
Definition tryCatch {E A : Type} (body : State → (E + A) * State)
    (handler : E → State → (AppError + A) * State) (st : State)
    : (AppError + A) * State :=
  match body st with
  | (inl e, st) => handler e st
  | (inr a, st) => (inr a, st)
  end.

(** ** addStringFormats (lines 57-63) *)

Section FormatGuard.
(** [safeRegex(re)] of the safe-regex package. *)
Variable safeRegex : Pattern → bool.

Definition unsafeWarning (fname : string) (re : Pattern) : LogEntry :=
  {| level := "warn";
     args := [LogText ("unsafe RegExp for format '" +:+ fname +:+ "' ("
                       +:+ patternToString re +:+ "), using default")] |}.

(** The body of the [forEach] callback, for one entry [[name, re]]. *)
Definition addStringFormat (st : State) (entry : string * Pattern) : State :=
  let '(fname, re) := entry in
  let isUnsafe := negb (safeRegex re) in
  let st := if isUnsafe then log "warn" (args (unsafeWarning fname re)) st else st in
  withValidator (addFormat fname (if isUnsafe then catchAll else re)) st.

(** [formats] is the list [Object.entries(formats)]. *)
Definition addStringFormats (fmts : list (string * Pattern)) (st : State) : State :=
  foldl addStringFormat st fmts.

End FormatGuard.

(** ** addKeyword (lines 69-75) *)

Section Keywords.
(** [ajv.addKeyword(definition)]: the instance it leaves behind and what
    it throws, if it does. *)
Variable ajvAddKeyword : KeywordArgument → Ajv → (Thrown + unit) * Ajv.

(** [this.validator.addKeyword(definition)] *)
Definition validatorAddKeyword (definition : KeywordArgument) (st : State)
    : (Thrown + unit) * State :=
  let '(outcome, ajv) := ajvAddKeyword definition (validator st) in
  (outcome, withValidator (λ _, ajv) st).

(** The argument of [this.log] in the handler, line 73:
    [`failed to define keyword '${definition.keyword}', ${e}`].  Evaluating
    it throws when [definition] is [undefined] or [null], when the keyword
    is a Symbol, and when [e] cannot be converted. *)
Definition keywordWarning (definition : KeywordArgument) (e : Thrown)
    : TypeErrorReason + LogEntry :=
  match definition with
  | ArgumentUndefined | ArgumentNull => inl (CannotReadProperty "keyword")
  | ArgumentDefinition d =>
      match keywordToString (keyword d), thrownText e with
      | Some k, Some text =>
          inr {| level := "warn";
                 args := [LogText ("failed to define keyword '" +:+ k
                                   +:+ "', " +:+ text)] |}
      | _, _ => inl CannotConvertToString
      end
  end.

(** The result is what the caller sees: [inl e] when [e] escapes.  The
    handler runs outside the [try]: what it throws escapes. *)
Definition addKeyword (definition : KeywordArgument) (st : State)
    : (AppError + unit) * State :=
  tryCatch (validatorAddKeyword definition)
           (λ e st, match keywordWarning definition e with
                    | inl reason => (inl (TYPE_ERROR reason), st)
                    | inr warning => (inr tt, log "warn" (args warning) st)
                    end)
           st.
End Keywords.

(** ** Registering schemas (lines 99-158) *)

Section Registry.
(** The JsonSchema class of lib/JsonSchema.js: the name its constructor
    leaves in [this.name] ([None] for [undefined], as when the name is set
    by [load()]; a constructor is taken not to name a unit after a member
    of [Object.prototype]), and what [load()] reads from the file (or the
    error it rejects with). *)
Variable constructedName : string → RegisterSchemaOptions → option string.
Variable readSchema : string → AppError + Document.

Definition newJsonSchema (path : string) (options : RegisterSchemaOptions) : NewSchema :=
  {| newName := constructedName path options; newFilePath := path;
     newExtensions := [] |}.

(** Modelled from the spec: JsonSchema.load of lib/JsonSchema.js, "parses
    the raw document from its source"; the unit keeps the extensions it
    was given before, and takes its name from the document. *)
Definition load (schema : NewSchema) : AppError + JsonSchema :=
  match readSchema (newFilePath schema) with
  | inl e => inl e
  | inr doc =>
      inr {| name := docName doc; filePath := newFilePath schema;
             raw := docRaw doc; extensions := newExtensions schema |}
  end.

(** [deregisterSchema], lines 121-124. *)
Definition deregisterSchema (schemaName : string) (st : State) : State :=
  let st := if truthy (schemaAt schemaName st)
            then withSchemas (deleteProperty schemaName) st
            else st in
  log "debug" [LogText "DEREGISTER_SCHEMA"; LogText schemaName] st.

(** [createSchema], lines 131-142: the unit whose [load()] is in flight. *)
Definition createSchema (path : string) (options : RegisterSchemaOptions) (st : State)
    : NewSchema * State :=
  let schema := newJsonSchema path options in
  let key := propertyKey (newName schema) in
  let schema := foldl (λ u s, addExtensionNew s u) schema (pending key st) in
  let st := withSchemaExtensions (delete key) st in
  (schema, startLoad path st).

(** [extendSchema], lines 149-158.  Where [Object.prototype] answers for
    the base name, [baseSchema] is truthy and [baseSchema.addExtension] is
    no function: line 152 throws.  In the [else] branch the name is none
    of [Object.prototype], so the store is read at an own property or at
    nothing. *)
Definition extendSchema (baseSchemaName : option string) (extSchemaName : string)
    (st : State) : (AppError + unit) * State :=
  let key := propertyKey baseSchemaName in
  let entry := [LogText "EXTEND_SCHEMA"; logName baseSchemaName; LogText extSchemaName] in
  match schemaAt key st with
  | Unit baseSchema =>
      (inr tt,
       log "debug" entry
         (withSchemas (<[key := addExtension extSchemaName baseSchema]>) st))
  | Foreign => (inl (TYPE_ERROR (NotAFunction "baseSchema.addExtension")), st)
  | Absent =>
      (inr tt,
       log "debug" entry
         (withSchemaExtensions (<[key := pending key st ++ [extSchemaName]]>) st))
  end.

(** [registerSchema], lines 100-103: what runs before the [await]. *)
Definition registerSchema_begin (filePathArg : JsValue) (options : RegisterSchemaOptions)
    (st : State) : (AppError + NewSchema) * State :=
  match filePathArg with
  | JsString path =>
      let '(schema, st) := createSchema path options st in (inr schema, st)
  | _ => (inl (INVALID_PARAMS ["filePath"]), st)
  end.

(** Line 110, [forEach(s => schema.addExtension(s))], on the unit stored
    under [key]. *)
Definition addExtensions (key : string) (xs : list string) (st : State) : State :=
  foldl (λ st s, withSchemas (alter (addExtension s) key) st) st xs.

(** [registerSchema], lines 105-113, on the unit [load()] resolved with.
    The unit is reached through the catalog once it is stored there, as
    the stored object and the local [schema] are one object.  Line 105
    tests what the read of the catalog gives for truthiness; a TypeError
    of line 110 or 111 leaves the unit stored. *)
Definition registerLoaded (path : string) (options : RegisterSchemaOptions)
    (schema : JsonSchema) (st : State) : (AppError + unit) * State :=
  let key := name schema in
  let taken := truthy (schemaAt key st) in
  let entry := [LogText "REGISTER_SCHEMA"; LogText (name schema); LogText path] in
  if taken && negb (replace options)
  then (inl (SCHEMA_EXISTS (name schema) path), st)
  else
    let st := if taken then deregisterSchema (name schema) st else st in
    let st := withSchemas (<[key := schema]>) st in
    match pendingAt key st with
    | None => (inl (TYPE_ERROR (NotAFunction "forEach")), st)
    | Some xs =>
        let st := addExtensions key xs st in
        match patch (raw schema) with
        | Some p =>
            match extendSchema (source_ref p) (name schema) st with
            | (inl e, st) => (inl e, st)
            | (inr _, st) => (inr tt, log "debug" entry st)
            end
        | None => (inr tt, log "debug" entry st)
        end
    end.

(** What runs when the promise of [createSchema] settles. *)
Definition registerSchema_resume (path : string) (options : RegisterSchemaOptions)
    (schema : NewSchema) (st : State) : (AppError + unit) * State :=
  match load schema with
  | inl e => (inl e, st)
  | inr loaded => registerLoaded path options loaded st
  end.

(** [await registerSchema(filePath, options)] with nothing else running:
    the local [filePath] is the path the unit was constructed with. *)
Definition registerSchema (filePathArg : JsValue) (options : RegisterSchemaOptions)
    (st : State) : (AppError + unit) * State :=
  match registerSchema_begin filePathArg options st with
  | (inl e, st) => (inl e, st)
  | (inr schema, st) => registerSchema_resume (newFilePath schema) options schema st
  end.

(** *** registerSchemas (lines 81-91)

    One call [registerSchema(f)] of the pass: still waiting for its
    [load()], or settled. *)
Inductive Task :=
  | Loading (schema : NewSchema)
  | Settled (result : AppError + unit).

(** A pass in progress: the module, the dependencies whose [glob] has
    called back (each with its files in glob order and their tasks), and
    the error the promise returned by [registerSchemas] was rejected
    with, if it was. *)
Record Pass := {
  registry : State;
  started : gmap nat (list (string * Task));
  rejection : option AppError
}.

(** What the event loop delivers during a pass: the callback of [glob]
    for dependency [d], or the end of [load()] for file [i] of [d]. *)
Inductive Event :=
  | GlobDone (d : nat)
  | LoadDone (d i : nat).

Definition isSettled (t : string * Task) : bool :=
  match t.2 with Settled _ => true | Loading _ => false end.

(** [.filter(r => r.status === 'rejected')], as the reasons. *)
Definition rejections (ts : list (string * Task)) : list AppError :=
  omap (λ t, match t.2 with Settled (inl e) => Some e | _ => None end) ts.

(** Lines 87-89 once [Promise.allSettled] has resolved. *)
Definition logRejections (ts : list (string * Task)) (st : State) : State :=
  if forallb isSettled ts
  then foldl (λ st e, log "warn" [LogError e] st) st (rejections ts)
  else st.

(** [files.map(f => this.registerSchema(f))]: every call runs up to its
    [await], in order. *)
Definition startTask (acc : list (string * Task) * State) (f : string)
    : list (string * Task) * State :=
  let '(ts, st) := acc in
  match registerSchema_begin (JsString f) noOptions st with
  | (inl e, st) => (ts ++ [(f, Settled (inl e))], st)
  | (inr schema, st) => (ts ++ [(f, Loading schema)], st)
  end.

Definition startTasks (files : list string) (st : State) : list (string * Task) * State :=
  foldl startTask ([], st) files.

(** [globs !! d] is what [glob] answers for the [d]-th dependency: an
    error or the files found. *)
Definition step (globs : list (AppError + list string)) (p : Pass) (ev : Event) : Pass :=
  match ev with
  | GlobDone d =>
      match started p !! d, globs !! d with
      | None, Some (inr files) =>
          let '(ts, st) := startTasks files (registry p) in
          {| registry := logRejections ts st;
             started := <[d := ts]> (started p);
             rejection := rejection p |}
      | None, Some (inl e) =>
          {| registry := registry p;
             started := <[d := []]> (started p);
             rejection := Some (default e (rejection p)) |}
      | _, _ => p
      end
  | LoadDone d i =>
      match started p !! d with
      | Some ts =>
          match ts !! i with
          | Some (f, Loading schema) =>
              let '(r, st) := registerSchema_resume f noOptions schema (registry p) in
              let ts := <[i := (f, Settled r)]> ts in
              {| registry := logRejections ts st;
                 started := <[d := ts]> (started p);
                 rejection := rejection p |}
          | _ => p
          end
      | None => p
      end
  end.

Definition runEvents (globs : list (AppError + list string)) (p : Pass)
    (schedule : list Event) : Pass :=
  foldl (step globs) p schedule.

(** Line 82, then the events of the pass in the order [schedule] gives. *)
Definition registerSchemas (globs : list (AppError + list string))
    (schedule : list Event) (st : State) : Pass :=
  runEvents globs
    {| registry := withSchemas (λ _, ∅) st; started := ∅; rejection := None |}
    schedule.

(** Every [glob] has called back and every task is settled. *)
Definition finished (globs : list (AppError + list string)) (p : Pass) : bool :=
  forallb (λ d, match started p !! d with
                | Some ts => forallb isSettled ts
                | None => false
                end)
          (seq 0 (length globs)).

(** The promise [registerSchemas] returned: rejected, fulfilled, or (None)
    still pending. *)
Definition settled (globs : list (AppError + list string)) (p : Pass)
    : option (AppError + unit) :=
  match rejection p with
  | Some e => Some (inl e)
  | None => if finished globs p then Some (inr tt) else None
  end.

(** The schedule in which each dependency is globbed and its files finish
    loading in order, one dependency after the other. *)
Definition inOrder (globs : list (AppError + list string)) : list Event :=
  flat_map (λ d, GlobDone d ::
                 match globs !! d with
                 | Some (inr files) => map (LoadDone d) (seq 0 (length files))
                 | _ => []
                 end)
           (seq 0 (length globs)).
End Registry.

(** ** getSchema (lines 167-171) *)

Section Resolve.
(** [schema.build(options)] of lib/JsonSchema.js, as the value the
    returned promise follows. *)
Context {BuildResult : Type}.
Variable build : JsonSchema → LoadSchemaOptions → BuildResult.

(** Where [Object.prototype] answers for the name, [schema] is truthy and
    [schema.build] is no function: line 170 throws. *)
Definition getSchema (schemaName : string) (options : LoadSchemaOptions) (st : State)
    : (AppError + BuildResult) * State :=
  match schemaAt schemaName st with
  | Absent => (inl (NOT_FOUND "schema" schemaName), st)
  | Foreign => (inl (TYPE_ERROR (NotAFunction "schema.build")), st)
  | Unit schema => (inr (build schema options), st)
  end.
End Resolve.

(** ** The effect of lines 105-113 in closed form *)

(** The unit line 109 stores, after line 110 has walked [pendingNames]. *)
Definition storedUnit (schema : JsonSchema) (pendingNames : list string) : JsonSchema :=
  foldl (λ u s, addExtension s u) schema pendingNames.

(** The catalog after lines 109-110. *)
Definition catalogWith (schema : JsonSchema) (st : State) : gmap string JsonSchema :=
  <[name schema := storedUnit schema (pending (name schema) st)]> (schemas st).

(** What lines 110-111 end with: a TypeError of line 110, a TypeError of
    line 152, or normally. *)
Definition outcomeAfter (schema : JsonSchema) (st : State) : AppError + unit :=
  match pendingAt (name schema) st with
  | None => inl (TYPE_ERROR (NotAFunction "forEach"))
  | Some _ =>
      match patch (raw schema) with
      | Some p =>
          let key := propertyKey (source_ref p) in
          match catalogWith schema st !! key with
          | Some _ => inr tt
          | None =>
              if inherited key
              then inl (TYPE_ERROR (NotAFunction "baseSchema.addExtension"))
              else inr tt
          end
      | None => inr tt
      end
  end.

(** The catalog after line 111, or after the line that threw. *)
Definition catalogAfter (schema : JsonSchema) (st : State) : gmap string JsonSchema :=
  match pendingAt (name schema) st with
  | None => catalogWith schema st
  | Some _ =>
      match patch (raw schema) with
      | Some p =>
          let key := propertyKey (source_ref p) in
          match catalogWith schema st !! key with
          | Some baseSchema =>
              <[key := addExtension (name schema) baseSchema]> (catalogWith schema st)
          | None => catalogWith schema st
          end
      | None => catalogWith schema st
      end
  end.

(** The store of extensions after line 111, or after the line that threw. *)
Definition ledgerAfter (schema : JsonSchema) (st : State) : gmap string (list string) :=
  match pendingAt (name schema) st with
  | None => schemaExtensions st
  | Some _ =>
      match patch (raw schema) with
      | Some p =>
          let key := propertyKey (source_ref p) in
          match catalogWith schema st !! key with
          | Some _ => schemaExtensions st
          | None =>
              if inherited key then schemaExtensions st
              else <[key := pending key st ++ [name schema]]> (schemaExtensions st)
          end
      | None => schemaExtensions st
      end
  end.

(** [u'] is the unit [u] after some calls of [addExtension]. *)
Definition grownFrom (u u' : JsonSchema) : Prop :=
  name u' = name u ∧ filePath u' = filePath u ∧ raw u' = raw u
  ∧ ∀ x, x ∈ extensions u → x ∈ extensions u'.

(** The entry lines 88-89 log for a rejected registration. *)
Definition rejectionWarning (e : AppError) : LogEntry :=
  {| level := "warn"; args := [LogError e] |}.

(** What holds of a pass at every moment, whatever the order of events. *)
Record discoveryInvariant (readSchema : string → AppError + Document)
    (globs : list (AppError + list string)) (p : Pass) : Prop := {
  (* only a failing glob rejects the promise of the pass *)
  inv_rejection : ∀ e, rejection p = Some e → ∃ d, globs !! d = Some (inl e);
  (* the tasks of a dependency are its files, in glob order *)
  inv_files : ∀ d ts, started p !! d = Some ts →
      ∃ g, globs !! d = Some g
           ∧ ts.*1 = match g with inr files => files | inl _ => [] end;
  (* a task in flight loads the file it was started for *)
  inv_loading : ∀ d ts i f schema,
      started p !! d = Some ts → ts !! i = Some (f, Loading schema) →
      newFilePath schema = f;
  (* a settled task failed to load; or its schema's name is registered,
     unless it is a name of Object.prototype, and the task was fulfilled,
     or rejected because the name was taken or because line 152 threw *)
  inv_settled : ∀ d ts i f r,
      started p !! d = Some ts → ts !! i = Some (f, Settled r) →
      match readSchema f with
      | inl e => r = inl e
      | inr doc => (inherited (docName doc) = false →
                    is_Some (schemas (registry p) !! docName doc))
                   ∧ (r = inr tt ∨ r = inl (SCHEMA_EXISTS (docName doc) f)
                      ∨ r = inl (TYPE_ERROR (NotAFunction "baseSchema.addExtension")))
      end;
  (* once a dependency's tasks are all settled its rejections are logged *)
  inv_logged : ∀ d ts e,
      started p !! d = Some ts → forallb isSettled ts = true →
      e ∈ rejections ts → rejectionWarning e ∈ journal (registry p);
  (* every unit of the catalog was loaded from a discovered file *)
  inv_origin : ∀ k u, schemas (registry p) !! k = Some u →
      name u = k
      ∧ ∃ d files doc, globs !! d = Some (inr files) ∧ filePath u ∈ files
                       ∧ readSchema (filePath u) = inr doc ∧ docName doc = k
                       ∧ raw u = docRaw doc;
  (* no unit is stored under a name of Object.prototype *)
  inv_own : ∀ k, is_Some (schemas (registry p) !! k) → inherited k = false
}.

(** A schedule that delivers every callback of a pass: the callback of
    each glob and, for each file a glob found, the end of its load, which
    comes after the callback of that glob. *)
Definition complete (globs : list (AppError + list string)) (schedule : list Event)
    : Prop :=
  (∀ d, d < length globs → GlobDone d ∈ schedule)
  ∧ ∀ d files i, globs !! d = Some (inr files) → i < length files →
      ∃ before after, schedule = before ++ LoadDone d i :: after
                      ∧ GlobDone d ∈ before.

(** The dependencies below [k] are done with, those from [k] on have not
    been globbed. *)
Definition doneBelow (k : nat) (p : Pass) : Prop :=
  (∀ d, d < k → ∃ ts, started p !! d = Some ts ∧ forallb isSettled ts = true)
  ∧ (∀ d, k ≤ d → started p !! d = None).

(** ** What the module and a pass are checked against *)

(** Every unit of the catalog is stored under its own name. *)
Definition wellKeyed (st : State) : Prop :=
  ∀ k u, schemas st !! k = Some u → name u = k.

(** The store of extensions holds no empty list: a key is there exactly
    when something is pending under it. *)
Definition noEmptyPending (st : State) : Prop :=
  ∀ k l, schemaExtensions st !! k = Some l → l ≠ [].

Definition consistent (st : State) : Prop := wellKeyed st ∧ noEmptyPending st.


(** The pattern [addStringFormats] installs for a candidate. *)
Definition installedFor (safeRegex : Pattern → bool) (re : Pattern) : Pattern :=
  if safeRegex re then re else catchAll.

(** The warnings [addStringFormats] logs for a list of entries. *)
Definition warningsFor (safeRegex : Pattern → bool) (fmts : list (string * Pattern))
    : list LogEntry :=
  omap (λ entry, if safeRegex entry.2 then None
                 else Some (unsafeWarning entry.1 entry.2)) fmts.

(** The files [glob] found for dependency [d]: none when it failed. *)
Definition foundBy (globs : list (AppError + list string)) (d : nat) : list string :=
  match globs !! d with Some (inr files) => files | _ => [] end.

(** [k] is the name of a schema some discovered file loads to. *)
Definition discoveredName (readSchema : string → AppError + Document)
    (globs : list (AppError + list string)) (k : string) : Prop :=
  ∃ d files f doc, globs !! d = Some (inr files) ∧ f ∈ files
                   ∧ readSchema f = inr doc ∧ docName doc = k.

(** The dependencies globbed so far, in the order their globs called
    back, account for every load started since the pass began. *)
Definition loadsInvariant (globs : list (AppError + list string)) (st : State)
    (p : Pass) : Prop :=
  ∃ ds, NoDup ds
        ∧ (∀ d, d ∈ ds ↔ is_Some (started p !! d))
        ∧ loads (registry p) = loads st ++ flat_map (foundBy globs) ds
        ∧ validator (registry p) = validator st.

(** ** Sample collaborators and files

    Used to run the definitions above on concrete inputs. *)

Global Instance Pattern_eq_dec : EqDecision Pattern.
Proof. solve_decision. Defined.




(** An Ajv that installs a definition whose keyword is a string or a
    non-empty array of strings, and throws an Error for anything else. *)
Definition strictAjv (definition : KeywordArgument) (ajv : Ajv) : (Thrown + unit) * Ajv :=
  match definition with
  | ArgumentDefinition d =>
      match keyword d with
      | KeywordOne _ | KeywordMany (_ :: _) =>
          (inr tt, {| formats := formats ajv; keywords := keywords ajv ++ [d] |})
      | _ =>
          (inl {| thrownText :=
                    Some "Error: addKeywords: keyword must be string or non-empty array" |},
           ajv)
      end
  | _ => (inl {| thrownText := Some "Error: invalid addKeywords parameters" |}, ajv)
  end.

(** A JsonSchema class whose constructor leaves [this.name] unset: the name
    comes from the document, which only [load()] reads. *)
Definition nameSetByLoad : string → RegisterSchemaOptions → option string :=
  λ _ _, None.

Definition plainDocument (n : string) : Document :=
  {| docName := n; docRaw := {| patch := None; body := n |} |}.

Definition patchDocument (n : string) (source : option string) : Document :=
  {| docName := n;
     docRaw := {| patch := Some {| source_ref := source |}; body := n |} |}.

Definition coursePath : string := "/core/schema/course.schema.json".
Definition courseExtPath : string := "/ext/schema/course-ext.schema.json".
Definition courseExtPlainPath : string := "/ext2/schema/course-ext.schema.json".
Definition brokenPath : string := "/core/schema/broken.schema.json".
Definition orphanPath : string := "/ext/schema/orphan.schema.json".
Definition undefinedPath : string := "/core/schema/undefined.schema.json".

(** [course] stands alone; [course-ext] patches [course] in one file and
    patches nothing in another; [orphan] has a [$patch] without a source;
    one schema is named "undefined"; every other file fails to load. *)
Definition sampleFiles (path : string) : AppError + Document :=
  if bool_decide (path = coursePath) then inr (plainDocument "course")
  else if bool_decide (path = courseExtPath)
       then inr (patchDocument "course-ext" (Some "course"))
  else if bool_decide (path = courseExtPlainPath) then inr (plainDocument "course-ext")
  else if bool_decide (path = orphanPath) then inr (patchDocument "orphan" None)
  else if bool_decide (path = undefinedPath) then inr (plainDocument "undefined")
  else inl (LOAD_FAILED path).

(** [build] that hands back the unit's name and the merge order. *)
Definition buildSummary (schema : JsonSchema) (options : LoadSchemaOptions)
    : string * list string :=
  (name schema, extensions schema).

(** The module after [course] and then [course-ext] were registered. *)
Definition courseThenExt : State :=
  (registerSchema nameSetByLoad sampleFiles (JsString courseExtPath) noOptions
     (registerSchema nameSetByLoad sampleFiles (JsString coursePath) noOptions
        initialState).2).2.

(** The module after [course-ext] alone was registered: its extension of
    [course] is deferred. *)
Definition extOnly : State :=
  (registerSchema nameSetByLoad sampleFiles (JsString courseExtPath) noOptions
     initialState).2.

(** The module after [orphan] alone was registered. *)
Definition orphanOnly : State :=
  (registerSchema nameSetByLoad sampleFiles (JsString orphanPath) noOptions
     initialState).2.

(** ** Properties of addStringFormats, addKeyword and getSchema *)

Section FormatGuardProperties.
Variable safeRegex : Pattern → bool.

Lemma addStringFormats_cons entry fmts st :
  addStringFormats safeRegex (entry :: fmts) st
  = addStringFormats safeRegex fmts (addStringFormat safeRegex st entry).
Proof. reflexivity. Qed.



Lemma addStringFormat_other st fname' entry :
  entry.1 ≠ fname' →
  formats (validator (addStringFormat safeRegex st entry)) !! fname'
  = formats (validator st) !! fname'.
Proof.
  destruct entry as [fname re]. simpl. intros Hne.
  unfold addStringFormat. destruct (negb (safeRegex re)); simpl;
    by rewrite lookup_insert_ne.
Qed.

Lemma addStringFormats_other fmts st fname' :
  fname' ∉ fmts.*1 →
  formats (validator (addStringFormats safeRegex fmts st)) !! fname'
  = formats (validator st) !! fname'.
Proof.
  revert st. induction fmts as [|entry fmts IH]; intros st Hnot; [done|].
  rewrite addStringFormats_cons, IH.
  - apply addStringFormat_other. intros Heq. apply Hnot.
    rewrite fmap_cons, Heq. left.
  - intros Hin. apply Hnot. rewrite fmap_cons. by right.
Qed.



End FormatGuardProperties.

Section KeywordProperties.
Variable ajvAddKeyword : KeywordArgument → Ajv → (Thrown + unit) * Ajv.

(** C8, as the code has it. [addKeyword] leaves the catalog and the store
    of extensions as they are, and the validator as Ajv left it.  When Ajv
    does not throw, it returns normally and logs nothing.  When Ajv throws
    [e], the handler of line 73 first builds the text of the warning, and
    does so outside the [try]: for a definition that is an object whose
    keyword is a string or an array of strings (and a printable [e]) the
    warning is logged and the call returns normally; for [undefined] or
    [null] the read of [definition.keyword] throws, for a Symbol keyword
    the template literal throws, and that TypeError escapes [addKeyword],
    nothing being logged. *)
Theorem addKeyword_handler_may_throw (definition : KeywordArgument) (st : State) :
  let answer := ajvAddKeyword definition (validator st) in
  let result := addKeyword ajvAddKeyword definition st in
  schemas result.2 = schemas st
  ∧ schemaExtensions result.2 = schemaExtensions st
  ∧ loads result.2 = loads st
  ∧ validator result.2 = answer.2
  ∧ match answer.1 with
    | inr _ => result.1 = inr tt ∧ journal result.2 = journal st
    | inl e =>
        match keywordWarning definition e with
        | inr warning =>
            result.1 = inr tt ∧ journal result.2 = journal st ++ [warning]
        | inl reason =>
            result.1 = inl (TYPE_ERROR reason) ∧ journal result.2 = journal st
        end
    end
  ∧ (∀ e, answer.1 = inl e →
       (definition = ArgumentUndefined ∨ definition = ArgumentNull →
        result.1 = inl (TYPE_ERROR (CannotReadProperty "keyword")))
       ∧ (∀ d description, definition = ArgumentDefinition d →
            keyword d = KeywordSymbol description →
            result.1 = inl (TYPE_ERROR CannotConvertToString))
       ∧ (∀ d k text, definition = ArgumentDefinition d →
            keywordToString (keyword d) = Some k → thrownText e = Some text →
            result.1 = inr tt
            ∧ journal result.2
              = journal st
                ++ [{| level := "warn";
                       args := [LogText ("failed to define keyword '" +:+ k
                                         +:+ "', " +:+ text)] |}])).
Proof.
  cbv zeta. unfold addKeyword, tryCatch, validatorAddKeyword.
  destruct (ajvAddKeyword definition (validator st)) as [[e|[]] ajv]; cbn [fst snd].
  - assert (Hfields : ∀ r : (AppError + unit) * State,
              r = match keywordWarning definition e with
                  | inl reason => (inl (TYPE_ERROR reason), withValidator (λ _, ajv) st)
                  | inr warning =>
                      (inr tt, log "warn" (args warning) (withValidator (λ _, ajv) st))
                  end →
              schemas r.2 = schemas st ∧ schemaExtensions r.2 = schemaExtensions st
              ∧ loads r.2 = loads st ∧ validator r.2 = ajv).
    { intros r ->. by destruct (keywordWarning definition e). }
    destruct (Hfields _ eq_refl) as (Hs & Hl & Ho & Hv).
    split; [done|]. split; [done|]. split; [done|]. split; [done|]. split.
    { unfold keywordWarning. destruct definition as [| |d]; [done|done|].
      destruct (keywordToString (keyword d)) as [k|]; [|done].
      by destruct (thrownText e) as [text|]. }
    intros e' [= <-]. split; [|split].
    + by intros [-> | ->].
    + intros d description -> Hk. unfold keywordWarning. by rewrite Hk.
    + intros d k text -> Hk Ht. unfold keywordWarning. by rewrite Hk, Ht.
  - repeat split; try done.
Qed.
End KeywordProperties.

Section ResolveProperties.
Context {BuildResult : Type}.
Variable build : JsonSchema → LoadSchemaOptions → BuildResult.

(** C7, as the code has it. [getSchema(N, O)] leaves the module as it
    was.  When the catalog has unit [u] under [N] the result is
    [u.build(O)].  When it has none, the call rejects with NOT_FOUND
    carrying type 'schema' and id [N] only if [N] is no name of
    [Object.prototype]; for such a name ([constructor], [toString], ...)
    the read of line 168 is truthy, [schema.build] is no function and the
    call rejects with a TypeError.  So in a catalog that inherits from
    [Object.prototype] NOT_FOUND means: absent, and no inherited name. *)
Theorem getSchema_outcomes (schemaName : string) (options : LoadSchemaOptions)
    (st : State) :
  let result := getSchema build schemaName options st in
  result.2 = st
  ∧ (∀ u, schemas st !! schemaName = Some u → result.1 = inr (build u options))
  ∧ (schemas st !! schemaName = None → inherited schemaName = true →
       result.1 = inl (TYPE_ERROR (NotAFunction "schema.build")))
  ∧ (plainCatalog st →
       (schemas st !! schemaName = None → inherited schemaName = false →
          result.1 = inl (NOT_FOUND "schema" schemaName))
       ∧ (result.1 = inl (NOT_FOUND "schema" schemaName)
          ↔ schemas st !! schemaName = None ∧ inherited schemaName = false)).
Proof.
  cbv zeta. unfold getSchema, schemaAt.
  destruct (schemas st !! schemaName) as [u|] eqn:Hu; cbn [fst snd].
  - split; [done|]. split; [by intros u' [= <-]|]. split; [done|].
    intros _. split; [done|]. split; [done|by intros [? _]].
  - destruct (inherited schemaName) eqn:Hin; cbn [fst snd].
    + split; [done|]. split; [done|]. split; [done|].
      intros _. split; [done|]. split; [done|by intros [_ ?]].
    + by repeat split.
Qed.
End ResolveProperties.

(** ** Properties of registration *)

(** *** Extension sets *)

Lemma addExtensionTo_keeps (e x : string) (xs : list string) :
  x ∈ xs → x ∈ addExtensionTo e xs.
Proof.
  intros Hx. unfold addExtensionTo. case_bool_decide; [done|].
  apply elem_of_app. by left.
Qed.

Lemma addExtensionTo_adds (e : string) (xs : list string) :
  e ∈ addExtensionTo e xs.
Proof.
  unfold addExtensionTo. case_bool_decide; [done|].
  apply elem_of_app. right. by apply list_elem_of_singleton.
Qed.

Lemma addExtensionTo_only (e x : string) (xs : list string) :
  x ∈ addExtensionTo e xs → x ∈ xs ∨ x = e.
Proof.
  unfold addExtensionTo. case_bool_decide; [by left|].
  intros [Hx|Hx%list_elem_of_singleton]%elem_of_app; [by left|by right].
Qed.

Lemma addExtensionTo_idempotent (e : string) (xs : list string) :
  addExtensionTo e (addExtensionTo e xs) = addExtensionTo e xs.
Proof.
  unfold addExtensionTo at 1. rewrite bool_decide_eq_true_2; [done|].
  apply addExtensionTo_adds.
Qed.

(** The unit after [xs.forEach(s => schema.addExtension(s))]. *)
Lemma foldl_addExtension_fields (xs : list string) (u : JsonSchema) :
  let u' := foldl (λ u s, addExtension s u) u xs in
  name u' = name u ∧ filePath u' = filePath u ∧ raw u' = raw u
  ∧ (∀ x, x ∈ extensions u → x ∈ extensions u')
  ∧ (∀ x, x ∈ xs → x ∈ extensions u')
  ∧ (∀ x, x ∈ extensions u' → x ∈ extensions u ∨ x ∈ xs).
Proof.
  revert u. induction xs as [|s xs IH]; intros u; simpl.
  { repeat split; try done. - by intros x Hx%elem_of_nil. - by left. }
  destruct (IH (addExtension s u)) as (Hn & Hf & Hr & Hkeep & Hnew & Honly).
  simpl in *. repeat split; try done.
  - intros x Hx. apply Hkeep. by apply addExtensionTo_keeps.
  - intros x [->|Hx]%elem_of_cons; [|by apply Hnew].
    apply Hkeep. apply addExtensionTo_adds.
  - intros x Hx. destruct (Honly x Hx) as [Hx'|Hx'].
    + apply addExtensionTo_only in Hx' as [?| ->]; [by left|right; left].
    + right. by right.
Qed.

Lemma foldl_addExtensionNew_fields (xs : list string) (u : NewSchema) :
  let u' := foldl (λ u s, addExtensionNew s u) u xs in
  newName u' = newName u ∧ newFilePath u' = newFilePath u
  ∧ (∀ x, x ∈ xs → x ∈ newExtensions u')
  ∧ (∀ x, x ∈ newExtensions u' → x ∈ newExtensions u ∨ x ∈ xs).
Proof.
  assert (Hgen : ∀ xs u,
    let u' := foldl (λ u s, addExtensionNew s u) u xs in
    newName u' = newName u ∧ newFilePath u' = newFilePath u
    ∧ (∀ x, x ∈ newExtensions u → x ∈ newExtensions u')
    ∧ (∀ x, x ∈ xs → x ∈ newExtensions u')
    ∧ (∀ x, x ∈ newExtensions u' → x ∈ newExtensions u ∨ x ∈ xs)).
  { clear. induction xs as [|s xs IH]; intros u; simpl.
    { repeat split; try done. - by intros x Hx%elem_of_nil. - by left. }
    destruct (IH (addExtensionNew s u)) as (Hn & Hf & Hkeep & Hnew & Honly).
    simpl in *. repeat split; try done.
    - intros x Hx. apply Hkeep. by apply addExtensionTo_keeps.
    - intros x [->|Hx]%elem_of_cons; [|by apply Hnew].
      apply Hkeep. apply addExtensionTo_adds.
    - intros x Hx. destruct (Honly x Hx) as [Hx'|Hx'].
      + apply addExtensionTo_only in Hx' as [?| ->]; [by left|right; left].
      + right. by right. }
  destruct (Hgen xs u) as (? & ? & _ & ? & ?). done.
Qed.

(** *** The steps of registerSchema, field by field *)

Lemma addExtensions_schemas (key : string) (xs : list string) (st : State) :
  schemas (addExtensions key xs st)
  = alter (λ u, foldl (λ u s, addExtension s u) u xs) key (schemas st).
Proof.
  revert st. unfold addExtensions.
  induction xs as [|s xs IH]; intros st; simpl.
  { symmetry. by apply alter_id. }
  rewrite IH. simpl. by rewrite alter_alter_eq.
Qed.

Lemma addExtensions_frame (key : string) (xs : list string) (st : State) :
  schemaExtensions (addExtensions key xs st) = schemaExtensions st
  ∧ journal (addExtensions key xs st) = journal st
  ∧ validator (addExtensions key xs st) = validator st
  ∧ loads (addExtensions key xs st) = loads st.
Proof.
  revert st. unfold addExtensions.
  induction xs as [|s xs IH]; intros st; simpl; [done|].
  destruct (IH (withSchemas (alter (addExtension s) key) st)) as (-> & -> & -> & ->).
  done.
Qed.
(** *** Reads of the two dictionaries *)

Lemma truthy_schemaAt (key : string) (st : State) :
  truthy (schemaAt key st) = true
  ↔ is_Some (schemas st !! key) ∨ inherited key = true.
Proof.
  unfold schemaAt. destruct (schemas st !! key) as [u|]; simpl.
  - split; [eauto|done].
  - destruct (inherited key); simpl; split; try done; eauto.
    intros [[? ?]|?]; done.
Qed.

Lemma truthy_free (key : string) (st : State) :
  truthy (schemaAt key st) = false
  ↔ schemas st !! key = None ∧ inherited key = false.
Proof.
  unfold schemaAt. destruct (schemas st !! key) as [u|]; simpl.
  - split; [done|by intros [? _]].
  - destruct (inherited key); simpl; split; try done. by intros [_ ?].
Qed.

Lemma schemaAt_free (key : string) (st : State) :
  schemas st !! key = None → inherited key = false → schemaAt key st = Absent.
Proof. intros Hnone Hown. unfold schemaAt. by rewrite Hnone, Hown. Qed.

Lemma schemaAt_own (key : string) (st : State) (u : JsonSchema) :
  schemas st !! key = Some u → schemaAt key st = Unit u.
Proof. intros Hu. unfold schemaAt. by rewrite Hu. Qed.

Lemma insert_deleteProperty (key : string) (u : JsonSchema)
    (m : gmap string JsonSchema) :
  <[key := u]> (deleteProperty key m) = <[key := u]> m.
Proof.
  unfold deleteProperty. case_bool_decide; [done|]. apply insert_delete_eq.
Qed.

Lemma lookup_deleteProperty_ne (key k : string) (m : gmap string JsonSchema) :
  key ≠ k → deleteProperty key m !! k = m !! k.
Proof.
  intros Hne. unfold deleteProperty. case_bool_decide; [done|].
  by apply lookup_delete_ne.
Qed.

Lemma lookup_deleteProperty_own (key : string) (m : gmap string JsonSchema) :
  inherited key = false → deleteProperty key m !! key = None.
Proof.
  intros Hown. unfold deleteProperty. case_bool_decide as Hk.
  - subst key. done.
  - apply lookup_delete_eq.
Qed.

Lemma deleteProperty_absent (key : string) (m : gmap string JsonSchema) :
  m !! key = None → deleteProperty key m = m.
Proof.
  intros Hnone. unfold deleteProperty. case_bool_decide; [done|].
  by apply delete_id.
Qed.

Lemma pendingAt_pending (key : string) (st : State) (xs : list string) :
  pendingAt key st = Some xs → xs = pending key st.
Proof.
  unfold pendingAt, pending. destruct (schemaExtensions st !! key) as [ys|]; simpl.
  - by intros [= ->].
  - destruct (inherited key); [done|by intros [= <-]].
Qed.

Lemma pendingAt_None (key : string) (st : State) :
  pendingAt key st = None
  ↔ schemaExtensions st !! key = None ∧ inherited key = true.
Proof.
  unfold pendingAt. destruct (schemaExtensions st !! key) as [ys|].
  - split; [done|by intros [? _]].
  - destruct (inherited key); split; try done. by intros [_ ?].
Qed.

Lemma pendingAt_own (key : string) (st : State) :
  inherited key = false → pendingAt key st = Some (pending key st).
Proof.
  intros Hown. unfold pendingAt, pending.
  destruct (schemaExtensions st !! key) as [ys|]; [done|]. by rewrite Hown.
Qed.

Section RegistryProperties.
Variable constructedName : string → RegisterSchemaOptions → option string.
Variable readSchema : string → AppError + Document.

Lemma createSchema_fields (path : string) (options : RegisterSchemaOptions) (st : State) :
  newName (createSchema constructedName path options st).1
  = constructedName path options
  ∧ newFilePath (createSchema constructedName path options st).1 = path
  ∧ (∀ x, x ∈ newExtensions (createSchema constructedName path options st).1
          ↔ x ∈ pending (propertyKey (constructedName path options)) st)
  ∧ schemas (createSchema constructedName path options st).2 = schemas st
  ∧ schemaExtensions (createSchema constructedName path options st).2
    = delete (propertyKey (constructedName path options)) (schemaExtensions st)
  ∧ journal (createSchema constructedName path options st).2 = journal st
  ∧ validator (createSchema constructedName path options st).2 = validator st
  ∧ loads (createSchema constructedName path options st).2 = loads st ++ [path].
Proof.
  unfold createSchema. simpl.
  destruct (foldl_addExtensionNew_fields
              (pending (propertyKey (constructedName path options)) st)
              (newJsonSchema constructedName path options))
    as (Hn & Hf & Hnew & Honly).
  simpl in *. repeat split; try done.
  - intros Hx. destruct (Honly x Hx) as [Hnil|]; [|done].
    by apply elem_of_nil in Hnil.
  - apply Hnew.
Qed.

Lemma deregisterSchema_fields (schemaName : string) (st : State) :
  schemas (deregisterSchema schemaName st) = deleteProperty schemaName (schemas st)
  ∧ schemaExtensions (deregisterSchema schemaName st) = schemaExtensions st
  ∧ journal (deregisterSchema schemaName st)
    = journal st ++ [{| level := "debug";
                        args := [LogText "DEREGISTER_SCHEMA"; LogText schemaName] |}]
  ∧ validator (deregisterSchema schemaName st) = validator st
  ∧ loads (deregisterSchema schemaName st) = loads st.
Proof.
  unfold deregisterSchema.
  destruct (truthy (schemaAt schemaName st)) eqn:Htruthy; simpl;
    repeat split; try done.
  apply truthy_free in Htruthy as [Hnone _]. symmetry.
  by apply deleteProperty_absent.
Qed.

Lemma extendSchema_fields (baseSchemaName : option string) (extSchemaName : string)
    (st : State) :
  let key := propertyKey baseSchemaName in
  let result := extendSchema baseSchemaName extSchemaName st in
  result.1 = match schemas st !! key with
             | Some _ => inr tt
             | None =>
                 if inherited key
                 then inl (TYPE_ERROR (NotAFunction "baseSchema.addExtension"))
                 else inr tt
             end
  ∧ schemas result.2 = match schemas st !! key with
                       | Some baseSchema =>
                           <[key := addExtension extSchemaName baseSchema]> (schemas st)
                       | None => schemas st
                       end
  ∧ schemaExtensions result.2
    = match schemas st !! key with
      | Some _ => schemaExtensions st
      | None =>
          if inherited key then schemaExtensions st
          else <[key := pending key st ++ [extSchemaName]]> (schemaExtensions st)
      end
  ∧ journal result.2
    = match result.1 with
      | inl _ => journal st
      | inr _ => journal st ++ [{| level := "debug";
                                   args := [LogText "EXTEND_SCHEMA";
                                            logName baseSchemaName;
                                            LogText extSchemaName] |}]
      end
  ∧ validator result.2 = validator st
  ∧ loads result.2 = loads st.
Proof.
  cbv zeta. unfold extendSchema, schemaAt.
  destruct (schemas st !! propertyKey baseSchemaName); [done|].
  by destruct (inherited (propertyKey baseSchemaName)).
Qed.

Lemma outcomeAfter_cases (schema : JsonSchema) (st : State) :
  outcomeAfter schema st = inr tt
  ∨ (outcomeAfter schema st = inl (TYPE_ERROR (NotAFunction "forEach"))
     ∧ inherited (name schema) = true)
  ∨ (outcomeAfter schema st = inl (TYPE_ERROR (NotAFunction "baseSchema.addExtension"))
     ∧ ∃ p, patch (raw schema) = Some p
            ∧ inherited (propertyKey (source_ref p)) = true).
Proof.
  unfold outcomeAfter.
  destruct (pendingAt (name schema) st) as [xs|] eqn:Hpend.
  - destruct (patch (raw schema)) as [p|]; [|by left]. cbv zeta.
    destruct (catalogWith schema st !! propertyKey (source_ref p)); [by left|].
    destruct (inherited (propertyKey (source_ref p))) eqn:Hin; [|by left].
    right. right. eauto.
  - right. left. split; [done|]. by apply pendingAt_None in Hpend as [_ ?].
Qed.

(** Neither the name nor the patch source is a name of [Object.prototype]:
    lines 110 and 111 complete. *)
Lemma outcomeAfter_ok (schema : JsonSchema) (st : State) :
  inherited (name schema) = false →
  (∀ p, patch (raw schema) = Some p → inherited (propertyKey (source_ref p)) = false) →
  outcomeAfter schema st = inr tt.
Proof.
  intros Hown Hsource.
  destruct (outcomeAfter_cases schema st) as [?|[[_ Hin]|(_ & p & Hp & Hin)]];
    [done|congruence|].
  rewrite (Hsource p Hp) in Hin. done.
Qed.

Lemma registerLoaded_exists (path : string) (options : RegisterSchemaOptions)
    (schema : JsonSchema) (st : State) :
  truthy (schemaAt (name schema) st) = true → replace options = false →
  registerLoaded path options schema st
  = (inl (SCHEMA_EXISTS (name schema) path), st).
Proof.
  intros Htaken Hrep. unfold registerLoaded. by rewrite Htaken, Hrep.
Qed.

(** Past line 105: the unit is stored, and lines 110 and 111 run as far
    as they get. *)
Lemma registerLoaded_proceeds (path : string) (options : RegisterSchemaOptions)
    (schema : JsonSchema) (st : State) :
  truthy (schemaAt (name schema) st) = false ∨ replace options = true →
  let result := registerLoaded path options schema st in
  result.1 = outcomeAfter schema st
  ∧ schemas result.2 = catalogAfter schema st
  ∧ schemaExtensions result.2 = ledgerAfter schema st
  ∧ validator result.2 = validator st
  ∧ loads result.2 = loads st
  ∧ ∃ more, journal result.2 = journal st ++ more.
Proof.
  intros Hfree. cbv zeta. unfold registerLoaded.
  set (taken := truthy (schemaAt (name schema) st)).
  assert (Hgo : taken && negb (replace options) = false).
  { destruct Hfree as [Hnone| ->]; [|by rewrite andb_false_r].
    unfold taken. by rewrite Hnone. }
  rewrite Hgo.
  set (st1 := if taken then deregisterSchema (name schema) st else st).
  assert (H1 : (∀ v, <[name schema := v]> (schemas st1)
                     = <[name schema := v]> (schemas st))
               ∧ schemaExtensions st1 = schemaExtensions st
               ∧ validator st1 = validator st ∧ loads st1 = loads st
               ∧ ∃ more, journal st1 = journal st ++ more).
  { unfold st1. destruct taken.
    - destruct (deregisterSchema_fields (name schema) st) as (-> & -> & -> & -> & ->).
      split; [intros v; by rewrite insert_deleteProperty|]. eauto 10.
    - repeat split; try done. exists []. by rewrite app_nil_r. }
  destruct H1 as (Hcat & Hled & Hval & Hloads & more1 & Hj1).
  set (st2 := withSchemas (<[name schema := schema]>) st1).
  assert (Hat : pendingAt (name schema) st2 = pendingAt (name schema) st).
  { unfold pendingAt, st2. simpl. by rewrite Hled. }
  rewrite Hat. unfold outcomeAfter, catalogAfter, ledgerAfter.
  destruct (pendingAt (name schema) st) as [xs|] eqn:Hpend; cbn [fst snd].
  2:{ apply pendingAt_None in Hpend as [Hnone _].
      unfold st2. cbn [schemas schemaExtensions validator loads journal withSchemas].
      rewrite Hcat, Hled, Hval, Hloads, Hj1.
      repeat split; try done; [|by eauto].
      unfold catalogWith, pending. by rewrite Hnone. }
  apply pendingAt_pending in Hpend as ->.
  set (st3 := addExtensions (name schema) (pending (name schema) st) st2).
  assert (H3 : schemas st3 = catalogWith schema st).
  { unfold st3. rewrite addExtensions_schemas. unfold st2. simpl.
    rewrite alter_insert_eq, Hcat. done. }
  destruct (addExtensions_frame (name schema) (pending (name schema) st) st2)
    as (H3l & H3j & H3v & H3o). fold st3 in H3l, H3j, H3v, H3o.
  simpl in H3l, H3j, H3v, H3o.
  destruct (patch (raw schema)) as [p|]; cbv zeta.
  - destruct (extendSchema_fields (source_ref p) (name schema) st3)
      as (Hr & Hs & Hl & Hj & Hv & Ho). cbv zeta in Hr, Hs, Hl, Hj, Hv, Ho.
    rewrite H3 in Hr, Hs, Hl.
    destruct (extendSchema (source_ref p) (name schema) st3) as [[e|[]] st4];
      cbn [fst snd] in *.
    + rewrite Hs, Hl, Hv, Ho, Hj, H3l, H3v, H3o, H3j, Hled, Hval, Hloads, Hj1.
      destruct (catalogWith schema st !! propertyKey (source_ref p)); [done|].
      destruct (inherited (propertyKey (source_ref p))); [|done].
      repeat split; try done. eauto.
    + cbn [schemas schemaExtensions validator loads journal log].
      rewrite Hs, Hl, Hv, Ho, Hj, H3l, H3v, H3o, H3j, Hled, Hval, Hloads, Hj1.
      destruct (catalogWith schema st !! propertyKey (source_ref p)).
      * repeat split; try done. rewrite <- !app_assoc. eauto.
      * destruct (inherited (propertyKey (source_ref p))); [done|].
        repeat split; try done.
        -- unfold pending. by rewrite H3l, Hled.
        -- rewrite <- !app_assoc. eauto.
  - cbn [fst snd schemas schemaExtensions validator loads journal log].
    rewrite H3, H3l, H3v, H3o, H3j, Hled, Hval, Hloads, Hj1.
    repeat split; try done. rewrite <- !app_assoc. eauto.
Qed.

Lemma grownFrom_refl (u : JsonSchema) : grownFrom u u.
Proof. by repeat split. Qed.

Lemma grownFrom_trans (u v w : JsonSchema) :
  grownFrom u v → grownFrom v w → grownFrom u w.
Proof.
  intros (Hn & Hf & Hr & He) (Hn' & Hf' & Hr' & He').
  repeat split; try congruence. intros x Hx. by apply He', He.
Qed.

Lemma grownFrom_addExtension (e : string) (u : JsonSchema) :
  grownFrom u (addExtension e u).
Proof. repeat split; try done. intros x Hx. by apply addExtensionTo_keeps. Qed.

Lemma grownFrom_storedUnit (schema : JsonSchema) (xs : list string) :
  grownFrom schema (storedUnit schema xs).
Proof.
  destruct (foldl_addExtension_fields xs schema) as (? & ? & ? & ? & _).
  by repeat split.
Qed.

Lemma catalogWith_lookup (schema : JsonSchema) (st : State) (k : string) :
  catalogWith schema st !! k
  = if decide (name schema = k)
    then Some (storedUnit schema (pending (name schema) st))
    else schemas st !! k.
Proof. unfold catalogWith. apply lookup_insert. Qed.

Lemma catalogAfter_lookup (schema : JsonSchema) (st : State) (k : string) :
  catalogAfter schema st !! k = catalogWith schema st !! k
  ∨ ∃ b, catalogWith schema st !! k = Some b
         ∧ catalogAfter schema st !! k = Some (addExtension (name schema) b).
Proof.
  unfold catalogAfter. destruct (pendingAt (name schema) st); [|by left].
  destruct (patch (raw schema)) as [p|]; [|by left]. simpl.
  destruct (catalogWith schema st !! propertyKey (source_ref p)) as [b|] eqn:Hb;
    [|by left].
  destruct (decide (propertyKey (source_ref p) = k)) as [<-|Hne].
  - right. exists b. by rewrite lookup_insert_eq.
  - left. by rewrite lookup_insert_ne.
Qed.

(** Units other than the one being registered stay, and only grow. *)
Lemma catalogAfter_keeps (schema : JsonSchema) (st : State) (k : string) (b : JsonSchema) :
  k ≠ name schema → schemas st !! k = Some b →
  ∃ b', catalogAfter schema st !! k = Some b' ∧ grownFrom b b'.
Proof.
  intros Hne Hb.
  assert (Hw : catalogWith schema st !! k = Some b).
  { rewrite catalogWith_lookup. by rewrite decide_False. }
  destruct (catalogAfter_lookup schema st k) as [->|(b0 & Hb0 & ->)].
  - exists b. split; [done|apply grownFrom_refl].
  - rewrite Hw in Hb0. injection Hb0 as <-.
    eexists. split; [done|apply grownFrom_addExtension].
Qed.

(** The registered unit is the loaded one, grown by everything pending
    under its name. *)
Lemma catalogAfter_registered (schema : JsonSchema) (st : State) :
  ∃ u, catalogAfter schema st !! name schema = Some u
       ∧ grownFrom schema u
       ∧ ∀ x, x ∈ pending (name schema) st → x ∈ extensions u.
Proof.
  assert (Hw : catalogWith schema st !! name schema
               = Some (storedUnit schema (pending (name schema) st))).
  { rewrite catalogWith_lookup. by rewrite decide_True. }
  pose proof (grownFrom_storedUnit schema (pending (name schema) st)) as Hg.
  destruct (foldl_addExtension_fields (pending (name schema) st) schema)
    as (_ & _ & _ & _ & Hnew & _). fold (storedUnit schema (pending (name schema) st)) in Hnew.
  destruct (catalogAfter_lookup schema st (name schema)) as [->|(b0 & Hb0 & ->)].
  - eauto.
  - rewrite Hw in Hb0. injection Hb0 as <-. eexists. split; [done|]. split.
    + eapply grownFrom_trans; [done|apply grownFrom_addExtension].
    + intros x Hx. simpl. by apply addExtensionTo_keeps, Hnew.
Qed.

(** Nothing enters the catalog but the unit being registered. *)
Lemma catalogAfter_origin (schema : JsonSchema) (st : State) (k : string) (u : JsonSchema) :
  catalogAfter schema st !! k = Some u →
  (k = name schema ∧ grownFrom schema u)
  ∨ (k ≠ name schema ∧ ∃ b, schemas st !! k = Some b ∧ grownFrom b u).
Proof.
  intros Hu. destruct (decide (k = name schema)) as [->|Hne].
  - left. split; [done|].
    destruct (catalogAfter_registered schema st) as (u' & Hu' & Hg & _). congruence.
  - right. split; [done|].
    assert (Hw : catalogWith schema st !! k = schemas st !! k).
    { rewrite catalogWith_lookup. by rewrite decide_False. }
    destruct (catalogAfter_lookup schema st k) as [Heq|(b0 & Hb0 & Heq)].
    + exists u. split; [congruence|apply grownFrom_refl].
    + exists b0. split; [congruence|].
      rewrite Heq in Hu. injection Hu as <-. apply grownFrom_addExtension.
Qed.

(** Line 111 only ever adds to the store of extensions. *)
Lemma ledgerAfter_keeps (schema : JsonSchema) (st : State) (k x : string) :
  x ∈ pending k st → x ∈ default [] (ledgerAfter schema st !! k).
Proof.
  intros Hx. unfold ledgerAfter.
  destruct (pendingAt (name schema) st); [|done].
  destruct (patch (raw schema)) as [p|]; [|done]. simpl.
  destruct (catalogWith schema st !! propertyKey (source_ref p)); [done|].
  destruct (inherited (propertyKey (source_ref p))); [done|].
  destruct (decide (propertyKey (source_ref p) = k)) as [<-|Hne].
  - rewrite lookup_insert_eq. simpl. apply elem_of_app. by left.
  - by rewrite lookup_insert_ne.
Qed.

(** *** One call of registerSchema *)

(** The unit [load()] resolves with for the unit [createSchema] made. *)
Lemma load_created (path : string) (options : RegisterSchemaOptions) (st : State) :
  load readSchema (createSchema constructedName path options st).1
  = match readSchema path with
    | inl e => inl e
    | inr doc =>
        inr {| name := docName doc; filePath := path; raw := docRaw doc;
               extensions :=
                 newExtensions (createSchema constructedName path options st).1 |}
    end.
Proof.
  destruct (createSchema_fields path options st) as (_ & Hf & _).
  unfold load. rewrite Hf. by destruct (readSchema path).
Qed.

Lemma registerSchema_unfold (path : string) (options : RegisterSchemaOptions) (st : State) :
  registerSchema constructedName readSchema (JsString path) options st
  = registerSchema_resume readSchema path options
      (createSchema constructedName path options st).1
      (createSchema constructedName path options st).2.
Proof.
  unfold registerSchema, registerSchema_begin.
  destruct (createSchema_fields path options st) as (_ & Hf & _).
  destruct (createSchema constructedName path options st) as [schema st1].
  simpl in *. by rewrite Hf.
Qed.

Lemma registerSchema_loaded (path : string) (options : RegisterSchemaOptions)
    (st : State) (doc : Document) :
  readSchema path = inr doc →
  registerSchema constructedName readSchema (JsString path) options st
  = registerLoaded path options
      {| name := docName doc; filePath := path; raw := docRaw doc;
         extensions := newExtensions (createSchema constructedName path options st).1 |}
      (createSchema constructedName path options st).2.
Proof.
  intros Hdoc. rewrite registerSchema_unfold. unfold registerSchema_resume.
  by rewrite load_created, Hdoc.
Qed.

(** [createSchema] does not touch the catalog: what line 105 finds is what
    the caller would have found. *)
Lemma createSchema_schemaAt (path : string) (options : RegisterSchemaOptions)
    (st : State) (key : string) :
  schemaAt key (createSchema constructedName path options st).2 = schemaAt key st.
Proof.
  destruct (createSchema_fields path options st) as (_ & _ & _ & Hs & _).
  unfold schemaAt. by rewrite Hs.
Qed.

(** C9. When [filePath] is not a string, [registerSchema] rejects with
    INVALID_PARAMS naming 'filePath'; this happens before the [await]
    (no unit is constructed, no [load()] is started) and leaves the
    catalog, the store of extensions and the rest of the module as they
    were. *)
Theorem registerSchema_invalid_params (filePathArg : JsValue)
    (options : RegisterSchemaOptions) (st : State) :
  isString filePathArg = false →
  registerSchema constructedName readSchema filePathArg options st
  = (inl (INVALID_PARAMS ["filePath"]), st)
  ∧ registerSchema_begin constructedName filePathArg options st
    = (inl (INVALID_PARAMS ["filePath"]), st).
Proof. by destruct filePathArg. Qed.

(** With [replace], over a name that is free once the old unit is
    deleted. *)
Lemma registerLoaded_replace (path : string) (options : RegisterSchemaOptions)
    (schema : JsonSchema) (st : State) :
  truthy (schemaAt (name schema) st) = true → replace options = true →
  truthy (schemaAt (name schema) (deregisterSchema (name schema) st)) = false →
  registerLoaded path options schema st
  = registerLoaded path noOptions schema (deregisterSchema (name schema) st).
Proof.
  intros Htaken Hrep Hfree. unfold registerLoaded. by rewrite Htaken, Hrep, Hfree.
Qed.

(** C3. When the catalog already has a unit under the name of the loaded
    schema.  Without [options.replace] the call rejects with SCHEMA_EXISTS
    carrying the name and the file path, and the catalog is as before.
    With [options.replace] the old unit is deregistered (DEREGISTER_SCHEMA
    is logged) and the catalog then holds the new unit under the name.
    Where the name is no name of [Object.prototype], the call is the
    registration of the new unit in the module where the old unit has
    been deregistered, so that the name is free when the new unit is
    stored; and where the patch source, if the document has one, is no
    such name either (the catalog inheriting from [Object.prototype]),
    the call succeeds. *)
Theorem registerSchema_name_taken (path : string) (options : RegisterSchemaOptions)
    (st : State) (doc : Document) (old : JsonSchema) :
  readSchema path = inr doc →
  schemas st !! docName doc = Some old →
  let created := createSchema constructedName path options st in
  let loaded := {| name := docName doc; filePath := path; raw := docRaw doc;
                   extensions := newExtensions created.1 |} in
  let result := registerSchema constructedName readSchema (JsString path) options st in
  if replace options
  then (∃ u, schemas result.2 !! docName doc = Some u ∧ grownFrom loaded u)
       ∧ {| level := "debug";
            args := [LogText "DEREGISTER_SCHEMA"; LogText (docName doc)] |}
           ∈ journal result.2
       ∧ (inherited (docName doc) = false →
            result = registerLoaded path noOptions loaded
                       (deregisterSchema (docName doc) created.2)
            ∧ schemas (deregisterSchema (docName doc) created.2) !! docName doc = None
            ∧ ((∀ p, patch (docRaw doc) = Some p →
                     inherited (propertyKey (source_ref p)) = false) →
               plainCatalog st → result.1 = inr tt))
  else result = (inl (SCHEMA_EXISTS (docName doc) path), created.2)
       ∧ schemas result.2 = schemas st.
Proof.
  intros Hdoc Hold. simpl. rewrite (registerSchema_loaded _ _ _ _ Hdoc).
  destruct (createSchema_fields path options st) as (_ & _ & _ & Hs & _ & Hj & _).
  pose proof (createSchema_schemaAt path options st (docName doc)) as Hat.
  set (st1 := (createSchema constructedName path options st).2) in *.
  set (loaded := {| name := docName doc; filePath := path; raw := docRaw doc;
                    extensions := _ |}).
  assert (Htaken : truthy (schemaAt (name loaded) st1) = true).
  { change (name loaded) with (docName doc). rewrite Hat.
    by rewrite (schemaAt_own _ _ _ Hold). }
  destruct (replace options) eqn:Hrep.
  - destruct (registerLoaded_proceeds path options loaded st1 (or_intror Hrep))
      as (Hr & Hc & _).
    cbv zeta in Hr, Hc. split; [|split].
    + rewrite Hc.
      destruct (catalogAfter_registered loaded st1) as (u & Hu & Hg & _). eauto.
    + unfold registerLoaded. rewrite Htaken, Hrep. cbn [andb negb].
      destruct (deregisterSchema_fields (docName doc) st1) as (_ & Hl & Hjd & _).
      change (name loaded) with (docName doc).
      set (st2 := withSchemas (<[docName doc := loaded]>)
                    (deregisterSchema (docName doc) st1)).
      assert (Hj2 : {| level := "debug";
                       args := [LogText "DEREGISTER_SCHEMA"; LogText (docName doc)] |}
                    ∈ journal st2).
      { unfold st2. cbn [journal withSchemas]. rewrite Hjd.
        apply elem_of_app. right. by apply list_elem_of_singleton. }
      destruct (pendingAt (docName doc) st2) as [xs|]; [|done].
      destruct (addExtensions_frame (docName doc) xs st2) as (_ & Hj3 & _).
      set (st3 := addExtensions (docName doc) xs st2) in *.
      assert (Hj3' : {| level := "debug";
                        args := [LogText "DEREGISTER_SCHEMA"; LogText (docName doc)] |}
                     ∈ journal st3) by (by rewrite Hj3).
      destruct (patch (raw loaded)) as [p|].
      * destruct (extendSchema_fields (source_ref p) (docName doc) st3)
          as (_ & _ & _ & Hj4 & _). cbv zeta in Hj4.
        destruct (extendSchema (source_ref p) (docName doc) st3) as [[e|[]] st4];
          cbn [fst snd journal log] in *.
        -- by rewrite Hj4.
        -- rewrite Hj4. apply elem_of_app. left. apply elem_of_app. by left.
      * cbn [snd journal log]. apply elem_of_app. by left.
    + intros Hown.
      assert (Hgone : schemas (deregisterSchema (docName doc) st1) !! docName doc = None).
      { destruct (deregisterSchema_fields (docName doc) st1) as (-> & _).
        by apply lookup_deleteProperty_own. }
      assert (Hfree : truthy (schemaAt (name loaded) (deregisterSchema (docName doc) st1))
                      = false).
      { apply truthy_free. by split. }
      split; [|split; [done|]].
      * by apply registerLoaded_replace.
      * intros Hsource _. rewrite Hr. by apply outcomeAfter_ok.
  - rewrite registerLoaded_exists by done. simpl. done.
Qed.

(** A registration that gets past line 105 hands the unit every name
    pending under the name it loads with, whether [createSchema] or line
    110 finds it. *)
Lemma registerSchema_applies_pending (path : string) (options : RegisterSchemaOptions)
    (st : State) (doc : Document) (x : string) :
  readSchema path = inr doc →
  truthy (schemaAt (docName doc) st) = false ∨ replace options = true →
  x ∈ pending (docName doc) st →
  ∃ u, schemas (registerSchema constructedName readSchema (JsString path) options st).2
         !! docName doc = Some u
       ∧ x ∈ extensions u.
Proof.
  intros Hdoc Hfree Hx. rewrite (registerSchema_loaded _ _ _ _ Hdoc).
  destruct (createSchema_fields path options st) as (_ & _ & Hext & Hs & Hl & _).
  pose proof (createSchema_schemaAt path options st (docName doc)) as Hat.
  set (st1 := (createSchema constructedName path options st).2) in *.
  set (loaded := {| name := docName doc; filePath := path; raw := docRaw doc;
                    extensions := _ |}).
  destruct (registerLoaded_proceeds path options loaded st1) as (_ & Hc & _).
  { change (name loaded) with (docName doc). by rewrite Hat. }
  rewrite Hc.
  destruct (catalogAfter_registered loaded st1) as (u & Hu & (_ & _ & _ & Hg) & Happ).
  exists u. split; [exact Hu|].
  destruct (decide (propertyKey (constructedName path options) = docName doc))
    as [Heq|Hne].
  - apply Hg. simpl. apply Hext. by rewrite Heq.
  - apply Happ. unfold pending. change (name loaded) with (docName doc).
    rewrite Hl, lookup_delete_ne by done. exact Hx.
Qed.

(** C5. A registration of [E], for a document declaring the patch source
    [S], where neither [E] nor [S] is a name of [Object.prototype] and the
    catalog inherits from [Object.prototype].  The registration succeeds.
    When [S] is in the catalog, [E] is added to the extension set of [S]
    by [addExtension] and the store of extensions is not written; when
    [S] is not, [E] is appended to the list pending under [S], and a
    later registration of [S] hands [E] to the unit of [S].  The catalog
    meant is the one line 111 sees, which holds [E] itself: a schema that
    names itself as its source is its own extension.  The store meant is
    the one [createSchema] left. *)
Theorem registerSchema_patch_source (path : string) (options : RegisterSchemaOptions)
    (st : State) (doc : Document) (p : Patch) (S : string) :
  readSchema path = inr doc →
  patch (docRaw doc) = Some p →
  source_ref p = Some S →
  inherited (docName doc) = false →
  inherited S = false →
  plainCatalog st →
  schemas st !! docName doc = None ∨ replace options = true →
  let E := docName doc in
  let created := createSchema constructedName path options st in
  let result := registerSchema constructedName readSchema (JsString path) options st in
  result.1 = inr tt
  ∧ (∀ base, S ≠ E → schemas st !! S = Some base →
       schemas result.2 !! S = Some (addExtension E base)
       ∧ schemaExtensions result.2 = schemaExtensions created.2)
  ∧ (S ≠ E → schemas st !! S = None →
       schemas result.2 !! S = None
       ∧ schemaExtensions result.2
         = <[S := pending S created.2 ++ [E]]> (schemaExtensions created.2)
       ∧ ∀ path' options' doc',
           readSchema path' = inr doc' → docName doc' = S →
           ∃ u, schemas (registerSchema constructedName readSchema (JsString path')
                           options' result.2).2 !! S = Some u
                ∧ E ∈ extensions u)
  ∧ (S = E →
       ∃ u, schemas result.2 !! E = Some u ∧ E ∈ extensions u
            ∧ schemaExtensions result.2 = schemaExtensions created.2).
Proof.
  intros Hdoc Hp HS HownE HownS _ Hfree. simpl.
  assert (Hlater : ∀ st2 path' options' doc',
            schemas st2 !! S = None → docName doc ∈ pending S st2 →
            readSchema path' = inr doc' → docName doc' = S →
            ∃ u, schemas (registerSchema constructedName readSchema (JsString path')
                            options' st2).2 !! S = Some u
                 ∧ docName doc ∈ extensions u).
  { intros st2 path' options' doc' Hnone Hpend Hdoc' <-.
    apply registerSchema_applies_pending; [done| |done].
    left. by apply truthy_free. }
  revert Hlater. rewrite (registerSchema_loaded _ _ _ _ Hdoc).
  destruct (createSchema_fields path options st) as (_ & _ & _ & Hs & _).
  pose proof (createSchema_schemaAt path options st (docName doc)) as Hat.
  set (st1 := (createSchema constructedName path options st).2) in *.
  set (loaded := {| name := docName doc; filePath := path; raw := docRaw doc;
                    extensions := _ |}).
  destruct (registerLoaded_proceeds path options loaded st1) as (Hr & Hc & Hl & _).
  { change (name loaded) with (docName doc). rewrite Hat.
    destruct Hfree as [Hnone|Hrep]; [left|by right]. by apply truthy_free. }
  assert (Hok : outcomeAfter loaded st1 = inr tt).
  { apply outcomeAfter_ok; [done|].
    change (raw loaded) with (docRaw doc). intros p'. rewrite Hp. intros [= <-].
    by rewrite HS. }
  assert (Hpend : pendingAt (name loaded) st1 = Some (pending (name loaded) st1))
    by (by apply pendingAt_own).
  intros Hlater.
  split; [by rewrite Hr|]. split; [|split].
  - rewrite Hc, Hl. unfold catalogAfter, ledgerAfter. rewrite Hpend.
    change (raw loaded) with (docRaw doc). change (name loaded) with (docName doc).
    rewrite Hp, HS. cbn [propertyKey default from_option id].
    rewrite catalogWith_lookup. change (name loaded) with (docName doc).
    intros base Hne Hbase. rewrite decide_False by done.
    rewrite Hs, Hbase. by rewrite lookup_insert_eq.
  - intros Hne Hnone.
    assert (Hcat : schemas (registerLoaded path options loaded st1).2 !! S = None
                   ∧ schemaExtensions (registerLoaded path options loaded st1).2
                     = <[S := pending S st1 ++ [docName doc]]> (schemaExtensions st1)).
    { rewrite Hc, Hl. unfold catalogAfter, ledgerAfter. rewrite Hpend.
      change (raw loaded) with (docRaw doc). change (name loaded) with (docName doc).
      rewrite Hp, HS. cbn [propertyKey default from_option id].
      rewrite catalogWith_lookup. change (name loaded) with (docName doc).
      rewrite decide_False by done. rewrite Hs, Hnone, HownS. split; [|done].
      rewrite catalogWith_lookup. change (name loaded) with (docName doc).
      rewrite decide_False by done. by rewrite Hs. }
    destruct Hcat as [Hcat Hled]. split; [done|]. split; [done|].
    intros path' options' doc' Hdoc' Hname. apply (Hlater _ _ _ doc'); try done.
    unfold pending. rewrite Hled, lookup_insert_eq. simpl.
    apply elem_of_app. right. by apply list_elem_of_singleton.
  - rewrite Hc, Hl. unfold catalogAfter, ledgerAfter. rewrite Hpend.
    change (raw loaded) with (docRaw doc). change (name loaded) with (docName doc).
    rewrite Hp, HS. cbn [propertyKey default from_option id].
    rewrite catalogWith_lookup. change (name loaded) with (docName doc).
    intros ->. rewrite decide_True by done.
    eexists. rewrite lookup_insert_eq. split; [done|]. split; [|done].
    simpl. apply addExtensionTo_adds.
Qed.

Lemma registerLoaded_cases (path : string) (options : RegisterSchemaOptions)
    (schema : JsonSchema) (st : State) :
  (truthy (schemaAt (name schema) st) = true ∧ replace options = false
   ∧ registerLoaded path options schema st
     = (inl (SCHEMA_EXISTS (name schema) path), st))
  ∨ ((truthy (schemaAt (name schema) st) = false ∨ replace options = true)
     ∧ (registerLoaded path options schema st).1 = outcomeAfter schema st
     ∧ schemas (registerLoaded path options schema st).2 = catalogAfter schema st
     ∧ schemaExtensions (registerLoaded path options schema st).2
       = ledgerAfter schema st
     ∧ ∃ more, journal (registerLoaded path options schema st).2
               = journal st ++ more).
Proof.
  destruct (truthy (schemaAt (name schema) st)) eqn:Htaken;
    [destruct (replace options) eqn:Hrep|].
  - right. split; [by right|].
    destruct (registerLoaded_proceeds path options schema st) as (? & ? & ? & _ & _ & ?);
      [by right|done].
  - left. repeat split. by apply registerLoaded_exists.
  - right. split; [by left|].
    destruct (registerLoaded_proceeds path options schema st) as (? & ? & ? & _ & _ & ?);
      [by left|done].
Qed.

Lemma resume_cases (path : string) (options : RegisterSchemaOptions)
    (schema : NewSchema) (st : State) :
  (∃ e, readSchema (newFilePath schema) = inl e
        ∧ registerSchema_resume readSchema path options schema st = (inl e, st))
  ∨ (∃ doc, readSchema (newFilePath schema) = inr doc
        ∧ registerSchema_resume readSchema path options schema st
          = registerLoaded path options
              {| name := docName doc; filePath := newFilePath schema;
                 raw := docRaw doc; extensions := newExtensions schema |} st).
Proof.
  unfold registerSchema_resume, load.
  destruct (readSchema (newFilePath schema)) as [e|doc]; [left|right]; eauto.
Qed.

Lemma resume_pending_keeps (path : string) (options : RegisterSchemaOptions)
    (schema : NewSchema) (st : State) (k x : string) :
  x ∈ pending k st →
  x ∈ pending k (registerSchema_resume readSchema path options schema st).2.
Proof.
  intros Hx.
  destruct (resume_cases path options schema st) as [(e & _ & ->)|(doc & _ & ->)];
    [done|].
  match goal with |- context [registerLoaded _ _ ?u _] => set (loaded := u) end.
  destruct (registerLoaded_cases path options loaded st)
    as [(_ & _ & ->)|(_ & _ & _ & Hl & _)]; [done|].
  unfold pending. rewrite Hl. by apply ledgerAfter_keeps.
Qed.

Lemma resume_journal_keeps (path : string) (options : RegisterSchemaOptions)
    (schema : NewSchema) (st : State) (entry : LogEntry) :
  entry ∈ journal st →
  entry ∈ journal (registerSchema_resume readSchema path options schema st).2.
Proof.
  intros Hx.
  destruct (resume_cases path options schema st) as [(e & _ & ->)|(doc & _ & ->)];
    [done|].
  match goal with |- context [registerLoaded _ _ ?u _] => set (loaded := u) end.
  destruct (registerLoaded_cases path options loaded st)
    as [(_ & _ & ->)|(_ & _ & _ & _ & more & ->)]; [done|].
  apply elem_of_app. by left.
Qed.

(** Without [replace], a unit in the catalog stays and only grows. *)
Lemma resume_catalog_keeps (path : string) (schema : NewSchema) (st : State)
    (k : string) (b : JsonSchema) :
  schemas st !! k = Some b →
  ∃ b', schemas (registerSchema_resume readSchema path noOptions schema st).2 !! k
        = Some b' ∧ grownFrom b b'.
Proof.
  intros Hb.
  destruct (resume_cases path noOptions schema st) as [(e & _ & ->)|(doc & _ & ->)].
  { exists b. split; [done|apply grownFrom_refl]. }
  match goal with |- context [registerLoaded _ _ ?u _] => set (loaded := u) end.
  destruct (registerLoaded_cases path noOptions loaded st)
    as [(_ & _ & ->)|([Hnone|Hrep] & _ & Hc & _)].
  - exists b. split; [done|apply grownFrom_refl].
  - rewrite Hc. apply catalogAfter_keeps; [|done]. intros ->.
    apply truthy_free in Hnone as [Hnone _]. congruence.
  - done.
Qed.

(** A unit found in the catalog afterwards was there before, or is the
    one this registration loaded and stored. *)
Lemma resume_catalog_origin (path : string) (options : RegisterSchemaOptions)
    (schema : NewSchema) (st : State) (k : string) (u : JsonSchema) :
  schemas (registerSchema_resume readSchema path options schema st).2 !! k = Some u →
  (∃ b, schemas st !! k = Some b ∧ grownFrom b u)
  ∨ (∃ doc, readSchema (newFilePath schema) = inr doc ∧ docName doc = k
            ∧ name u = k ∧ filePath u = newFilePath schema ∧ raw u = docRaw doc
            ∧ ∀ x, x ∈ pending k st → x ∈ extensions u).
Proof.
  destruct (resume_cases path options schema st) as [(e & _ & ->)|(doc & Hdoc & ->)].
  { intros Hu. left. exists u. split; [done|apply grownFrom_refl]. }
  match goal with |- context [registerLoaded _ _ ?v _] => set (loaded := v) end.
  destruct (registerLoaded_cases path options loaded st)
    as [(_ & _ & ->)|(_ & _ & Hc & _)].
  { intros Hu. left. exists u. split; [done|apply grownFrom_refl]. }
  rewrite Hc. intros Hu.
  destruct (catalogAfter_origin loaded st k u Hu) as [(-> & Hg)|(Hne & b & Hb & Hg)].
  - right. exists doc. destruct Hg as (Hn & Hf & Hr & _).
    repeat split; try done.
    destruct (catalogAfter_registered loaded st) as (u' & Hu' & _ & Happ).
    rewrite Hu in Hu'. injection Hu' as <-. done.
  - left. eauto.
Qed.

(** Without [replace], a unit enters the catalog only under a name that
    [Object.prototype] has not. *)
Lemma resume_catalog_own (path : string) (schema : NewSchema) (st : State) :
  (∀ k, is_Some (schemas st !! k) → inherited k = false) →
  ∀ k, is_Some (schemas (registerSchema_resume readSchema path noOptions schema st).2
                !! k) →
       inherited k = false.
Proof.
  intros Hown k.
  destruct (resume_cases path noOptions schema st) as [(e & _ & ->)|(doc & Hdoc & ->)];
    [by apply Hown|].
  match goal with |- context [registerLoaded _ _ ?v _] => set (loaded := v) end.
  destruct (registerLoaded_cases path noOptions loaded st)
    as [(_ & _ & ->)|([Hfree|Hrep] & _ & Hc & _)]; [by apply Hown| |done].
  rewrite Hc. intros [u Hu].
  destruct (catalogAfter_origin loaded st k u Hu) as [(-> & _)|(_ & b & Hb & _)].
  - by apply truthy_free in Hfree as [_ ?].
  - apply Hown. eauto.
Qed.

(** What the task settles with, and that a loadable file leaves its name
    registered, unless [Object.prototype] has the name. *)
Lemma resume_outcome (path : string) (schema : NewSchema) (st : State) :
  match readSchema (newFilePath schema) with
  | inl e => registerSchema_resume readSchema path noOptions schema st = (inl e, st)
  | inr doc =>
      (inherited (docName doc) = false →
       is_Some (schemas (registerSchema_resume readSchema path noOptions schema st).2
                !! docName doc))
      ∧ ((registerSchema_resume readSchema path noOptions schema st).1 = inr tt
         ∨ (registerSchema_resume readSchema path noOptions schema st).1
           = inl (SCHEMA_EXISTS (docName doc) path)
         ∨ (registerSchema_resume readSchema path noOptions schema st).1
           = inl (TYPE_ERROR (NotAFunction "baseSchema.addExtension")))
  end.
Proof.
  destruct (resume_cases path noOptions schema st)
    as [(e & -> & ->)|(doc & -> & ->)]; [done|].
  match goal with |- context [registerLoaded _ _ ?v _] => set (loaded := v) end.
  destruct (registerLoaded_cases path noOptions loaded st)
    as [(Htaken & _ & ->)|([Hfree|Hrep] & Hr & Hc & _)]; [| |done].
  - split; [|right; by left]. intros Hown.
    apply truthy_schemaAt in Htaken as [?|Hin]; [done|].
    change (name loaded) with (docName doc) in Hin. congruence.
  - split.
    + intros _. rewrite Hc.
      destruct (catalogAfter_registered loaded st) as (u & Hu & _). eauto.
    + rewrite Hr. apply truthy_free in Hfree as [_ Hown].
      destruct (outcomeAfter_cases loaded st) as [->|[[_ Hin]|[-> _]]];
        [by left|congruence|right; by right].
Qed.

(** An extension pending under [awaited] reaches whatever unit is in the
    catalog under that name afterwards. *)
Lemma resume_awaited (path : string) (options : RegisterSchemaOptions)
    (schema : NewSchema) (st : State) (awaited ext : string) :
  ext ∈ pending awaited st →
  (∀ u, schemas st !! awaited = Some u → ext ∈ extensions u) →
  ∀ u, schemas (registerSchema_resume readSchema path options schema st).2 !! awaited
       = Some u → ext ∈ extensions u.
Proof.
  intros Hpend Hcat u Hu.
  destruct (resume_catalog_origin path options schema st awaited u Hu)
    as [(b & Hb & _ & _ & _ & Hg)|(doc & _ & _ & _ & _ & _ & Happ)].
  - apply Hg. by apply Hcat.
  - by apply Happ.
Qed.

(** *** The steps of a pass *)

Lemma logRejections_fields (ts : list (string * Task)) (st : State) :
  schemas (logRejections ts st) = schemas st
  ∧ schemaExtensions (logRejections ts st) = schemaExtensions st
  ∧ (∀ entry, entry ∈ journal st → entry ∈ journal (logRejections ts st))
  ∧ (forallb isSettled ts = true →
     ∀ e, e ∈ rejections ts → rejectionWarning e ∈ journal (logRejections ts st)).
Proof.
  assert (Hfold : ∀ es s,
    let s' := foldl (λ st e, log "warn" [LogError e] st) s es in
    schemas s' = schemas s ∧ schemaExtensions s' = schemaExtensions s
    ∧ (∀ entry, entry ∈ journal s → entry ∈ journal s')
    ∧ (∀ e, e ∈ es → rejectionWarning e ∈ journal s')).
  { induction es as [|e es IH]; intros s; simpl.
    { repeat split; try done. by intros e He%elem_of_nil. }
    destruct (IH (log "warn" [LogError e] s)) as (Hs & Hl & Hj & Hw).
    simpl in *. repeat split; try done.
    - intros entry He. apply Hj. apply elem_of_app. by left.
    - intros e' [->|He']%elem_of_cons; [|by apply Hw].
      apply Hj. apply elem_of_app. right. by apply list_elem_of_singleton. }
  unfold logRejections. destruct (forallb isSettled ts).
  - destruct (Hfold (rejections ts) st) as (? & ? & ? & ?). by repeat split.
  - repeat split; try done.
Qed.

Lemma startTasks_snoc (files : list string) (f : string) (st : State) :
  startTasks constructedName (files ++ [f]) st
  = startTask constructedName (startTasks constructedName files st) f.
Proof. unfold startTasks. by rewrite foldl_snoc. Qed.

Lemma startTasks_fields (files : list string) (st : State) :
  (startTasks constructedName files st).1.*1 = files
  ∧ Forall (λ t, ∃ schema, t.2 = Loading schema ∧ newFilePath schema = t.1)
           (startTasks constructedName files st).1
  ∧ schemas (startTasks constructedName files st).2 = schemas st
  ∧ journal (startTasks constructedName files st).2 = journal st
  ∧ ∀ k x, (∀ f, f ∈ files → propertyKey (constructedName f noOptions) ≠ k) →
           x ∈ pending k st →
           x ∈ pending k (startTasks constructedName files st).2.
Proof.
  induction files as [|f files IH] using rev_ind.
  { repeat split; try done. }
  rewrite startTasks_snoc.
  destruct IH as (Hfst & Hall & Hs & Hj & Hp).
  destruct (startTasks constructedName files st) as [ts st1].
  unfold startTask, registerSchema_begin.
  destruct (createSchema_fields f noOptions st1) as (_ & Hf & _ & Hs1 & Hl1 & Hj1 & _).
  destruct (createSchema constructedName f noOptions st1) as [schema st2].
  cbn [fst snd] in *. repeat split.
  - by rewrite fmap_app, Hfst.
  - apply Forall_app. split; [done|]. apply Forall_singleton. eauto.
  - congruence.
  - congruence.
  - intros k x Hk Hx. unfold pending. rewrite Hl1.
    rewrite lookup_delete_ne.
    + apply Hp; [|done]. intros f' Hf'. apply Hk. apply elem_of_app. by left.
    + apply Hk. apply elem_of_app. right. by apply list_elem_of_singleton.
Qed.

Lemma createSchema_pending (path : string) (options : RegisterSchemaOptions)
    (st : State) (k x : string) :
  x ∈ pending k (createSchema constructedName path options st).2 →
  k ≠ propertyKey (constructedName path options) ∧ x ∈ pending k st.
Proof.
  destruct (createSchema_fields path options st) as (_ & _ & _ & _ & Hl & _).
  unfold pending. rewrite Hl, lookup_delete.
  case_decide; [by intros ?%elem_of_nil|done].
Qed.

Lemma createSchema_pending_keeps (path : string) (options : RegisterSchemaOptions)
    (st : State) (k x : string) :
  k ≠ propertyKey (constructedName path options) → x ∈ pending k st →
  x ∈ pending k (createSchema constructedName path options st).2.
Proof.
  destruct (createSchema_fields path options st) as (_ & _ & _ & _ & Hl & _).
  intros Hne. unfold pending. by rewrite Hl, lookup_delete_ne.
Qed.

(** Where the constructor already gives the unit the name it loads with,
    a registration on its own does leave no entry under that name: the
    entry [createSchema] deleted is not written again by line 111. *)
Lemma registerSchema_drains_constructed_name (path : string)
    (options : RegisterSchemaOptions) (st : State) (doc : Document) :
  readSchema path = inr doc →
  constructedName path options = Some (docName doc) →
  inherited (docName doc) = false →
  (∀ p, patch (docRaw doc) = Some p → inherited (propertyKey (source_ref p)) = false) →
  schemas st !! docName doc = None ∨ replace options = true →
  let result := registerSchema constructedName readSchema (JsString path) options st in
  result.1 = inr tt
  ∧ is_Some (schemas result.2 !! docName doc)
  ∧ schemaExtensions result.2 !! docName doc = None.
Proof.
  intros Hdoc Hname Hown Hsource Hfree. simpl.
  rewrite (registerSchema_loaded _ _ _ _ Hdoc).
  destruct (createSchema_fields path options st) as (_ & _ & _ & Hs & Hl & _).
  pose proof (createSchema_schemaAt path options st (docName doc)) as Hat.
  set (st1 := (createSchema constructedName path options st).2) in *.
  set (loaded := {| name := docName doc; filePath := path; raw := docRaw doc;
                    extensions := _ |}).
  destruct (registerLoaded_proceeds path options loaded st1) as (Hr & Hc & Hled & _).
  { change (name loaded) with (docName doc). rewrite Hat.
    destruct Hfree as [Hnone|Hrep]; [left|by right]. by apply truthy_free. }
  split; [rewrite Hr; by apply outcomeAfter_ok|]. rewrite Hc, Hled. split.
  - destruct (catalogAfter_registered loaded st1) as (u & Hu & _). eauto.
  - assert (Hgone : schemaExtensions st1 !! docName doc = None).
    { rewrite Hl, Hname. simpl. apply lookup_delete_eq. }
    unfold ledgerAfter. destruct (pendingAt (name loaded) st1); [|done].
    destruct (patch (raw loaded)) as [p|]; [|done]. simpl.
    destruct (catalogWith loaded st1 !! propertyKey (source_ref p)) as [b|] eqn:Hb;
      [done|].
    destruct (inherited (propertyKey (source_ref p))); [done|].
    rewrite lookup_insert_ne; [done|]. intros Heq. rewrite Heq in Hb.
    rewrite catalogWith_lookup in Hb. change (name loaded) with (docName doc) in Hb.
    by rewrite decide_True in Hb.
Qed.

(** C4, as the code has it. Registering [N] with [options.replace] over an
    older unit [N] puts the new unit in the old one's place; the new
    unit's extension set comes from the store of extensions (and from its
    own patch of itself), not from the old unit.  What the old unit
    contributed elsewhere stays: every other unit of the catalog keeps
    all the names in its extension set, and every list of the store of
    extensions keeps its names, but for the list under the name the new
    unit had when constructed.  The call succeeds where neither [N] nor
    the patch source of the new document is a name of [Object.prototype]
    (the catalog inheriting from [Object.prototype]). *)
Theorem registerSchema_replace_keeps_relationships (path : string)
    (options : RegisterSchemaOptions) (st : State) (doc : Document)
    (old : JsonSchema) :
  readSchema path = inr doc →
  schemas st !! docName doc = Some old →
  replace options = true →
  let N := docName doc in
  let result := registerSchema constructedName readSchema (JsString path) options st in
  (inherited N = false →
   (∀ p, patch (docRaw doc) = Some p → inherited (propertyKey (source_ref p)) = false) →
   plainCatalog st → result.1 = inr tt)
  ∧ (∃ u, schemas result.2 !! N = Some u ∧ filePath u = path ∧ raw u = docRaw doc
          ∧ ∀ x, x ∈ extensions u →
                 x ∈ pending (propertyKey (constructedName path options)) st
                 ∨ x ∈ pending N st ∨ x = N)
  ∧ (∀ S b, S ≠ N → schemas st !! S = Some b →
            ∃ b', schemas result.2 !! S = Some b' ∧ grownFrom b b')
  ∧ (∀ S x, S ≠ propertyKey (constructedName path options) →
            x ∈ pending S st → x ∈ pending S result.2).
Proof.
  intros Hdoc Hold Hrep. simpl. rewrite (registerSchema_loaded _ _ _ _ Hdoc).
  destruct (createSchema_fields path options st) as (_ & _ & Hext & Hs & _).
  set (st1 := (createSchema constructedName path options st).2) in *.
  set (loaded := {| name := docName doc; filePath := path; raw := docRaw doc;
                    extensions := _ |}).
  destruct (registerLoaded_proceeds path options loaded st1) as (Hr & Hc & Hl & _).
  { by right. }
  split; [intros Hown Hsource _; rewrite Hr; by apply outcomeAfter_ok|].
  rewrite Hc. split; [|split].
  - destruct (foldl_addExtension_fields (pending (docName doc) st1) loaded)
      as (_ & Hf & Hraw & _ & _ & Honly).
    fold (storedUnit loaded (pending (docName doc) st1)) in Hf, Hraw, Honly.
    assert (Hstored : ∀ x, x ∈ extensions (storedUnit loaded (pending (docName doc) st1)) →
              x ∈ pending (propertyKey (constructedName path options)) st
              ∨ x ∈ pending (docName doc) st ∨ x = docName doc).
    { intros x Hx. destruct (Honly x Hx) as [Hx'|Hx'].
      - left. by apply Hext.
      - right. left. by apply (createSchema_pending path options st). }
    assert (Hw : catalogWith loaded st1 !! docName doc
                 = Some (storedUnit loaded (pending (docName doc) st1))).
    { rewrite catalogWith_lookup. by rewrite decide_True. }
    destruct (catalogAfter_lookup loaded st1 (docName doc)) as [->|(b0 & Hb0 & ->)].
    + rewrite Hw. eexists. split; [done|]. by repeat split.
    + rewrite Hw in Hb0. injection Hb0 as <-. eexists. split; [done|].
      repeat split; try done. simpl. intros x Hx.
      apply addExtensionTo_only in Hx as [Hx| ->]; [by apply Hstored|].
      right. by right.
  - intros S b Hne Hb. apply catalogAfter_keeps; [done|]. by rewrite Hs.
  - intros S x Hne Hx. unfold pending. rewrite Hl.
    apply ledgerAfter_keeps. by apply createSchema_pending_keeps.
Qed.
End RegistryProperties.

Section DiscoveryProperties.
Variable constructedName : string → RegisterSchemaOptions → option string.
Variable readSchema : string → AppError + Document.
Variable globs : list (AppError + list string).

Lemma rejections_elem (ts : list (string * Task)) (e : AppError) :
  e ∈ rejections ts ↔ ∃ f, (f, Settled (inl e)) ∈ ts.
Proof.
  unfold rejections. rewrite list_elem_of_omap. split.
  - intros ([f t] & Hin & Ht). simpl in Ht.
    destruct t as [|[e'|]]; try done. injection Ht as ->. eauto.
  - intros (f & Hin). exists (f, Settled (inl e)). done.
Qed.

Lemma settle_fst (ts : list (string * Task)) (i : nat) (f : string) (t t' : Task) :
  ts !! i = Some (f, t) → (<[i := (f, t')]> ts).*1 = ts.*1.
Proof.
  intros Hi. rewrite list_fmap_insert. simpl.
  apply list_insert_id. by rewrite list_lookup_fmap, Hi.
Qed.

Lemma initial_discoveryInvariant (st : State) :
  discoveryInvariant readSchema globs
    (registerSchemas constructedName readSchema globs [] st).
Proof. constructor; simpl; intros *; try done; try (by rewrite lookup_empty).
  all: rewrite lookup_empty; by intros [? ?].
Qed.

Lemma step_discoveryInvariant (p : Pass) (ev : Event) :
  discoveryInvariant readSchema globs p →
  discoveryInvariant readSchema globs (step constructedName readSchema globs p ev).
Proof.
  intros [I1 I2 I3 I4 I5 I6 I7]. destruct ev as [d|d i]; simpl.
  - destruct (started p !! d) as [ts0|] eqn:Hd; [by constructor|].
    destruct (globs !! d) as [[e|files]|] eqn:Hg; [| |by constructor].
    + constructor; simpl.
      * intros e'. destruct (rejection p) as [e0|] eqn:Hrej; simpl;
          intros [= <-]; [by apply I1|eauto].
      * intros d' ts. rewrite lookup_insert. case_decide as Hdd; [|by apply I2].
        subst d'. intros [= <-]. exists (inl e). done.
      * intros d' ts i f schema. rewrite lookup_insert.
        case_decide as Hdd; [|by apply I3]. by intros [= <-].
      * intros d' ts i f r. rewrite lookup_insert.
        case_decide as Hdd; [|by apply I4]. by intros [= <-].
      * intros d' ts e'. rewrite lookup_insert.
        case_decide as Hdd; [|by apply I5].
        intros [= <-] _ Hin. by apply elem_of_nil in Hin.
      * done.
      * done.
    + destruct (startTasks_fields constructedName files (registry p))
        as (Hfst & Hall & Hs & Hj & _).
      destruct (startTasks constructedName files (registry p)) as [ts st1].
      cbn [fst snd] in *.
      destruct (logRejections_fields ts st1) as (Hs' & _ & Hj' & Hlog).
      constructor; simpl.
      * done.
      * intros d' ts'. rewrite lookup_insert. case_decide as Hdd; [|by apply I2].
        subst d'. intros [= <-]. exists (inr files). done.
      * intros d' ts' i f schema. rewrite lookup_insert.
        case_decide as Hdd; [|by apply I3].
        intros [= <-] Hi. rewrite Forall_lookup in Hall.
        destruct (Hall _ _ Hi) as (schema' & Ht & Hf). simpl in *. congruence.
      * intros d' ts' i f r. rewrite lookup_insert. rewrite Hs', Hs.
        case_decide as Hdd; [|by apply I4].
        intros [= <-] Hi. rewrite Forall_lookup in Hall.
        destruct (Hall _ _ Hi) as (schema' & Ht & _). done.
      * intros d' ts' e. rewrite lookup_insert.
        case_decide as Hdd.
        -- intros [= <-] Hset He. by apply Hlog.
        -- intros Hd' Hall' He. apply Hj'. rewrite Hj. by eapply I5.
      * intros k u. rewrite Hs', Hs. apply I6.
      * intros k. rewrite Hs', Hs. apply I7.
  - destruct (started p !! d) as [ts|] eqn:Hd; [|by constructor].
    destruct (ts !! i) as [[f [schema|r0]]|] eqn:Hi; try by constructor.
    pose proof (I3 _ _ _ _ _ Hd Hi) as Hpath.
    pose proof (resume_outcome readSchema f schema (registry p)) as Hout.
    pose proof (resume_catalog_keeps readSchema f schema (registry p)) as Hkeep.
    pose proof (resume_catalog_origin readSchema f noOptions schema (registry p))
      as Horigin.
    pose proof (resume_catalog_own readSchema f schema (registry p) I7) as Hown.
    pose proof (resume_journal_keeps readSchema f noOptions schema (registry p))
      as Hjournal.
    destruct (registerSchema_resume readSchema f noOptions schema (registry p))
      as [r st1]. cbn [fst snd] in *.
    set (ts1 := <[i := (f, Settled r)]> ts).
    destruct (logRejections_fields ts1 st1) as (Hs' & _ & Hj' & Hlog).
    destruct (I2 _ _ Hd) as (g & Hg & Hfst).
    constructor; simpl.
    + done.
    + intros d' ts'. rewrite lookup_insert. case_decide as Hdd; [|by apply I2].
      subst d'. intros [= <-]. exists g. split; [done|].
      unfold ts1. by rewrite (settle_fst _ _ _ _ _ Hi).
    + intros d' ts' j f' schema'. rewrite lookup_insert.
      case_decide as Hdd; [|by apply I3].
      subst d'. intros [= <-]. unfold ts1.
      destruct (decide (i = j)) as [->|Hij].
      * rewrite list_lookup_insert_eq; [done|]. by eapply lookup_lt_Some.
      * rewrite list_lookup_insert_ne by done. by apply (I3 d ts).
    + assert (Hold : ∀ d' ts' j f' r', started p !! d' = Some ts' →
                ts' !! j = Some (f', Settled r') →
                match readSchema f' with
                | inl e => r' = inl e
                | inr doc =>
                    (inherited (docName doc) = false →
                     is_Some (schemas st1 !! docName doc))
                    ∧ (r' = inr tt ∨ r' = inl (SCHEMA_EXISTS (docName doc) f')
                       ∨ r' = inl (TYPE_ERROR (NotAFunction "baseSchema.addExtension")))
                end).
      { intros d' ts' j f' r' Hd' Hj. pose proof (I4 _ _ _ _ _ Hd' Hj) as H4.
        destruct (readSchema f') as [e|doc]; [done|].
        destruct H4 as [Hreg Hr]. split; [|done]. intros Hnot.
        destruct (Hreg Hnot) as [b Hb].
        destruct (Hkeep _ _ Hb) as (b' & Hb' & _). eauto. }
      intros d' ts' j f' r'. rewrite lookup_insert, Hs'.
      case_decide as Hdd; [|by apply Hold].
      subst d'. intros [= <-]. unfold ts1.
      destruct (decide (i = j)) as [->|Hij].
      * rewrite list_lookup_insert_eq by (by eapply lookup_lt_Some).
        intros [= <- <-]. rewrite Hpath in Hout.
        destruct (readSchema f) as [e|doc]; [by injection Hout|done].
      * rewrite list_lookup_insert_ne by done. by apply (Hold d ts).
    + intros d' ts' e. rewrite lookup_insert. case_decide as Hdd.
      * intros [= <-] Hset He. by apply Hlog.
      * intros Hd' Hall' He. apply Hj', Hjournal. by eapply I5.
    + intros k u. rewrite Hs'. intros Hu.
      destruct (Horigin k u Hu)
        as [(b & Hb & Hn & Hf & Hr & _)|(doc & Hdoc & Hk & Hn & Hf & Hr & _)].
      * destruct (I6 _ _ Hb) as (Hname & d' & files & doc & ? & ? & ? & ? & ?).
        split; [congruence|]. exists d', files, doc. rewrite Hf, Hr. done.
      * split; [done|]. rewrite Hpath in Hf, Hdoc.
        assert (Hin : f ∈ ts.*1).
        { apply list_elem_of_fmap. exists (f, Loading schema).
          split; [done|]. by eapply list_elem_of_lookup_2. }
        rewrite Hfst in Hin. destruct g as [e|files]; [by apply elem_of_nil in Hin|].
        exists d, files, doc. rewrite Hf. done.
    + intros k. rewrite Hs'. apply Hown.
Qed.

Lemma registerSchemas_discoveryInvariant (schedule : list Event) (st : State) :
  discoveryInvariant readSchema globs
    (registerSchemas constructedName readSchema globs schedule st).
Proof.
  induction schedule as [|ev schedule IH] using rev_ind.
  - apply initial_discoveryInvariant.
  - unfold registerSchemas, runEvents in *. rewrite foldl_snoc.
    by apply step_discoveryInvariant.
Qed.

Lemma loads_in_order (d n : nat) (p : Pass) (ts : list (string * Task)) (j : nat) :
  started p !! d = Some ts → length ts = j + n →
  (∀ i t, i < j → ts !! i = Some t → isSettled t = true) →
  ∃ ts', started (runEvents constructedName readSchema globs p (map (LoadDone d) (seq j n))) !! d = Some ts'
         ∧ forallb isSettled ts' = true
         ∧ ∀ d', d' ≠ d →
             started (runEvents constructedName readSchema globs p (map (LoadDone d) (seq j n))) !! d' = started p !! d'.
Proof.
  unfold runEvents. revert p ts j. induction n as [|n IH]; intros p ts j Hts Hlen Hset.
  { exists ts. split; [done|]. split; [|done].
    apply forallb_forall. intros t [i Hi]%list_elem_of_In%list_elem_of_lookup.
    apply (Hset i); [|done]. apply lookup_lt_Some in Hi. lia. }
  cbn [seq map foldl].
  set (p1 := step constructedName readSchema globs p (LoadDone d j)).
  assert (Hstep : ∃ ts1, started p1 !! d = Some ts1 ∧ length ts1 = length ts
            ∧ (∀ i t, i < S j → ts1 !! i = Some t → isSettled t = true)
            ∧ ∀ d', d' ≠ d → started p1 !! d' = started p !! d').
  { unfold p1. simpl. rewrite Hts.
    destruct (ts !! j) as [[f [schema|r0]]|] eqn:Hj.
    - destruct (registerSchema_resume readSchema f noOptions schema (registry p))
        as [r st1]. simpl. rewrite lookup_insert_eq.
      eexists. split; [done|]. split; [by rewrite length_insert|]. split.
      + intros i t Hi. destruct (decide (i = j)) as [->|Hne].
        * rewrite list_lookup_insert_eq by (by eapply lookup_lt_Some).
          by intros [= <-].
        * rewrite list_lookup_insert_ne by done. apply Hset. lia.
      + intros d' Hd'. by rewrite lookup_insert_ne.
    - exists ts. split; [done|]. split; [done|]. split; [|done].
      intros i t Hi Ht. destruct (decide (i = j)) as [->|Hne].
      + rewrite Hj in Ht. by injection Ht as <-.
      + apply (Hset i); [lia|done].
    - apply lookup_ge_None in Hj. lia. }
  destruct Hstep as (ts1 & Hts1 & Hlen1 & Hset1 & Hother1).
  destruct (IH p1 ts1 (S j) Hts1) as (ts' & Hts' & Hall & Hother); [lia|done|].
  exists ts'. split; [done|]. split; [done|].
  intros d' Hd'. rewrite Hother by done. by apply Hother1.
Qed.

Lemma dependency_in_order (k : nat) (p : Pass) :
  k < length globs → doneBelow k p →
  doneBelow (S k)
    (runEvents constructedName readSchema globs p (GlobDone k :: match globs !! k with
                          | Some (inr files) => map (LoadDone k) (seq 0 (length files))
                          | _ => []
                          end)).
Proof.
  intros Hk [Hdone Hnot]. unfold runEvents. cbn [foldl].
  set (p1 := step constructedName readSchema globs p (GlobDone k)).
  destruct (lookup_lt_is_Some_2 globs k Hk) as [g Hg].
  assert (Hglob : ∃ ts, started p1 !! k = Some ts
            ∧ length ts = match g with inr files => length files | inl _ => 0 end
            ∧ ∀ d, d ≠ k → started p1 !! d = started p !! d).
  { unfold p1. simpl. rewrite (Hnot k) by done. rewrite Hg.
    destruct g as [e|files].
    - simpl. rewrite lookup_insert_eq. eexists. split; [done|]. split; [done|].
      intros d Hd. by rewrite lookup_insert_ne.
    - destruct (startTasks_fields constructedName files (registry p)) as (Hfst & _).
      destruct (startTasks constructedName files (registry p)) as [ts st1].
      simpl in *. rewrite lookup_insert_eq. eexists. split; [done|]. split.
      + by rewrite <- Hfst, length_fmap.
      + intros d Hd. by rewrite lookup_insert_ne. }
  destruct Hglob as (ts & Hts & Hlen & Hother).
  assert (Hrest : ∃ ts', started (runEvents constructedName readSchema globs p1 match globs !! k with
                                         | Some (inr files) =>
                                             map (LoadDone k) (seq 0 (length files))
                                         | _ => []
                                         end) !! k = Some ts'
                    ∧ forallb isSettled ts' = true
                    ∧ ∀ d, d ≠ k →
                        started (runEvents constructedName readSchema globs p1 match globs !! k with
                                        | Some (inr files) =>
                                            map (LoadDone k) (seq 0 (length files))
                                        | _ => []
                                        end) !! d = started p1 !! d).
  { rewrite Hg. destruct g as [e|files].
    - simpl. exists ts. split; [done|]. split; [|done].
      destruct ts; [done|simpl in Hlen; lia].
    - apply (loads_in_order k (length files) p1 ts 0); [done|by rewrite Hlen|].
      intros i t Hi. lia. }
  destruct Hrest as (ts' & Hts' & Hall & Hother').
  split.
  - intros d Hd. destruct (decide (d = k)) as [->|Hne]; [eauto|].
    rewrite Hother', Hother by done. apply Hdone. lia.
  - intros d Hd. rewrite Hother', Hother by lia. apply Hnot. lia.
Qed.

Lemma dependencies_in_order (m k : nat) (p : Pass) :
  k + m = length globs → doneBelow k p →
  doneBelow (k + m)
    (runEvents constructedName readSchema globs p (flat_map (λ d, GlobDone d ::
                           match globs !! d with
                           | Some (inr files) => map (LoadDone d) (seq 0 (length files))
                           | _ => []
                           end)
                     (seq k m))).
Proof.
  revert k p. induction m as [|m IH]; intros k p Hlen Hdone.
  { simpl. by rewrite Nat.add_0_r. }
  cbn [seq flat_map]. unfold runEvents in *. rewrite foldl_app.
  replace (k + S m) with (S k + m) by lia.
  apply IH; [lia|]. apply dependency_in_order; [lia|done].
Qed.

(** Every pass can run to its end: taken in order, the events of a pass
    leave every glob answered and every registration settled. *)
Lemma inOrder_finished (st : State) :
  finished globs
    (registerSchemas constructedName readSchema globs (inOrder globs) st) = true.
Proof.
  destruct (dependencies_in_order (length globs) 0
              (registerSchemas constructedName readSchema globs [] st)) as [Hdone _].
  { done. }
  { split; [intros d Hd; lia|]. intros d _. simpl. apply lookup_empty. }
  unfold finished. apply forallb_forall. intros d [_ Hd]%in_seq.
  unfold registerSchemas, inOrder in *. simpl in Hdone.
  destruct (Hdone d Hd) as (ts & -> & Hall). done.
Qed.
Lemma finished_started (p : Pass) (d : nat) (g : AppError + list string) :
  finished globs p = true → globs !! d = Some g →
  ∃ ts, started p !! d = Some ts ∧ forallb isSettled ts = true.
Proof.
  unfold finished. rewrite forallb_forall. intros Hall Hg.
  assert (Hin : In d (seq 0 (length globs))).
  { apply in_seq. apply lookup_lt_Some in Hg. lia. }
  specialize (Hall d Hin). simpl in Hall.
  destruct (started p !! d) as [ts|]; [eauto|done].
Qed.

(** *** Schedules that deliver every callback *)

(** A dependency that was globbed stays so, with as many tasks, and a
    settled task stays as it settled. *)
Lemma step_started_keeps (p : Pass) (ev : Event) (d : nat) (ts : list (string * Task)) :
  started p !! d = Some ts →
  ∃ ts', started (step constructedName readSchema globs p ev) !! d = Some ts'
         ∧ length ts' = length ts
         ∧ ∀ i f r, ts !! i = Some (f, Settled r) → ts' !! i = Some (f, Settled r).
Proof.
  intros Hd. destruct ev as [d0|d0 i]; cbn [step].
  - destruct (started p !! d0) as [ts0|] eqn:Hd0; [by exists ts|].
    assert (Hne : d0 ≠ d) by congruence.
    destruct (globs !! d0) as [[e|files]|]; [| |by exists ts].
    + cbn [started]. rewrite lookup_insert_ne by done. by exists ts.
    + destruct (startTasks constructedName files (registry p)) as [ts1 st1].
      cbn [started]. rewrite lookup_insert_ne by done. by exists ts.
  - destruct (started p !! d0) as [ts0|] eqn:Hd0; [|by exists ts].
    destruct (ts0 !! i) as [[f [schema|r0]]|] eqn:Hi; [|by exists ts|by exists ts].
    destruct (registerSchema_resume readSchema f noOptions schema (registry p))
      as [r st1].
    cbn [started]. destruct (decide (d0 = d)) as [->|Hne].
    + rewrite lookup_insert_eq. rewrite Hd in Hd0. injection Hd0 as <-.
      eexists. split; [done|]. split; [by rewrite length_insert|].
      intros j f' r' Hj. rewrite list_lookup_insert_ne; [done|].
      intros ->. congruence.
    + rewrite lookup_insert_ne by done. by exists ts.
Qed.

Lemma runEvents_started_keeps (events : list Event) (p : Pass) (d : nat)
    (ts : list (string * Task)) :
  started p !! d = Some ts →
  ∃ ts', started (runEvents constructedName readSchema globs p events) !! d = Some ts'
         ∧ length ts' = length ts
         ∧ ∀ i f r, ts !! i = Some (f, Settled r) → ts' !! i = Some (f, Settled r).
Proof.
  unfold runEvents. revert p ts. induction events as [|ev events IH]; intros p ts Hd.
  { by exists ts. }
  cbn [foldl].
  destruct (step_started_keeps p ev d ts Hd) as (ts1 & Hd1 & Hlen1 & Hset1).
  destruct (IH _ ts1 Hd1) as (ts' & Hd' & Hlen' & Hset').
  exists ts'. split; [done|]. split; [congruence|].
  intros i f r Hi. by apply Hset', Hset1.
Qed.

(** The callback of a glob leaves its dependency globbed. *)
Lemma step_GlobDone_started (p : Pass) (d : nat) :
  d < length globs →
  is_Some (started (step constructedName readSchema globs p (GlobDone d)) !! d).
Proof.
  intros Hd. cbn [step].
  destruct (started p !! d) as [ts0|] eqn:Hd0; [by rewrite Hd0|].
  destruct (lookup_lt_is_Some_2 globs d Hd) as [[e|files] ->].
  - cbn [started]. rewrite lookup_insert_eq. eauto.
  - destruct (startTasks constructedName files (registry p)) as [ts1 st1].
    cbn [started]. rewrite lookup_insert_eq. eauto.
Qed.

(** The end of a load leaves its task settled. *)
Lemma step_LoadDone_settled (p : Pass) (d i : nat) (ts : list (string * Task)) :
  started p !! d = Some ts → i < length ts →
  ∃ ts' f r, started (step constructedName readSchema globs p (LoadDone d i)) !! d
             = Some ts'
             ∧ ts' !! i = Some (f, Settled r).
Proof.
  intros Hd Hi. cbn [step]. rewrite Hd.
  destruct (lookup_lt_is_Some_2 ts i Hi) as [[f [schema|r0]] Hti]; rewrite Hti.
  - destruct (registerSchema_resume readSchema f noOptions schema (registry p))
      as [r st1].
    cbn [started]. rewrite lookup_insert_eq. eexists _, f, r. split; [done|].
    by apply list_lookup_insert_eq.
  - rewrite Hd. eauto.
Qed.

Lemma registerSchemas_app (before after : list Event) (st : State) :
  registerSchemas constructedName readSchema globs (before ++ after) st
  = runEvents constructedName readSchema globs
      (registerSchemas constructedName readSchema globs before st) after.
Proof. unfold registerSchemas, runEvents. apply foldl_app. Qed.

(** Whatever the order, a schedule that delivers every callback ends with
    every glob answered and every registration settled. *)
Lemma complete_finished (schedule : list Event) (st : State) :
  complete globs schedule →
  finished globs (registerSchemas constructedName readSchema globs schedule st) = true.
Proof.
  intros [Hglobs Hloads]. unfold finished. apply forallb_forall.
  intros d [_ Hd]%in_seq. cbn [Nat.add] in Hd.
  assert (Hglobbed : ∀ before after, schedule = before ++ after → GlobDone d ∈ before →
            is_Some (started (registerSchemas constructedName readSchema globs before st)
                     !! d)).
  { intros before after _ Hin.
    apply list_elem_of_split in Hin as (l1 & l2 & ->).
    rewrite registerSchemas_app. unfold runEvents at 1. cbn [foldl].
    destruct (step_GlobDone_started
                (registerSchemas constructedName readSchema globs l1 st) d Hd)
      as [ts0 Hts0].
    destruct (runEvents_started_keeps l2 _ d ts0 Hts0) as (ts' & Hts' & _).
    unfold runEvents in Hts'. rewrite Hts'. eauto. }
  destruct (Hglobbed schedule [] (eq_sym (app_nil_r _)) (Hglobs d Hd)) as [ts Hts].
  rewrite Hts. apply forallb_forall.
  intros t [i Hi]%list_elem_of_In%list_elem_of_lookup.
  destruct (registerSchemas_discoveryInvariant schedule st) as [_ I2 _ _ _ _ _].
  destruct (I2 d ts Hts) as (g & Hg & Hfst).
  assert (Hlen : length ts = match g with inr files => length files | inl _ => 0 end).
  { rewrite <- (length_fmap fst ts), Hfst. by destruct g. }
  destruct g as [e|files].
  { apply lookup_lt_Some in Hi. lia. }
  assert (Hlt : i < length files) by (apply lookup_lt_Some in Hi; lia).
  destruct (Hloads d files i Hg Hlt) as (before & after & Hsched & Hin).
  destruct (Hglobbed before (LoadDone d i :: after) Hsched Hin) as [ts0 Hts0].
  destruct (registerSchemas_discoveryInvariant before st) as [_ I2' _ _ _ _ _].
  destruct (I2' d ts0 Hts0) as (g' & Hg' & Hfst0). rewrite Hg in Hg'.
  injection Hg' as <-.
  assert (Hlen0 : i < length ts0).
  { rewrite <- (length_fmap fst ts0), Hfst0. done. }
  destruct (step_LoadDone_settled _ d i ts0 Hts0 Hlen0) as (ts1 & f & r & Hts1 & Hsettled).
  destruct (runEvents_started_keeps after _ d ts1 Hts1) as (ts2 & Hts2 & _ & Hkeep).
  assert (Hfinal : started (registerSchemas constructedName readSchema globs schedule st)
                     !! d = Some ts2).
  { rewrite Hsched, registerSchemas_app. unfold runEvents at 1. cbn [foldl]. exact Hts2. }
  rewrite Hts in Hfinal. injection Hfinal as <-.
  rewrite (Hkeep i f r Hsettled) in Hi. by injection Hi as <-.
Qed.

(** The events taken in order are such a schedule. *)
Lemma inOrder_complete : complete globs (inOrder globs).
Proof.
  assert (Hsplit : ∀ d, d < length globs →
            ∃ l1 l2, inOrder globs
                     = l1 ++ (GlobDone d ::
                              match globs !! d with
                              | Some (inr files) => map (LoadDone d) (seq 0 (length files))
                              | _ => []
                              end) ++ l2).
  { intros d Hd. unfold inOrder.
    replace (length globs) with (d + S (length globs - S d)) by lia.
    rewrite seq_app, flat_map_app. cbn [seq flat_map Nat.add]. eauto. }
  split.
  - intros d Hd. destruct (Hsplit d Hd) as (l1 & l2 & ->).
    apply elem_of_app. right. left.
  - intros d files i Hg Hi.
    destruct (Hsplit d (lookup_lt_Some _ _ _ Hg)) as (l1 & l2 & ->). rewrite Hg.
    replace (length files) with (i + S (length files - S i)) by lia.
    rewrite seq_app, map_app. cbn [seq map Nat.add].
    exists (l1 ++ GlobDone d :: map (LoadDone d) (seq 0 i)),
           (map (LoadDone d) (seq (S i) (length files - S i)) ++ l2).
    split.
    + rewrite <- !app_assoc. cbn [app]. by rewrite <- !app_assoc.
    + apply elem_of_app. right. left.
Qed.

(** C6. A pass starts from an empty catalog, so that every unit of the
    catalog afterwards was loaded, under its own name, from a file some
    glob found.  The promise of the pass is rejected by a failing glob
    only, never by the registration of a file.  Every schedule that
    delivers each callback of the pass (the events taken in order are
    one) leaves every glob answered and every registration settled.  From
    then on: each file that loads has its schema's name in the catalog,
    unless the name is one of [Object.prototype] (for which line 105
    rejects the registration); each file that does not load has its error
    logged as a warning, as has every other rejected registration; and
    unless a glob failed the promise is fulfilled. *)
Theorem registerSchemas_best_effort (schedule : list Event) (st : State) :
  let p := registerSchemas constructedName readSchema globs schedule st in
  schemas (registry (registerSchemas constructedName readSchema globs [] st)) = ∅
  ∧ (∀ k u, schemas (registry p) !! k = Some u →
            name u = k
            ∧ ∃ d files doc, globs !! d = Some (inr files) ∧ filePath u ∈ files
                             ∧ readSchema (filePath u) = inr doc
                             ∧ docName doc = k ∧ raw u = docRaw doc)
  ∧ (∀ e, rejection p = Some e → ∃ d, globs !! d = Some (inl e))
  ∧ complete globs (inOrder globs)
  ∧ (complete globs schedule → finished globs p = true)
  ∧ (finished globs p = true →
       (∀ d files f doc, globs !! d = Some (inr files) → f ∈ files →
                         readSchema f = inr doc →
                         inherited (docName doc) = false →
                         is_Some (schemas (registry p) !! docName doc))
       ∧ (∀ d files f e, globs !! d = Some (inr files) → f ∈ files →
                         readSchema f = inl e →
                         rejectionWarning e ∈ journal (registry p))
       ∧ (∀ d ts f e, started p !! d = Some ts → (f, Settled (inl e)) ∈ ts →
                      rejectionWarning e ∈ journal (registry p))
       ∧ ((∀ d e, globs !! d ≠ Some (inl e)) → settled globs p = Some (inr tt))).
Proof.
  simpl.
  destruct (registerSchemas_discoveryInvariant schedule st) as [I1 I2 I3 I4 I5 I6 I7].
  pose proof (complete_finished schedule st) as Hcomplete.
  set (p := registerSchemas constructedName readSchema globs schedule st) in *.
  split; [done|]. split; [done|]. split; [done|].
  split; [apply inOrder_complete|]. split; [done|].
  intros Hfin.
  assert (Htask : ∀ d files f, globs !! d = Some (inr files) → f ∈ files →
            ∃ ts r, started p !! d = Some ts ∧ forallb isSettled ts = true
                    ∧ (f, Settled r) ∈ ts).
  { intros d files f Hg Hf.
    destruct (finished_started p d _ Hfin Hg) as (ts & Hts & Hset).
    destruct (I2 d ts Hts) as (g & Hg' & Hfst). rewrite Hg in Hg'.
    injection Hg' as <-. rewrite <- Hfst in Hf.
    apply list_elem_of_fmap in Hf as ([f' t] & -> & Hin). simpl.
    exists ts. pose proof Hset as Hevery. rewrite forallb_forall in Hevery.
    pose proof (Hevery (f', t) (proj1 (list_elem_of_In _ _) Hin)) as Ht.
    destruct t as [schema|r]; [done|]. eauto. }
  split; [|split; [|split]].
  - intros d files f doc Hg Hf Hdoc Hown.
    destruct (Htask d files f Hg Hf) as (ts & r & Hts & _ & Hin).
    apply list_elem_of_lookup in Hin as (i & Hi).
    pose proof (I4 d ts i f r Hts Hi) as H4. rewrite Hdoc in H4. by apply H4.
  - intros d files f e Hg Hf Herr.
    destruct (Htask d files f Hg Hf) as (ts & r & Hts & Hset & Hin).
    pose proof Hin as Hin'. apply list_elem_of_lookup in Hin' as (i & Hi).
    pose proof (I4 d ts i f r Hts Hi) as H4. rewrite Herr in H4. subst r.
    apply (I5 d ts e Hts Hset). apply rejections_elem. eauto.
  - intros d ts f e Hts Hin.
    destruct (I2 d ts Hts) as (g & Hg & _).
    destruct (finished_started p d _ Hfin Hg) as (ts' & Hts' & Hset).
    rewrite Hts in Hts'. injection Hts' as <-.
    apply (I5 d ts e Hts Hset). apply rejections_elem. eauto.
  - intros Hglobs. unfold settled. rewrite Hfin.
    destruct (rejection p) as [e|]; [|done].
    destruct (I1 e eq_refl) as (d & Hd). by destruct (Hglobs d e).
Qed.

Lemma step_awaited (p : Pass) (ev : Event) (awaited ext : string) :
  (∀ d files f, globs !! d = Some (inr files) → f ∈ files →
                propertyKey (constructedName f noOptions) ≠ awaited) →
  ext ∈ pending awaited (registry p)
  ∧ (∀ u, schemas (registry p) !! awaited = Some u → ext ∈ extensions u) →
  ext ∈ pending awaited (registry (step constructedName readSchema globs p ev))
  ∧ (∀ u, schemas (registry (step constructedName readSchema globs p ev)) !! awaited
          = Some u → ext ∈ extensions u).
Proof.
  intros Hctor [Hpend Hcat]. destruct ev as [d|d i]; simpl.
  - destruct (started p !! d) as [ts0|] eqn:Hd; [done|].
    destruct (globs !! d) as [[e|files]|] eqn:Hg; [done| |done].
    destruct (startTasks_fields constructedName files (registry p))
      as (_ & _ & Hs & _ & Hp).
    destruct (startTasks constructedName files (registry p)) as [ts st1].
    cbn [fst snd] in *.
    destruct (logRejections_fields ts st1) as (Hs' & Hl' & _). simpl.
    unfold pending. rewrite Hs', Hl', Hs. split; [|done].
    apply Hp; [|done]. intros f Hf. by eapply Hctor.
  - destruct (started p !! d) as [ts|] eqn:Hd; [|done].
    destruct (ts !! i) as [[f [schema|r0]]|] eqn:Hi; try done.
    pose proof (resume_pending_keeps readSchema f noOptions schema (registry p)
                  awaited ext Hpend) as Hp.
    pose proof (resume_awaited readSchema f noOptions schema (registry p)
                  awaited ext Hpend Hcat) as Ha.
    destruct (registerSchema_resume readSchema f noOptions schema (registry p))
      as [r st1]. cbn [fst snd] in *.
    destruct (logRejections_fields (<[i := (f, Settled r)]> ts) st1)
      as (Hs' & Hl' & _). simpl.
    unfold pending. rewrite Hs', Hl'. done.
Qed.

(** X14. The reset of line 82 empties the catalog and leaves the store of
    extensions as it is.  Take an extension deferred under [awaited]
    before the pass, where no file of the pass makes a unit that carries
    [awaited] as its name when constructed.  At every moment of the pass:
    while [awaited] is not registered the extension is still deferred
    under it, and any unit the pass has registered under [awaited] has it
    in its extension set. *)
Theorem registerSchemas_keeps_deferred (schedule : list Event) (st : State)
    (awaited ext : string) :
  ext ∈ pending awaited st →
  (∀ d files f, globs !! d = Some (inr files) → f ∈ files →
                propertyKey (constructedName f noOptions) ≠ awaited) →
  let reset := registry (registerSchemas constructedName readSchema globs [] st) in
  let p := registerSchemas constructedName readSchema globs schedule st in
  schemas reset = ∅
  ∧ schemaExtensions reset = schemaExtensions st
  ∧ (schemas (registry p) !! awaited = None → ext ∈ pending awaited (registry p))
  ∧ ∀ u, schemas (registry p) !! awaited = Some u → ext ∈ extensions u.
Proof.
  intros Hpend Hctor. simpl. split; [done|]. split; [done|].
  cut (ext ∈ pending awaited
               (registry (registerSchemas constructedName readSchema globs schedule st))
       ∧ ∀ u, schemas (registry (registerSchemas constructedName readSchema globs
                                   schedule st)) !! awaited = Some u →
              ext ∈ extensions u).
  { intros [? ?]. by split. }
  induction schedule as [|ev schedule IH] using rev_ind.
  - simpl. split; [done|]. intros u. by rewrite lookup_empty.
  - unfold registerSchemas, runEvents in *. rewrite foldl_snoc.
    by apply step_awaited.
Qed.
End DiscoveryProperties.

(** ** The definitions run on the sample files *)

Section DrainedEntry.
Variable constructedName : string → RegisterSchemaOptions → option string.

(** With an empty store of extensions [createSchema] has nothing to apply
    and nothing to delete, whatever the name of the new unit. *)
Lemma createSchema_nothing_pending (path : string) (options : RegisterSchemaOptions)
    (st : State) :
  schemaExtensions st = ∅ →
  createSchema constructedName path options st
  = ({| newName := constructedName path options; newFilePath := path;
        newExtensions := [] |}, startLoad path st).
Proof.
  intros Hempty. unfold createSchema, pending. rewrite Hempty, lookup_empty. simpl.
  destruct st as [cat led val jour lds]. simpl in *. subst led.
  unfold startLoad, withSchemaExtensions. simpl. by rewrite delete_empty.
Qed.

(** C1. A pass over one dependency with the files of [course] and of
    [course-ext] (which patches [course]), where [course-ext] finishes
    loading first: whatever name the constructor gives a unit, both
    registrations succeed, the pass ends fulfilled with [course]
    registered and extended by [course-ext], and the list pending under
    [course] is still in the store of extensions. *)
Theorem registerSchemas_leaves_drained_entry :
  let globs := [inr [coursePath; courseExtPath]] in
  let p := registerSchemas constructedName sampleFiles globs
             [GlobDone 0; LoadDone 0 1; LoadDone 0 0] initialState in
  settled globs p = Some (inr tt)
  ∧ started p !! 0 = Some [(coursePath, Settled (inr tt));
                           (courseExtPath, Settled (inr tt))]
  ∧ (∃ u, schemas (registry p) !! "course" = Some u ∧ extensions u = ["course-ext"])
  ∧ schemaExtensions (registry p) !! "course" = Some ["course-ext"].
Proof.
  cbv zeta. unfold registerSchemas, runEvents. cbn [foldl].
  unfold step at 3. cbn -[startTasks logRejections].
  unfold startTasks. cbn [foldl]. unfold startTask at 2, registerSchema_begin.
  rewrite createSchema_nothing_pending by done.
  unfold startTask, registerSchema_begin.
  rewrite createSchema_nothing_pending by done.
  vm_compute. eauto 10.
Qed.
End DrainedEntry.

(** The same two registrations one after the other, [course-ext] first,
    with a constructor that leaves the name to [load()]: [course] is
    registered, the extension deferred for it is applied, and its entry
    stays in the store. *)
Lemma registerSchema_alone_leaves_entry :
  let result := registerSchema nameSetByLoad sampleFiles (JsString coursePath)
                  noOptions extOnly in
  schemaExtensions extOnly !! "course" = Some ["course-ext"]
  ∧ result.1 = inr tt
  ∧ (∃ u, schemas result.2 !! "course" = Some u ∧ extensions u = ["course-ext"])
  ∧ schemaExtensions result.2 !! "course" = Some ["course-ext"].
Proof.
  cbv zeta. repeat split; try (vm_compute; reflexivity).
  eexists; split; vm_compute; reflexivity.
Qed.


(** A keyword definition Ajv refuses: the call returns, the warning is
    logged, no keyword is installed. *)
Example addKeyword_refused :
  addKeyword strictAjv
    (ArgumentDefinition {| keyword := KeywordMany []; implementation := "" |})
    initialState
  = (inr tt,
     log "warn"
       [LogText "failed to define keyword '', Error: addKeywords: keyword must be string or non-empty array"]
       initialState).
Proof. reflexivity. Qed.

Example addKeyword_installed :
  keywords (validator (addKeyword strictAjv
                         (ArgumentDefinition
                            {| keyword := KeywordOne "isDate"; implementation := "" |})
                         initialState).2)
  = [{| keyword := KeywordOne "isDate"; implementation := "" |}].
Proof. reflexivity. Qed.

(** [addKeyword(undefined)]: Ajv throws, the handler throws in its turn
    when it reads [definition.keyword], and the TypeError escapes with
    nothing logged.  Likewise for a definition whose keyword is a
    Symbol. *)
Example addKeyword_undefined :
  addKeyword strictAjv ArgumentUndefined initialState
  = (inl (TYPE_ERROR (CannotReadProperty "keyword")), initialState).
Proof. reflexivity. Qed.

Example addKeyword_symbol :
  addKeyword strictAjv
    (ArgumentDefinition {| keyword := KeywordSymbol "isDate"; implementation := "" |})
    initialState
  = (inl (TYPE_ERROR CannotConvertToString), initialState).
Proof. reflexivity. Qed.

(** [course] resolves to its unit, with [course-ext] as its extension;
    once deregistered it is not found. *)
Example getSchema_course :
  (getSchema buildSummary "course" {| compiled := Some false |} courseThenExt).1
  = inr ("course", ["course-ext"]).
Proof. vm_compute. reflexivity. Qed.

Example getSchema_after_deregister :
  (getSchema buildSummary "course" {| compiled := None |}
     (deregisterSchema "course" courseThenExt)).1
  = inl (NOT_FOUND "schema" "course").
Proof. vm_compute. reflexivity. Qed.

(** [getSchema('constructor')] on the empty catalog of [init]: no schema
    has that name, and the call rejects with a TypeError, not with
    NOT_FOUND. *)
Example getSchema_constructor :
  schemas initialState !! "constructor" = None
  ∧ (getSchema buildSummary "constructor" {| compiled := None |} initialState).1
    = inl (TYPE_ERROR (NotAFunction "schema.build")).
Proof. split; vm_compute; reflexivity. Qed.

(** A file whose schema is named [toString] cannot be registered in the
    empty catalog: line 105 takes the name for registered. *)
Example registerSchema_toString :
  (registerSchema nameSetByLoad (λ _, inr (plainDocument "toString"))
     (JsString "/core/schema/toString.schema.json") noOptions initialState).1
  = inl (SCHEMA_EXISTS "toString" "/core/schema/toString.schema.json").
Proof. vm_compute. reflexivity. Qed.

(** [registerSchema(42)] on a module that holds a unit and a deferred
    extension. *)
Lemma registerSchema_invalid_params_witness :
  registerSchema nameSetByLoad sampleFiles (JsNumber 42) noOptions extOnly
  = (inl (INVALID_PARAMS ["filePath"]), extOnly).
Proof.
  exact (proj1 (registerSchema_invalid_params nameSetByLoad sampleFiles
                  (JsNumber 42) noOptions extOnly eq_refl)).
Defined.

(** A second file for [course-ext], with and without [replace]. *)
Lemma registerSchema_name_taken_witness :
  (registerSchema nameSetByLoad sampleFiles (JsString courseExtPlainPath)
     {| replace := true |} courseThenExt).1 = inr tt
  ∧ (registerSchema nameSetByLoad sampleFiles (JsString courseExtPlainPath)
       noOptions courseThenExt).1
    = inl (SCHEMA_EXISTS "course-ext" courseExtPlainPath).
Proof.
  assert (Hdoc : sampleFiles courseExtPlainPath = inr (plainDocument "course-ext"))
    by reflexivity.
  assert (Hold : ∃ old, schemas courseThenExt !! docName (plainDocument "course-ext")
                        = Some old).
  { eexists. vm_compute. reflexivity. }
  destruct Hold as [old Hold].
  pose proof (registerSchema_name_taken nameSetByLoad sampleFiles courseExtPlainPath
                {| replace := true |} courseThenExt _ old Hdoc Hold) as Hrep.
  pose proof (registerSchema_name_taken nameSetByLoad sampleFiles courseExtPlainPath
                noOptions courseThenExt _ old Hdoc Hold) as Hno.
  cbv zeta in Hrep, Hno. cbn [replace noOptions] in Hrep, Hno.
  destruct Hrep as (_ & _ & Hown). destruct Hno as (Hexists & _).
  destruct (Hown eq_refl) as (_ & _ & Hok).
  split; [|by rewrite Hexists].
  apply Hok; [intros p [=]|]. vm_compute. reflexivity.
Defined.

(** [course-ext] registered after [course], and before it. *)
Lemma registerSchema_patch_source_witness :
  (∃ u, schemas courseThenExt !! "course" = Some u ∧ extensions u = ["course-ext"])
  ∧ schemaExtensions extOnly !! "course" = Some ["course-ext"]
  ∧ (∃ u, schemas (registerSchema nameSetByLoad sampleFiles (JsString coursePath)
                     noOptions extOnly).2 !! "course" = Some u
          ∧ "course-ext" ∈ extensions u).
Proof.
  set (st := (registerSchema nameSetByLoad sampleFiles (JsString coursePath) noOptions
                initialState).2).
  assert (Hdoc : sampleFiles courseExtPath = inr (patchDocument "course-ext" (Some "course")))
    by reflexivity.
  assert (Hbase : ∃ base, schemas st !! "course" = Some base ∧ extensions base = []).
  { eexists. split; vm_compute; reflexivity. }
  destruct Hbase as (base & Hbase & Hnone).
  destruct (registerSchema_patch_source nameSetByLoad sampleFiles courseExtPath noOptions
              st _ {| source_ref := Some "course" |} "course" Hdoc eq_refl eq_refl
              eq_refl eq_refl)
    as (_ & Hpresent & _).
  { vm_compute. reflexivity. }
  { left. vm_compute. reflexivity. }
  destruct (registerSchema_patch_source nameSetByLoad sampleFiles courseExtPath noOptions
              initialState _ {| source_ref := Some "course" |} "course"
              Hdoc eq_refl eq_refl eq_refl eq_refl)
    as (_ & _ & Habsent & _).
  { vm_compute. reflexivity. }
  { left. vm_compute. reflexivity. }
  destruct Habsent as (_ & Hledger & Hlater); [done|by vm_compute|].
  split; [|split].
  - destruct (Hpresent base) as (Hext & _); [done|done|].
    exists (addExtension "course-ext" base). split; [exact Hext|].
    simpl. rewrite Hnone. reflexivity.
  - unfold extOnly. rewrite Hledger. vm_compute. reflexivity.
  - apply (Hlater coursePath noOptions (plainDocument "course")); reflexivity.
Defined.

(** C4 as the specification states it fails: [course-ext], which patches
    [course], is replaced by a unit that patches nothing; the replacement
    succeeds and [course] still lists [course-ext] among its extensions.
    Likewise when [course] was not registered: the deferred extension
    stays in the store. *)
Lemma registerSchema_replace_leaves_stale_extension :
  let replaced := registerSchema nameSetByLoad sampleFiles (JsString courseExtPlainPath)
                    {| replace := true |} courseThenExt in
  let replaced' := registerSchema nameSetByLoad sampleFiles (JsString courseExtPlainPath)
                     {| replace := true |} extOnly in
  (∃ old, schemas courseThenExt !! "course-ext" = Some old
          ∧ patch (raw old) = Some {| source_ref := Some "course" |})
  ∧ replaced.1 = inr tt
  ∧ (∃ new, schemas replaced.2 !! "course-ext" = Some new ∧ patch (raw new) = None)
  ∧ (∃ base, schemas replaced.2 !! "course" = Some base
             ∧ extensions base = ["course-ext"])
  ∧ replaced'.1 = inr tt
  ∧ (∃ new, schemas replaced'.2 !! "course-ext" = Some new ∧ patch (raw new) = None)
  ∧ schemaExtensions replaced'.2 !! "course" = Some ["course-ext"].
Proof.
  cbv zeta. repeat split; try (vm_compute; reflexivity);
    eexists; split; vm_compute; reflexivity.
Qed.

(** The same replacement: [course] keeps the extension it had. *)
Lemma registerSchema_replace_keeps_relationships_witness :
  ∃ base, schemas (registerSchema nameSetByLoad sampleFiles (JsString courseExtPlainPath)
                     {| replace := true |} courseThenExt).2 !! "course" = Some base
          ∧ "course-ext" ∈ extensions base.
Proof.
  assert (Hdoc : sampleFiles courseExtPlainPath = inr (plainDocument "course-ext"))
    by reflexivity.
  assert (Hold : ∃ old, schemas courseThenExt !! docName (plainDocument "course-ext")
                        = Some old).
  { eexists. vm_compute. reflexivity. }
  destruct Hold as [old Hold].
  assert (Hbase : ∃ base, schemas courseThenExt !! "course" = Some base
                          ∧ "course-ext" ∈ extensions base).
  { eexists. split; [vm_compute; reflexivity|]. compute_done. }
  destruct Hbase as (base & Hbase & Hin).
  destruct (registerSchema_replace_keeps_relationships nameSetByLoad sampleFiles
              courseExtPlainPath {| replace := true |} courseThenExt _ old
              Hdoc Hold eq_refl) as (_ & _ & Hkeep & _).
  destruct (Hkeep "course" base) as (base' & Hbase' & _ & _ & _ & Hgrow);
    [done|exact Hbase|].
  exists base'. split; [exact Hbase'|]. by apply Hgrow.
Defined.

(** A pass over two dependencies, one of which has a file that does not
    load, each glob answered and each load finished in order. *)
Lemma registerSchemas_best_effort_witness :
  let globs := [inr [coursePath; brokenPath]; inr [courseExtPath]] in
  let p := registerSchemas nameSetByLoad sampleFiles globs (inOrder globs) courseThenExt in
  settled globs p = Some (inr tt)
  ∧ is_Some (schemas (registry p) !! "course")
  ∧ is_Some (schemas (registry p) !! "course-ext")
  ∧ rejectionWarning (LOAD_FAILED brokenPath) ∈ journal (registry p).
Proof.
  cbv zeta.
  set (globs := [inr [coursePath; brokenPath]; inr [courseExtPath]]).
  destruct (registerSchemas_best_effort nameSetByLoad sampleFiles globs
              (inOrder globs) courseThenExt) as (_ & _ & _ & Hcomplete & Hfin & Hdone).
  destruct (Hdone (Hfin Hcomplete)) as (Hloaded & Hfailed & _ & Hfulfilled).
  split; [|split; [|split]].
  - apply Hfulfilled. intros [|[|d]] e; by vm_compute.
  - apply (Hloaded 0 [coursePath; brokenPath] coursePath (plainDocument "course"));
      [done|compute_done|done|done].
  - apply (Hloaded 1 [courseExtPath] courseExtPath
             (patchDocument "course-ext" (Some "course")));
      [done|compute_done|done|done].
  - apply (Hfailed 0 [coursePath; brokenPath] brokenPath);
      [done|compute_done|done].
Defined.

(** C10 as stated fails: [orphan] is deferred under the key
    "undefined"; a pass then registers [course] and a schema named
    "undefined"; the unit constructed first, [course], takes the deferred
    extension, and the schema named "undefined" is registered without
    it. *)
Lemma registerSchemas_misplaces_deferred :
  let globs := [inr [coursePath; undefinedPath]] in
  let p := registerSchemas nameSetByLoad sampleFiles globs (inOrder globs) orphanOnly in
  pending "undefined" orphanOnly = ["orphan"]
  ∧ schemaExtensions (registry (registerSchemas nameSetByLoad sampleFiles globs []
                                  orphanOnly)) !! "undefined" = Some ["orphan"]
  ∧ settled globs p = Some (inr tt)
  ∧ (∃ u, schemas (registry p) !! "undefined" = Some u ∧ extensions u = [])
  ∧ pending "undefined" (registry p) = []
  ∧ (∃ u, schemas (registry p) !! "course" = Some u ∧ extensions u = ["orphan"]).
Proof.
  cbv zeta. repeat split; try (vm_compute; reflexivity);
    eexists; split; vm_compute; reflexivity.
Qed.

(** A pass over the file of [course], started with [course-ext] deferred. *)
Lemma registerSchemas_keeps_deferred_witness :
  let globs := [inr [coursePath]] in
  let p := registerSchemas nameSetByLoad sampleFiles globs (inOrder globs) extOnly in
  ∃ u, schemas (registry p) !! "course" = Some u ∧ "course-ext" ∈ extensions u.
Proof.
  cbv zeta. set (globs := [inr [coursePath]]).
  assert (Hpend : "course-ext" ∈ pending "course" extOnly) by compute_done.
  destruct (registerSchemas_keeps_deferred nameSetByLoad sampleFiles globs
              (inOrder globs) extOnly "course" "course-ext" Hpend)
    as (_ & _ & _ & Happlied).
  { intros d files f _ _. by vm_compute. }
  assert (Hu : ∃ u, schemas (registry (registerSchemas nameSetByLoad sampleFiles globs
                                         (inOrder globs) extOnly)) !! "course" = Some u).
  { eexists. vm_compute. reflexivity. }
  destruct Hu as [u Hu]. exists u. split; [exact Hu|]. by apply Happlied.
Defined.

(** * More of the module

    What the catalog, the store of extensions and the validator go through
    under the operations of lib/Compiler.js, taken alone and composed. *)

(** ** One registration, from the caller's side *)

Section RegistrationOutcomes.
Variable constructedName : string → RegisterSchemaOptions → option string.
Variable readSchema : string → AppError + Document.
Context {BuildResult : Type}.
Variable build : JsonSchema → LoadSchemaOptions → BuildResult.

(** X1. [registerSchema] with a string path always starts one [load()] and
    never touches the validator.  It rejects with the error of [load()];
    with SCHEMA_EXISTS, without [replace], for a name the catalog has a
    unit under or [Object.prototype] a member; and, the unit being stored
    by then, with a TypeError of line 110 when the name is one of
    [Object.prototype] or of line 152 when the patch source is.  It
    succeeds in every other case, so whenever neither name is one of
    [Object.prototype], and the name is then in the catalog.  A call
    rejected with the error of [load()] or SCHEMA_EXISTS leaves the
    catalog and the log as they were, but the entry of the store of
    extensions under the name the unit had when constructed is gone. *)
Theorem registerSchema_outcomes (path : string) (options : RegisterSchemaOptions)
    (st : State) :
  let created := createSchema constructedName path options st in
  let result := registerSchema constructedName readSchema (JsString path) options st in
  loads result.2 = loads st ++ [path]
  ∧ validator result.2 = validator st
  ∧ (∀ e, readSchema path = inl e → result = (inl e, created.2))
  ∧ (∀ doc, readSchema path = inr doc → plainCatalog st →
       if (bool_decide (is_Some (schemas st !! docName doc)) || inherited (docName doc))
          && negb (replace options)
       then result = (inl (SCHEMA_EXISTS (docName doc) path), created.2)
       else is_Some (schemas result.2 !! docName doc)
            ∧ (result.1 = inr tt
               ∨ (result.1 = inl (TYPE_ERROR (NotAFunction "forEach"))
                  ∧ inherited (docName doc) = true)
               ∨ (result.1 = inl (TYPE_ERROR (NotAFunction "baseSchema.addExtension"))
                  ∧ ∃ p, patch (docRaw doc) = Some p
                         ∧ inherited (propertyKey (source_ref p)) = true))
            ∧ (inherited (docName doc) = false →
               (∀ p, patch (docRaw doc) = Some p →
                     inherited (propertyKey (source_ref p)) = false) →
               result.1 = inr tt))
  ∧ (∀ e, result.1 = inl e → (∀ reason, e ≠ TYPE_ERROR reason) →
       schemas result.2 = schemas st
       ∧ journal result.2 = journal st
       ∧ schemaExtensions result.2
         = delete (propertyKey (constructedName path options)) (schemaExtensions st)).
Proof.
  cbv zeta.
  destruct (createSchema_fields constructedName path options st)
    as (_ & _ & _ & Hs & Hl & Hj & Hv & Ho).
  rewrite registerSchema_unfold. unfold registerSchema_resume.
  rewrite load_created.
  set (st1 := (createSchema constructedName path options st).2) in *.
  destruct (readSchema path) as [e|doc] eqn:Hdoc.
  { split; [done|]. split; [done|]. split; [by intros e' [= <-]|].
    split; [done|]. by intros e' _ _. }
  set (loaded := {| name := docName doc; filePath := path; raw := docRaw doc;
                    extensions := _ |}).
  assert (Htruthy : truthy (schemaAt (name loaded) st1)
                    = bool_decide (is_Some (schemas st !! docName doc))
                      || inherited (docName doc)).
  { change (name loaded) with (docName doc). unfold schemaAt. rewrite Hs.
    destruct (schemas st !! docName doc) as [u|].
    - by rewrite bool_decide_eq_true_2 by eauto.
    - rewrite bool_decide_eq_false_2 by (by intros [? ?]).
      by destruct (inherited (docName doc)). }
  destruct (registerLoaded_cases path options loaded st1)
    as [(Htaken & Hrep & Heq)|(Hfree & Hr & Hc & _)].
  - rewrite Heq. cbn [fst snd]. rewrite Htruthy in Htaken.
    split; [done|]. split; [done|]. split; [done|]. split.
    + intros doc' [= <-] _. by rewrite Htaken, Hrep.
    + by intros e _ _.
  - destruct (registerLoaded_proceeds path options loaded st1 Hfree)
      as (_ & _ & _ & Hval & Hloads & _).
    rewrite Hval, Hloads. split; [done|]. split; [done|]. split; [done|]. split.
    + intros doc' [= <-] _.
      assert (Hgo : (bool_decide (is_Some (schemas st !! docName doc))
                     || inherited (docName doc)) && negb (replace options) = false).
      { rewrite <- Htruthy. destruct Hfree as [-> | ->]; [done|].
        by rewrite andb_false_r. }
      rewrite Hgo, Hr, Hc. split; [|split].
      * destruct (catalogAfter_registered loaded st1) as (u & Hu & _). eauto.
      * apply outcomeAfter_cases.
      * intros Hown Hsource. by apply outcomeAfter_ok.
    + intros e. rewrite Hr. intros He Hnot.
      destruct (outcomeAfter_cases loaded st1) as [Hok|[[Hbad _]|[Hbad _]]];
        rewrite He in *; [done| |]; injection Hbad as Hbad;
        by destruct (Hnot _ Hbad).
Qed.

(** X2. After a registration that succeeds, [getSchema] of the schema's name
    answers with [build] of a unit that has that name, the path and the
    document just loaded, every name that was pending under the schema's
    name, and no name beyond the pending ones and its own. *)
Theorem registerSchema_then_getSchema (path : string) (options : RegisterSchemaOptions)
    (st : State) (doc : Document) (buildOptions : LoadSchemaOptions) :
  readSchema path = inr doc →
  (registerSchema constructedName readSchema (JsString path) options st).1 = inr tt →
  let N := docName doc in
  let registered :=
    (registerSchema constructedName readSchema (JsString path) options st).2 in
  ∃ u, (getSchema build N buildOptions registered).1 = inr (build u buildOptions)
       ∧ name u = N ∧ filePath u = path ∧ raw u = docRaw doc
       ∧ (∀ x, x ∈ pending N st → x ∈ extensions u)
       ∧ (∀ x, x ∈ extensions u →
               x ∈ pending (propertyKey (constructedName path options)) st
               ∨ x ∈ pending N st ∨ x = N).
Proof.
  intros Hdoc Hok. cbv zeta. revert Hok.
  rewrite (registerSchema_loaded _ _ _ _ _ _ Hdoc).
  destruct (createSchema_fields constructedName path options st)
    as (_ & _ & Hext & Hs & Hl & _).
  set (st1 := (createSchema constructedName path options st).2) in *.
  set (loaded := {| name := docName doc; filePath := path; raw := docRaw doc;
                    extensions := _ |}).
  destruct (registerLoaded_cases path options loaded st1)
    as [(_ & _ & ->)|(_ & _ & Hc & _)]; [done|].
  intros _.
  destruct (catalogAfter_registered loaded st1)
    as (u & Hu & (Hn & Hf & Hr & Hg) & Happ).
  exists u. unfold getSchema, schemaAt. rewrite Hc.
  change (name loaded) with (docName doc) in Hu. rewrite Hu.
  split; [done|]. split; [done|]. split; [done|]. split; [done|]. split.
  - intros x Hx.
    destruct (decide (propertyKey (constructedName path options) = docName doc))
      as [Heq|Hne].
    + apply Hg. simpl. apply Hext. by rewrite Heq.
    + apply Happ. unfold pending. change (name loaded) with (docName doc).
      rewrite Hl, lookup_delete_ne by done. exact Hx.
  - intros x Hx.
    destruct (foldl_addExtension_fields (pending (docName doc) st1) loaded)
      as (_ & _ & _ & _ & _ & Honly).
    fold (storedUnit loaded (pending (docName doc) st1)) in Honly.
    assert (Hstored : ∀ y, y ∈ extensions (storedUnit loaded (pending (docName doc) st1)) →
              y ∈ pending (propertyKey (constructedName path options)) st
              ∨ y ∈ pending (docName doc) st ∨ y = docName doc).
    { intros y Hy. destruct (Honly y Hy) as [Hy'|Hy'].
      - left. by apply Hext.
      - right. left.
        by apply (createSchema_pending constructedName path options st). }
    assert (Hw : catalogWith loaded st1 !! docName doc
                 = Some (storedUnit loaded (pending (docName doc) st1))).
    { rewrite catalogWith_lookup. by rewrite decide_True. }
    destruct (catalogAfter_lookup loaded st1 (docName doc)) as [Heq|(b0 & Hb0 & Heq)].
    + rewrite Heq, Hw in Hu. injection Hu as <-. by apply Hstored.
    + rewrite Hw in Hb0. injection Hb0 as <-. rewrite Heq in Hu.
      injection Hu as <-. simpl in Hx.
      apply addExtensionTo_only in Hx as [Hx| ->]; [by apply Hstored|].
      right. by right.
Qed.

(** X3. A registration touches the catalog at two names at most, the
    schema's own and its patch source, and the store of extensions at two
    keys at most, the name the unit had when constructed and the patch
    source; every other unit and every other pending list is exactly as
    before, whether the call succeeds or not.  When it succeeds the
    registered names are the former ones and the schema's own. *)
Theorem registerSchema_touches_two_names (path : string)
    (options : RegisterSchemaOptions) (st : State) (doc : Document) :
  readSchema path = inr doc →
  let N := docName doc in
  let source := (λ p, propertyKey (source_ref p)) <$> patch (docRaw doc) in
  let result := registerSchema constructedName readSchema (JsString path) options st in
  (∀ k, k ≠ N → source ≠ Some k → schemas result.2 !! k = schemas st !! k)
  ∧ (∀ k, k ≠ propertyKey (constructedName path options) → source ≠ Some k →
          schemaExtensions result.2 !! k = schemaExtensions st !! k)
  ∧ (result.1 = inr tt → dom (schemas result.2) = {[N]} ∪ dom (schemas st)).
Proof.
  intros Hdoc. cbv zeta. rewrite (registerSchema_loaded _ _ _ _ _ _ Hdoc).
  destruct (createSchema_fields constructedName path options st)
    as (_ & _ & _ & Hs & Hl & _).
  set (st1 := (createSchema constructedName path options st).2) in *.
  set (loaded := {| name := docName doc; filePath := path; raw := docRaw doc;
                    extensions := _ |}).
  destruct (registerLoaded_cases path options loaded st1)
    as [(_ & _ & ->)|(_ & Hr & Hc & Hled & _)]; cbn [fst snd].
  { split; [intros; by rewrite Hs|]. split; [|done].
    intros k Hk _. by rewrite Hl, lookup_delete_ne. }
  rewrite Hc, Hled. unfold catalogAfter, ledgerAfter.
  change (raw loaded) with (docRaw doc). change (name loaded) with (docName doc).
  assert (Hwith : ∀ k, k ≠ docName doc → catalogWith loaded st1 !! k = schemas st !! k).
  { intros k Hk. rewrite catalogWith_lookup. change (name loaded) with (docName doc).
    rewrite decide_False by done. by rewrite Hs. }
  assert (Hdom : dom (catalogWith loaded st1) = {[docName doc]} ∪ dom (schemas st)).
  { unfold catalogWith. change (name loaded) with (docName doc).
    by rewrite dom_insert_L, Hs. }
  destruct (pendingAt (docName doc) st1).
  2:{ split; [|split].
      - intros k Hk _. by apply Hwith.
      - intros k Hk _. by rewrite Hl, lookup_delete_ne.
      - done. }
  destruct (patch (docRaw doc)) as [p|]; cbn [fmap option_fmap option_map].
  - destruct (catalogWith loaded st1 !! propertyKey (source_ref p)) as [b|] eqn:Hb.
    + split; [|split].
      * intros k Hk Hsrc. rewrite lookup_insert_ne by congruence. by apply Hwith.
      * intros k Hk _. by rewrite Hl, lookup_delete_ne.
      * intros _. rewrite dom_insert_L. rewrite <- Hdom.
        apply subseteq_union_1_L, singleton_subseteq_l, elem_of_dom. eauto.
    + split; [|split].
      * intros k Hk _. by apply Hwith.
      * intros k Hk Hsrc. destruct (inherited (propertyKey (source_ref p))).
        -- by rewrite Hl, lookup_delete_ne.
        -- rewrite lookup_insert_ne by congruence. by rewrite Hl, lookup_delete_ne.
      * done.
  - split; [|split].
    + intros k Hk _. by apply Hwith.
    + intros k Hk _. by rewrite Hl, lookup_delete_ne.
    + done.
Qed.

(** X4. A registration that succeeds loses no deferred extension: a name
    pending under any key before the call is still pending under that key
    afterwards, or is in the extension set of the unit just registered. *)
Theorem registerSchema_conserves_pending (path : string)
    (options : RegisterSchemaOptions) (st : State) (doc : Document) (k x : string) :
  readSchema path = inr doc →
  (registerSchema constructedName readSchema (JsString path) options st).1 = inr tt →
  x ∈ pending k st →
  let result := registerSchema constructedName readSchema (JsString path) options st in
  x ∈ pending k result.2
  ∨ ∃ u, schemas result.2 !! docName doc = Some u ∧ x ∈ extensions u.
Proof.
  intros Hdoc Hok Hx. cbv zeta. revert Hok.
  rewrite (registerSchema_loaded _ _ _ _ _ _ Hdoc).
  destruct (createSchema_fields constructedName path options st)
    as (_ & _ & Hext & Hs & Hl & _).
  set (st1 := (createSchema constructedName path options st).2) in *.
  set (loaded := {| name := docName doc; filePath := path; raw := docRaw doc;
                    extensions := _ |}).
  destruct (registerLoaded_cases path options loaded st1)
    as [(_ & _ & ->)|(_ & _ & Hc & Hled & _)]; [done|].
  intros _. rewrite Hc. unfold pending at 1. rewrite Hled.
  destruct (decide (k = propertyKey (constructedName path options))) as [->|Hne].
  - right. destruct (catalogAfter_registered loaded st1) as (u & Hu & (_ & _ & _ & Hg) & _).
    exists u. split; [exact Hu|]. apply Hg. simpl. by apply Hext.
  - left. apply ledgerAfter_keeps.
    by apply (createSchema_pending_keeps constructedName path options st).
Qed.

(** X5. After [deregisterSchema(name)], for a name that is none of
    [Object.prototype] (and a catalog that inherits from it),
    [getSchema(name)] rejects with NOT_FOUND whether or not the name was
    registered; for a name of [Object.prototype] it rejects with a
    TypeError.  [getSchema] of any other name answers as before; the store
    of extensions and the validator are not touched, the call is logged
    either way, and when the catalog had no unit under the name it is as
    before. *)
Theorem deregisterSchema_then_getSchema (schemaName : string) (st : State)
    (buildOptions : LoadSchemaOptions) :
  let st' := deregisterSchema schemaName st in
  (inherited schemaName = false → plainCatalog st →
     (getSchema build schemaName buildOptions st').1
     = inl (NOT_FOUND "schema" schemaName))
  ∧ (inherited schemaName = true → schemaName ≠ "__proto__" →
     (getSchema build schemaName buildOptions st').1
     = inl (TYPE_ERROR (NotAFunction "schema.build")))
  ∧ (∀ other, other ≠ schemaName →
       (getSchema build other buildOptions st').1
       = (getSchema build other buildOptions st).1)
  ∧ schemaExtensions st' = schemaExtensions st
  ∧ validator st' = validator st
  ∧ journal st' = journal st ++ [{| level := "debug";
                                    args := [LogText "DEREGISTER_SCHEMA";
                                             LogText schemaName] |}]
  ∧ (schemas st !! schemaName = None → schemas st' = schemas st).
Proof.
  cbv zeta.
  destruct (deregisterSchema_fields schemaName st) as (Hs & Hl & Hj & Hv & _).
  unfold getSchema, schemaAt. rewrite Hs, Hl, Hj, Hv.
  split; [|split; [|split; [|split; [done|split; [done|split; [done|]]]]]].
  - intros Hown _. rewrite lookup_deleteProperty_own by done. by rewrite Hown.
  - intros Hin Hne. unfold deleteProperty.
    rewrite bool_decide_eq_false_2 by done. rewrite lookup_delete_eq. by rewrite Hin.
  - intros other Hne. rewrite lookup_deleteProperty_ne by congruence.
    destruct (schemas st !! other); [done|]. by destruct (inherited other).
  - intros Hnone. by apply deleteProperty_absent.
Qed.

(** X6. Registering a name that was free (none of [Object.prototype], in a
    catalog that inherits from it) and deregistering it again: the name is
    free again and every unit but the patch source is as before.  A
    registered patch source keeps the name in its extension set, so the
    catalog is the former one exactly when the document declares no
    [$patch] or its source is not registered. *)
Theorem registerSchema_then_deregisterSchema (path : string)
    (options : RegisterSchemaOptions) (st : State) (doc : Document) :
  readSchema path = inr doc →
  schemas st !! docName doc = None →
  inherited (docName doc) = false →
  plainCatalog st →
  let N := docName doc in
  let st' := deregisterSchema N
               (registerSchema constructedName readSchema (JsString path) options st).2 in
  schemas st' !! N = None
  ∧ match patch (docRaw doc) with
    | None => schemas st' = schemas st
    | Some p =>
        match schemas st !! propertyKey (source_ref p) with
        | None => schemas st' = schemas st
        | Some base =>
            schemas st'
            = <[propertyKey (source_ref p) := addExtension N base]> (schemas st)
        end
    end.
Proof.
  intros Hdoc Hfree Hown _. cbv zeta.
  assert (Hne : docName doc ≠ "__proto__") by (by intros Heq; rewrite Heq in Hown).
  destruct (deregisterSchema_fields (docName doc)
              (registerSchema constructedName readSchema (JsString path) options st).2)
    as (-> & _).
  unfold deleteProperty. rewrite bool_decide_eq_false_2 by done.
  split; [apply lookup_delete_eq|].
  rewrite (registerSchema_loaded _ _ _ _ _ _ Hdoc).
  destruct (createSchema_fields constructedName path options st)
    as (_ & _ & _ & Hs & _).
  pose proof (createSchema_schemaAt constructedName path options st (docName doc)) as Hat.
  set (st1 := (createSchema constructedName path options st).2) in *.
  set (loaded := {| name := docName doc; filePath := path; raw := docRaw doc;
                    extensions := _ |}).
  destruct (registerLoaded_proceeds path options loaded st1) as (_ & Hc & _).
  { change (name loaded) with (docName doc). left. rewrite Hat. by apply truthy_free. }
  rewrite Hc. unfold catalogAfter.
  rewrite (pendingAt_own (name loaded) st1) by done.
  change (raw loaded) with (docRaw doc). change (name loaded) with (docName doc).
  assert (Hback : delete (docName doc) (catalogWith loaded st1) = schemas st).
  { unfold catalogWith. change (name loaded) with (docName doc).
    rewrite delete_insert_eq, Hs. by apply delete_id. }
  destruct (patch (docRaw doc)) as [p|]; [|done]. simpl.
  rewrite catalogWith_lookup. change (name loaded) with (docName doc).
  destruct (decide (docName doc = propertyKey (source_ref p))) as [Heq|Hne'].
  - rewrite <- Heq, Hfree. rewrite delete_insert_eq. exact Hback.
  - rewrite Hs. destruct (schemas st !! propertyKey (source_ref p)) as [base|] eqn:Hb;
      [|done].
    rewrite delete_insert_ne by done. by rewrite Hback.
Qed.
End RegistrationOutcomes.

(** ** The order of two registrations *)

Section RegistrationOrder.
Variable constructedName : string → RegisterSchemaOptions → option string.
Variable readSchema : string → AppError + Document.

(** A registration in a module whose store of extensions is empty. *)
Lemma registerSchema_nothing_pending (path : string) (options : RegisterSchemaOptions)
    (st : State) (doc : Document) :
  readSchema path = inr doc →
  schemaExtensions st = ∅ →
  schemas st !! docName doc = None →
  inherited (docName doc) = false →
  (∀ p, patch (docRaw doc) = Some p → inherited (propertyKey (source_ref p)) = false) →
  let u := {| name := docName doc; filePath := path; raw := docRaw doc;
              extensions := [] |} in
  let result := registerSchema constructedName readSchema (JsString path) options st in
  result.1 = inr tt
  ∧ schemas result.2 = catalogAfter u st
  ∧ schemaExtensions result.2 = ledgerAfter u st.
Proof.
  intros Hdoc Hempty Hfree Hown Hsource. cbv zeta.
  rewrite (registerSchema_loaded _ _ _ _ _ _ Hdoc).
  rewrite (createSchema_nothing_pending constructedName path options st Hempty).
  cbn [fst snd newExtensions].
  set (u := {| name := docName doc; filePath := path; raw := docRaw doc;
               extensions := [] |}).
  destruct (registerLoaded_proceeds path options u (startLoad path st))
    as (Hr & Hc & Hl & _).
  { left. by apply truthy_free. }
  rewrite Hr, Hc, Hl. split; [|done]. by apply outcomeAfter_ok.
Qed.

(** X7. A base schema and a schema that patches it, both new to a module
    with nothing deferred and neither named after a member of
    [Object.prototype], registered in either order: both calls succeed
    either way and the catalog is the same, the base unit listing the other
    as its one extension.  Registered base first, nothing is left
    deferred. *)
Theorem registerSchema_order_independent (pathA pathB : string)
    (optionsA optionsB : RegisterSchemaOptions) (st : State)
    (docA docB : Document) (p : Patch) :
  readSchema pathA = inr docA →
  readSchema pathB = inr docB →
  patch (docRaw docA) = None →
  patch (docRaw docB) = Some p →
  source_ref p = Some (docName docA) →
  docName docA ≠ docName docB →
  schemas st !! docName docA = None →
  schemas st !! docName docB = None →
  schemaExtensions st = ∅ →
  inherited (docName docA) = false →
  inherited (docName docB) = false →
  plainCatalog st →
  let register := registerSchema constructedName readSchema in
  let baseFirst :=
    register (JsString pathB) optionsB (register (JsString pathA) optionsA st).2 in
  let patchFirst :=
    register (JsString pathA) optionsA (register (JsString pathB) optionsB st).2 in
  (register (JsString pathA) optionsA st).1 = inr tt
  ∧ baseFirst.1 = inr tt
  ∧ (register (JsString pathB) optionsB st).1 = inr tt
  ∧ patchFirst.1 = inr tt
  ∧ schemas baseFirst.2 = schemas patchFirst.2
  ∧ schemas baseFirst.2
    = <[docName docA := {| name := docName docA; filePath := pathA;
                           raw := docRaw docA; extensions := [docName docB] |}]>
        (<[docName docB := {| name := docName docB; filePath := pathB;
                              raw := docRaw docB; extensions := [] |}]> (schemas st))
  ∧ schemaExtensions baseFirst.2 = ∅.
Proof.
  intros HdocA HdocB HpA HpB Hsrc Hne HfreeA HfreeB Hempty HownA HownB _. cbv zeta.
  assert (HsourceA : ∀ p', patch (docRaw docA) = Some p' →
                           inherited (propertyKey (source_ref p')) = false).
  { intros p'. by rewrite HpA. }
  assert (HsourceB : ∀ p', patch (docRaw docB) = Some p' →
                           inherited (propertyKey (source_ref p')) = false).
  { intros p'. rewrite HpB. intros [= <-]. by rewrite Hsrc. }
  set (uA := {| name := docName docA; filePath := pathA; raw := docRaw docA;
                extensions := [] |}).
  set (uB := {| name := docName docB; filePath := pathB; raw := docRaw docB;
                extensions := [] |}).
  (* base first *)
  destruct (registerSchema_nothing_pending pathA optionsA st docA HdocA Hempty HfreeA
              HownA HsourceA)
    as (HrA & HcA & HlA). fold uA in HcA, HlA.
  assert (HcA' : schemas (registerSchema constructedName readSchema (JsString pathA)
                            optionsA st).2 = <[docName docA := uA]> (schemas st)).
  { rewrite HcA. unfold catalogAfter. rewrite pendingAt_own by done. change (raw uA) with (docRaw docA).
    rewrite HpA. unfold catalogWith, pending. by rewrite Hempty, lookup_empty. }
  assert (HlA' : schemaExtensions (registerSchema constructedName readSchema
                                     (JsString pathA) optionsA st).2 = ∅).
  { rewrite HlA. unfold ledgerAfter. rewrite pendingAt_own by done. change (raw uA) with (docRaw docA).
    by rewrite HpA. }
  set (sA := (registerSchema constructedName readSchema (JsString pathA) optionsA st).2)
    in *.
  destruct (registerSchema_nothing_pending pathB optionsB sA docB HdocB HlA')
    as (HrAB & HcAB & HlAB); [|done|done|].
  { rewrite HcA'. rewrite lookup_insert_ne by done. exact HfreeB. }
  fold uB in HcAB, HlAB.
  assert (HwithB : catalogWith uB sA = <[docName docB := uB]> (<[docName docA := uA]> (schemas st))).
  { unfold catalogWith, pending. rewrite HlA', lookup_empty, HcA'. done. }
  assert (HcAB' : schemas (registerSchema constructedName readSchema (JsString pathB)
                             optionsB sA).2
                  = <[docName docA := addExtension (docName docB) uA]>
                      (<[docName docB := uB]> (schemas st))).
  { rewrite HcAB. unfold catalogAfter. rewrite pendingAt_own by done. change (raw uB) with (docRaw docB).
    rewrite HpB, Hsrc. cbn [propertyKey default from_option id]. rewrite HwithB.
    rewrite lookup_insert_ne by congruence. rewrite lookup_insert_eq.
    change (name uB) with (docName docB).
    rewrite (insert_insert_ne (schemas st) (docName docB) (docName docA)) by congruence.
    by rewrite insert_insert_eq. }
  assert (HlAB' : schemaExtensions (registerSchema constructedName readSchema
                                      (JsString pathB) optionsB sA).2 = ∅).
  { rewrite HlAB. unfold ledgerAfter. rewrite pendingAt_own by done. change (raw uB) with (docRaw docB).
    rewrite HpB, Hsrc. cbn [propertyKey default from_option id]. rewrite HwithB.
    rewrite lookup_insert_ne by congruence. by rewrite lookup_insert_eq. }
  (* patch first *)
  destruct (registerSchema_nothing_pending pathB optionsB st docB HdocB Hempty HfreeB
              HownB HsourceB)
    as (HrB & HcB & HlB). fold uB in HcB, HlB.
  assert (HwithB0 : catalogWith uB st = <[docName docB := uB]> (schemas st)).
  { unfold catalogWith, pending. by rewrite Hempty, lookup_empty. }
  assert (HcB' : schemas (registerSchema constructedName readSchema (JsString pathB)
                            optionsB st).2 = <[docName docB := uB]> (schemas st)).
  { rewrite HcB. unfold catalogAfter. rewrite pendingAt_own by done. change (raw uB) with (docRaw docB).
    rewrite HpB, Hsrc. cbn [propertyKey default from_option id]. rewrite HwithB0.
    by rewrite lookup_insert_ne, HfreeA by congruence. }
  assert (HlB' : schemaExtensions (registerSchema constructedName readSchema
                                     (JsString pathB) optionsB st).2
                 = {[docName docA := [docName docB]]}).
  { rewrite HlB. unfold ledgerAfter. rewrite pendingAt_own by done. change (raw uB) with (docRaw docB).
    rewrite HpB, Hsrc. cbn [propertyKey default from_option id]. rewrite HwithB0.
    rewrite lookup_insert_ne, HfreeA, HownA by congruence.
    unfold pending. by rewrite Hempty, lookup_empty. }
  set (sB := (registerSchema constructedName readSchema (JsString pathB) optionsB st).2)
    in *.
  assert (HBA : (registerSchema constructedName readSchema (JsString pathA) optionsA sB).1
                = inr tt
                ∧ schemas (registerSchema constructedName readSchema (JsString pathA)
                             optionsA sB).2
                  = <[docName docA := addExtension (docName docB) uA]>
                      (<[docName docB := uB]> (schemas st))).
  { rewrite (registerSchema_loaded _ _ _ _ _ _ HdocA).
    destruct (createSchema_fields constructedName pathA optionsA sB)
      as (_ & _ & Hext & Hs & Hl & _).
    set (s1 := (createSchema constructedName pathA optionsA sB).2) in *.
    set (loaded := {| name := docName docA; filePath := pathA; raw := docRaw docA;
                      extensions := _ |}).
    destruct (registerLoaded_proceeds pathA optionsA loaded s1) as (Hr & Hc & _).
    { left. change (name loaded) with (docName docA). apply truthy_free.
      split; [|done]. rewrite Hs, HcB'. by rewrite lookup_insert_ne by congruence. }
    split; [rewrite Hr; by apply outcomeAfter_ok|]. rewrite Hc. unfold catalogAfter.
    rewrite pendingAt_own by done.
    change (raw loaded) with (docRaw docA). rewrite HpA.
    unfold catalogWith. change (name loaded) with (docName docA). rewrite Hs, HcB'.
    f_equal.
    destruct (decide (propertyKey (constructedName pathA optionsA) = docName docA))
      as [Hkey|Hkey].
    - (* createSchema finds the deferred name *)
      assert (Hpend : pending (docName docA) s1 = []).
      { unfold pending. by rewrite Hl, Hkey, lookup_delete_eq. }
      rewrite Hpend. unfold storedUnit. cbn [foldl].
      unfold loaded, createSchema. cbn [fst newName newJsonSchema].
      rewrite Hkey. unfold pending at 1. rewrite HlB', lookup_singleton_eq.
      reflexivity.
    - (* line 110 finds it *)
      assert (Hpend : pending (docName docA) s1 = [docName docB]).
      { unfold pending. rewrite Hl, lookup_delete_ne by done.
        by rewrite HlB', lookup_singleton_eq. }
      rewrite Hpend. unfold storedUnit. cbn [foldl].
      unfold loaded, createSchema. cbn [fst newName newJsonSchema].
      unfold pending at 1. rewrite HlB', lookup_singleton_ne by congruence.
      reflexivity. }
  destruct HBA as [HrBA HcBA].
  split; [done|]. split; [done|]. split; [done|]. split; [done|].
  split; [by rewrite HcAB', HcBA|]. split; [|done].
  rewrite HcAB'. reflexivity.
Qed.
End RegistrationOrder.

(** ** What every operation keeps *)

Lemma consistent_initialState : consistent initialState.
Proof. split; intros k x; simpl; by rewrite lookup_empty. Qed.

(** Consistency reads the catalog and the store of extensions only. *)
Lemma consistent_same (st st' : State) :
  schemas st' = schemas st → schemaExtensions st' = schemaExtensions st →
  consistent st → consistent st'.
Proof.
  intros Hs Hl [Hk He]. split.
  - intros k u. rewrite Hs. apply Hk.
  - intros k l. rewrite Hl. apply He.
Qed.

Section Consistency.
Variable constructedName : string → RegisterSchemaOptions → option string.
Variable readSchema : string → AppError + Document.

Lemma consistent_createSchema (path : string) (options : RegisterSchemaOptions)
    (st : State) :
  consistent st → consistent (createSchema constructedName path options st).2.
Proof.
  intros [Hk He].
  destruct (createSchema_fields constructedName path options st)
    as (_ & _ & _ & Hs & Hl & _).
  split.
  - intros k u. rewrite Hs. apply Hk.
  - intros k l. rewrite Hl. intros [_ Hin]%lookup_delete_Some. by eapply He.
Qed.

Lemma consistent_deregisterSchema (schemaName : string) (st : State) :
  consistent st → consistent (deregisterSchema schemaName st).
Proof.
  intros [Hk He]. destruct (deregisterSchema_fields schemaName st) as (Hs & Hl & _).
  split.
  - intros k u. rewrite Hs. unfold deleteProperty. case_bool_decide; [apply Hk|].
    intros [_ Hin]%lookup_delete_Some. by apply Hk.
  - intros k l. rewrite Hl. apply He.
Qed.

Lemma consistent_extendSchema (baseSchemaName : option string) (extSchemaName : string)
    (st : State) :
  consistent st → consistent (extendSchema baseSchemaName extSchemaName st).2.
Proof.
  intros [Hk He].
  destruct (extendSchema_fields baseSchemaName extSchemaName st) as (_ & Hs & Hl & _).
  cbv zeta in Hs, Hl. split.
  - intros k u. rewrite Hs.
    destruct (schemas st !! propertyKey baseSchemaName) as [b|] eqn:Hb; [|apply Hk].
    rewrite lookup_insert. case_decide as Hkey; [|apply Hk].
    intros [= <-]. subst k. simpl. by apply Hk.
  - intros k l. rewrite Hl.
    destruct (schemas st !! propertyKey baseSchemaName) as [b|]; [apply He|].
    destruct (inherited (propertyKey baseSchemaName)); [apply He|].
    rewrite lookup_insert. case_decide as Hkey; [|apply He].
    intros [= <-]. by destruct (pending (propertyKey baseSchemaName) st).
Qed.

Lemma consistent_registerLoaded (path : string) (options : RegisterSchemaOptions)
    (schema : JsonSchema) (st : State) :
  consistent st → consistent (registerLoaded path options schema st).2.
Proof.
  intros [Hk He].
  destruct (registerLoaded_cases path options schema st)
    as [(_ & _ & ->)|(_ & _ & Hc & Hl & _)]; [done|].
  split.
  - intros k u. rewrite Hc. intros Hu.
    destruct (catalogAfter_origin schema st k u Hu)
      as [(-> & Hn & _)|(_ & b & Hb & Hn & _)]; [done|].
    rewrite Hn. by apply Hk.
  - intros k l. rewrite Hl. unfold ledgerAfter.
    destruct (pendingAt (name schema) st); [|apply He].
    destruct (patch (raw schema)) as [p|]; [|apply He]. simpl.
    destruct (catalogWith schema st !! propertyKey (source_ref p)); [apply He|].
    destruct (inherited (propertyKey (source_ref p))); [apply He|].
    rewrite lookup_insert. case_decide as Hkey; [|apply He].
    intros [= <-]. by destruct (pending (propertyKey (source_ref p)) st).
Qed.

Lemma consistent_resume (path : string) (options : RegisterSchemaOptions)
    (schema : NewSchema) (st : State) :
  consistent st → consistent (registerSchema_resume readSchema path options schema st).2.
Proof.
  intros Hc.
  destruct (resume_cases readSchema path options schema st)
    as [(e & _ & ->)|(doc & _ & ->)]; [done|].
  by apply consistent_registerLoaded.
Qed.

Lemma consistent_registerSchema (filePathArg : JsValue) (options : RegisterSchemaOptions)
    (st : State) :
  consistent st →
  consistent (registerSchema constructedName readSchema filePathArg options st).2.
Proof.
  intros Hc. destruct filePathArg as [| | | |path]; try done.
  rewrite registerSchema_unfold. by apply consistent_resume, consistent_createSchema.
Qed.

Lemma consistent_logRejections (ts : list (string * Task)) (st : State) :
  consistent st → consistent (logRejections ts st).
Proof.
  destruct (logRejections_fields ts st) as (Hs & Hl & _). by apply consistent_same.
Qed.

Lemma consistent_startTasks (files : list string) (st : State) :
  consistent st → consistent (startTasks constructedName files st).2.
Proof.
  intros Hc. induction files as [|f files IH] using rev_ind; [done|].
  rewrite startTasks_snoc.
  destruct (startTasks constructedName files st) as [ts st1].
  unfold startTask, registerSchema_begin.
  pose proof (consistent_createSchema f noOptions st1 IH) as Hnext.
  by destruct (createSchema constructedName f noOptions st1) as [schema st2].
Qed.

Lemma consistent_step (globs : list (AppError + list string)) (p : Pass) (ev : Event) :
  consistent (registry p) →
  consistent (registry (step constructedName readSchema globs p ev)).
Proof.
  intros Hc. destruct ev as [d|d i]; simpl.
  - destruct (started p !! d); [done|].
    destruct (globs !! d) as [[e|files]|]; [done| |done].
    pose proof (consistent_startTasks files (registry p) Hc) as Hnext.
    destruct (startTasks constructedName files (registry p)) as [ts st1].
    by apply consistent_logRejections.
  - destruct (started p !! d) as [ts|]; [|done].
    destruct (ts !! i) as [[f [schema|r0]]|]; try done.
    pose proof (consistent_resume f noOptions schema (registry p) Hc) as Hnext.
    destruct (registerSchema_resume readSchema f noOptions schema (registry p))
      as [r st1].
    by apply consistent_logRejections.
Qed.

Lemma consistent_registerSchemas (globs : list (AppError + list string))
    (schedule : list Event) (st : State) :
  noEmptyPending st →
  consistent (registry (registerSchemas constructedName readSchema globs schedule st)).
Proof.
  intros He. induction schedule as [|ev schedule IH] using rev_ind.
  - split; [|done]. intros k u. simpl. by rewrite lookup_empty.
  - unfold registerSchemas, runEvents in *. rewrite foldl_snoc.
    by apply consistent_step.
Qed.

(** X8. Two facts hold of the module from [init] on, whatever is called
    and in whatever order: every unit of the catalog is stored under its
    own name, and the store of extensions holds no empty list.  Each
    operation that writes the catalog or the store keeps both, whatever its
    arguments and whether it succeeds, and a pass keeps them at every
    moment. *)
Theorem operations_keep_consistency (st : State) :
  consistent st →
  (∀ filePathArg options,
     consistent (registerSchema constructedName readSchema filePathArg options st).2)
  ∧ (∀ schemaName, consistent (deregisterSchema schemaName st))
  ∧ (∀ baseSchemaName extSchemaName,
       consistent (extendSchema baseSchemaName extSchemaName st).2)
  ∧ (∀ path options, consistent (createSchema constructedName path options st).2)
  ∧ (∀ globs schedule,
       consistent (registry (registerSchemas constructedName readSchema globs
                               schedule st))).
Proof.
  intros Hc. split; [|split; [|split; [|split]]].
  - intros. by apply consistent_registerSchema.
  - intros. by apply consistent_deregisterSchema.
  - intros. by apply consistent_extendSchema.
  - intros. by apply consistent_createSchema.
  - intros. apply consistent_registerSchemas. apply Hc.
Qed.
End Consistency.

(** ** Formats *)

Section FormatProperties.
Variable safeRegex : Pattern → bool.

Lemma addStringFormats_snoc (fmts : list (string * Pattern)) (entry : string * Pattern)
    (st : State) :
  addStringFormats safeRegex (fmts ++ [entry]) st
  = addStringFormat safeRegex (addStringFormats safeRegex fmts st) entry.
Proof. unfold addStringFormats. by rewrite foldl_snoc. Qed.

Lemma addStringFormat_fields (st : State) (fname : string) (re : Pattern) :
  let st' := addStringFormat safeRegex st (fname, re) in
  formats (validator st') = <[fname := installedFor safeRegex re]> (formats (validator st))
  ∧ keywords (validator st') = keywords (validator st)
  ∧ journal st' = journal st ++ warningsFor safeRegex [(fname, re)]
  ∧ schemas st' = schemas st
  ∧ schemaExtensions st' = schemaExtensions st
  ∧ loads st' = loads st.
Proof.
  cbv zeta. unfold addStringFormat, installedFor, warningsFor. simpl.
  destruct (safeRegex re); simpl; repeat split; try done.
  by rewrite app_nil_r.
Qed.

Lemma warningsFor_app (l k : list (string * Pattern)) :
  warningsFor safeRegex (l ++ k) = warningsFor safeRegex l ++ warningsFor safeRegex k.
Proof. unfold warningsFor. apply omap_app. Qed.


Lemma addStringFormats_fields (fmts : list (string * Pattern)) (st : State) :
  journal (addStringFormats safeRegex fmts st) = journal st ++ warningsFor safeRegex fmts
  ∧ dom (formats (validator (addStringFormats safeRegex fmts st)))
    = list_to_set fmts.*1 ∪ dom (formats (validator st))
  ∧ keywords (validator (addStringFormats safeRegex fmts st)) = keywords (validator st)
  ∧ schemas (addStringFormats safeRegex fmts st) = schemas st
  ∧ schemaExtensions (addStringFormats safeRegex fmts st) = schemaExtensions st
  ∧ loads (addStringFormats safeRegex fmts st) = loads st.
Proof.
  induction fmts as [|[fname re] fmts IH] using rev_ind.
  { simpl. rewrite app_nil_r. repeat split; try done. by rewrite (left_id_L ∅ (∪)). }
  destruct IH as (Hj & Hd & Hk & Hs & Hl & Ho).
  rewrite addStringFormats_snoc.
  destruct (addStringFormat_fields (addStringFormats safeRegex fmts st) fname re)
    as (Hf' & Hk' & Hj' & Hs' & Hl' & Ho').
  rewrite Hf', Hk', Hj', Hs', Hl', Ho', Hj, Hk, Hs, Hl, Ho.
  split; [by rewrite warningsFor_app, app_assoc|]. split; [|done].
  rewrite dom_insert_L, Hd, fmap_app, list_to_set_app_L. simpl.
  rewrite (right_id_L ∅ (∪)), (assoc_L (∪)).
  by rewrite (comm_L (∪) {[fname]} (list_to_set fmts.*1)).
Qed.


(** X9. [addStringFormats] logs one warning for each entry the checker
    refuses, in the order of the entries, and nothing else; afterwards the
    installed names are the former ones and the names of the entries;
    formats under other names, the keywords, the catalog and the store of
    extensions are as before. *)
Theorem addStringFormats_log_and_frame (fmts : list (string * Pattern)) (st : State) :
  let st' := addStringFormats safeRegex fmts st in
  journal st' = journal st ++ warningsFor safeRegex fmts
  ∧ dom (formats (validator st')) = list_to_set fmts.*1 ∪ dom (formats (validator st))
  ∧ (∀ fname, fname ∉ fmts.*1 →
       formats (validator st') !! fname = formats (validator st) !! fname)
  ∧ keywords (validator st') = keywords (validator st)
  ∧ schemas st' = schemas st
  ∧ schemaExtensions st' = schemaExtensions st
  ∧ loads st' = loads st.
Proof.
  cbv zeta. destruct (addStringFormats_fields fmts st) as (Hj & Hd & Hk & Hs & Hl & Ho).
  split; [done|]. split; [done|]. split; [|done].
  intros fname Hn. by apply addStringFormats_other.
Qed.

End FormatProperties.

(** ** Deferred and direct extension *)

Lemma foldl_addExtensionNew_extensions (xs : list string) (u : NewSchema) :
  newExtensions (foldl (λ u s, addExtensionNew s u) u xs)
  = foldl (λ ys s, addExtensionTo s ys) (newExtensions u) xs.
Proof.
  revert u. induction xs as [|s xs IH]; intros u; [done|].
  simpl. by rewrite IH.
Qed.

Section DeferredExtension.
Variable constructedName : string → RegisterSchemaOptions → option string.
Variable readSchema : string → AppError + Document.

Lemma createSchema_newExtensions (path : string) (options : RegisterSchemaOptions)
    (st : State) :
  newExtensions (createSchema constructedName path options st).1
  = foldl (λ ys s, addExtensionTo s ys) []
      (pending (propertyKey (constructedName path options)) st).
Proof. unfold createSchema. cbn [fst]. by rewrite foldl_addExtensionNew_extensions. Qed.

(** X11. Naming a schema as extended before it is registered comes to the
    same catalog as naming it afterwards: [extendSchema(N, ext)] followed
    by the registration of a file whose schema is named [N] leaves the
    catalog that the registration followed by [extendSchema(N, ext)]
    leaves, with [ext] among the extensions of [N], provided [N] was free
    and is no name of [Object.prototype], and the schema patches neither
    itself nor such a name. *)
Theorem extendSchema_deferred_or_direct (path : string) (options : RegisterSchemaOptions)
    (st : State) (doc : Document) (ext : string) :
  readSchema path = inr doc →
  schemas st !! docName doc = None →
  inherited (docName doc) = false →
  (∀ p, patch (docRaw doc) = Some p → propertyKey (source_ref p) ≠ docName doc) →
  (∀ p, patch (docRaw doc) = Some p → inherited (propertyKey (source_ref p)) = false) →
  plainCatalog st →
  let early := registerSchema constructedName readSchema (JsString path) options
                 (extendSchema (Some (docName doc)) ext st).2 in
  let late := extendSchema (Some (docName doc)) ext
                (registerSchema constructedName readSchema (JsString path) options st).2 in
  (extendSchema (Some (docName doc)) ext st).1 = inr tt
  ∧ early.1 = inr tt
  ∧ late.1 = inr tt
  ∧ schemas early.2 = schemas late.2
  ∧ ∃ u, schemas late.2 !! docName doc = Some u ∧ ext ∈ extensions u.
Proof.
  intros Hdoc Hfree Hown Hself Hsource _. cbv zeta.
  rewrite !(registerSchema_loaded constructedName readSchema path options _ doc Hdoc).
  set (N := docName doc) in *.
  set (c := propertyKey (constructedName path options)).
  destruct (extendSchema_fields (Some N) ext st) as (Hr0 & Hs0 & Hl0 & _).
  cbv zeta in Hr0, Hs0, Hl0. cbn [propertyKey default from_option id] in Hr0, Hs0, Hl0.
  rewrite Hfree in Hr0, Hs0, Hl0. rewrite Hown in Hr0, Hl0.
  set (st0 := (extendSchema (Some N) ext st).2) in *.
  destruct (createSchema_fields constructedName path options st0)
    as (_ & _ & _ & HsA & HlA & _).
  destruct (createSchema_fields constructedName path options st)
    as (_ & _ & _ & HsB & HlB & _).
  fold c in HlA, HlB.
  pose proof (createSchema_newExtensions path options st0) as HeA.
  pose proof (createSchema_newExtensions path options st) as HeB.
  fold c in HeA, HeB.
  set (cA := (createSchema constructedName path options st0).2) in *.
  set (cB := (createSchema constructedName path options st).2) in *.
  set (LA := {| name := N; filePath := path; raw := docRaw doc;
                extensions := newExtensions (createSchema constructedName path options st0).1 |}).
  set (LB := {| name := N; filePath := path; raw := docRaw doc;
                extensions := newExtensions (createSchema constructedName path options st).1 |}).
  assert (HfreeA : truthy (schemaAt (name LA) cA) = false).
  { apply truthy_free. split; [|done]. by rewrite HsA, Hs0. }
  assert (HfreeB : truthy (schemaAt (name LB) cB) = false).
  { apply truthy_free. split; [|done]. by rewrite HsB. }
  destruct (registerLoaded_proceeds path options LA cA (or_introl HfreeA))
    as (HrA & HcatA & _).
  destruct (registerLoaded_proceeds path options LB cB (or_introl HfreeB))
    as (_ & HcatB & _).
  cbv zeta in HrA, HcatA, HcatB.
  assert (Hkey : storedUnit LA (pending N cA)
                 = addExtension ext (storedUnit LB (pending N cB))).
  { unfold pending. rewrite HlA, HlB, Hl0.
    destruct (decide (c = N)) as [Hc|Hc].
    - rewrite Hc, !lookup_delete_eq. cbn [default from_option id storedUnit foldl].
      unfold LA, LB, addExtension. cbn [name filePath raw extensions].
      rewrite HeA, HeB. unfold pending. rewrite Hl0, Hc, lookup_insert_eq.
      cbn [default from_option id]. by rewrite foldl_snoc.
    - rewrite !lookup_delete_ne, lookup_insert_eq by done.
      cbn [default from_option id].
      assert (LA = LB) as ->.
      { unfold LA, LB. rewrite HeA, HeB. unfold pending.
        by rewrite Hl0, lookup_insert_ne by done. }
      unfold storedUnit. by rewrite foldl_snoc. }
  assert (HwithA : catalogWith LA cA = <[N := storedUnit LA (pending N cA)]> (schemas st)).
  { unfold catalogWith. by rewrite HsA, Hs0. }
  assert (HwithB : catalogWith LB cB = <[N := storedUnit LB (pending N cB)]> (schemas st)).
  { unfold catalogWith. by rewrite HsB. }
  destruct (extendSchema_fields (Some N) ext (registerLoaded path options LB cB).2)
    as (Hlater & Hlate & _).
  cbv zeta in Hlater, Hlate. cbn [propertyKey default from_option id] in Hlater, Hlate.
  rewrite HcatB in Hlater, Hlate.
  assert (HB : catalogAfter LB cB !! N = Some (storedUnit LB (pending N cB))).
  { unfold catalogAfter. rewrite (pendingAt_own (name LB) cB) by done.
    change (raw LB) with (docRaw doc).
    destruct (patch (docRaw doc)) as [p|] eqn:Hp; cbv zeta.
    - destruct (catalogWith LB cB !! propertyKey (source_ref p)).
      + rewrite lookup_insert_ne by (by apply Hself).
        by rewrite HwithB, lookup_insert_eq.
      + by rewrite HwithB, lookup_insert_eq.
    - by rewrite HwithB, lookup_insert_eq. }
  rewrite HB in Hlater, Hlate.
  split; [done|]. split; [rewrite HrA; by apply outcomeAfter_ok|].
  split; [done|]. split.
  - rewrite Hlate, HcatA. unfold catalogAfter.
    rewrite (pendingAt_own (name LA) cA), (pendingAt_own (name LB) cB) by done.
    change (raw LA) with (docRaw doc). change (raw LB) with (docRaw doc).
    change (name LA) with N. change (name LB) with N.
    destruct (patch (docRaw doc)) as [p|] eqn:Hp; cbv zeta.
    + pose proof (Hself p eq_refl) as Hne.
      rewrite HwithA, HwithB, !lookup_insert_ne by done.
      destruct (schemas st !! propertyKey (source_ref p)) as [base|].
      * rewrite (insert_insert_ne _ N) by done.
        by rewrite insert_insert_eq, Hkey.
      * by rewrite insert_insert_eq, Hkey.
    + by rewrite HwithA, HwithB, insert_insert_eq, Hkey.
  - exists (addExtension ext (storedUnit LB (pending N cB))).
    rewrite Hlate, lookup_insert_eq. split; [done|].
    apply addExtensionTo_adds.
Qed.
End DeferredExtension.

(** ** The names a pass registers *)

Section PassNames.
Variable constructedName : string → RegisterSchemaOptions → option string.
Variable readSchema : string → AppError + Document.
Variable globs : list (AppError + list string).

Lemma finished_names (schedule : list Event) (st : State) (k : string) :
  finished globs (registerSchemas constructedName readSchema globs schedule st) = true →
  k ∈ dom (schemas (registry (registerSchemas constructedName readSchema globs
                                schedule st)))
  ↔ discoveredName readSchema globs k ∧ inherited k = false.
Proof.
  intros Hfin.
  destruct (registerSchemas_discoveryInvariant constructedName readSchema globs
              schedule st) as [_ I2 _ I4 _ I6 I7].
  set (p := registerSchemas constructedName readSchema globs schedule st) in *.
  rewrite elem_of_dom. split.
  - intros [u Hu]. split; [|apply I7; eauto].
    destruct (I6 k u Hu) as (_ & d & files & doc & Hg & Hf & Hdoc & Hk & _).
    by exists d, files, (filePath u), doc.
  - intros [(d & files & f & doc & Hg & Hf & Hdoc & <-) Hown].
    destruct (finished_started globs p d _ Hfin Hg) as (ts & Hts & Hset).
    destruct (I2 d ts Hts) as (g & Hg' & Hfst). rewrite Hg in Hg'.
    injection Hg' as <-. rewrite <- Hfst in Hf.
    apply list_elem_of_fmap in Hf as ([f' t] & -> & Hin).
    rewrite forallb_forall in Hset.
    pose proof (Hset (f', t) (proj1 (list_elem_of_In _ _) Hin)) as Ht.
    destruct t as [schema|r]; [done|].
    apply list_elem_of_lookup in Hin as (i & Hi).
    pose proof (I4 d ts i f' r Hts Hi) as H4. cbn [fst] in Hdoc.
    rewrite Hdoc in H4. by apply H4.
Qed.

(** X12. The names in the catalog of a finished pass are the names of the
    schemas the discovered files load to, those of [Object.prototype]
    left out.  So they depend neither on the order in which globs and
    loads complete nor on the module the pass started from.  When no two
    loadable files share a name, the file and the document registered
    under each name do not depend on them either. *)
Theorem registerSchemas_names_schedule_free (schedule schedule' : list Event)
    (st st' : State) :
  let p := registerSchemas constructedName readSchema globs schedule st in
  let p' := registerSchemas constructedName readSchema globs schedule' st' in
  finished globs p = true → finished globs p' = true →
  (∀ k, k ∈ dom (schemas (registry p))
        ↔ (∃ d files f doc, globs !! d = Some (inr files) ∧ f ∈ files
                            ∧ readSchema f = inr doc ∧ docName doc = k)
          ∧ inherited k = false)
  ∧ dom (schemas (registry p)) = dom (schemas (registry p'))
  ∧ ((∀ d d' files files' f f' doc doc',
         globs !! d = Some (inr files) → f ∈ files → readSchema f = inr doc →
         globs !! d' = Some (inr files') → f' ∈ files' → readSchema f' = inr doc' →
         docName doc = docName doc' → f = f') →
     ∀ k u u', schemas (registry p) !! k = Some u →
               schemas (registry p') !! k = Some u' →
               name u = name u' ∧ filePath u = filePath u' ∧ raw u = raw u').
Proof.
  cbv zeta. intros Hfin Hfin'. split; [|split].
  - intros k. apply (finished_names schedule st k Hfin).
  - apply set_eq. intros k.
    by rewrite (finished_names schedule st k Hfin), (finished_names schedule' st' k Hfin').
  - intros Hunique k u u' Hu Hu'.
    destruct (registerSchemas_discoveryInvariant constructedName readSchema globs
                schedule st) as [_ _ _ _ _ I6 _].
    destruct (registerSchemas_discoveryInvariant constructedName readSchema globs
                schedule' st') as [_ _ _ _ _ I6' _].
    destruct (I6 k u Hu) as (Hn & d & files & doc & Hg & Hf & Hdoc & Hk & Hraw).
    destruct (I6' k u' Hu') as (Hn' & d' & files' & doc' & Hg' & Hf' & Hdoc' & Hk' & Hraw').
    assert (Hpath : filePath u = filePath u').
    { apply (Hunique d d' files files' _ _ doc doc'); try done. by rewrite Hk, Hk'. }
    split; [by rewrite Hn, Hn'|]. split; [done|].
    rewrite Hraw, Hraw'. rewrite Hpath, Hdoc' in Hdoc. by injection Hdoc as ->.
Qed.
End PassNames.

(** ** The files a pass loads *)

Section PassLoads.
Variable constructedName : string → RegisterSchemaOptions → option string.
Variable readSchema : string → AppError + Document.
Variable globs : list (AppError + list string).

Lemma startTasks_loads (files : list string) (st : State) :
  loads (startTasks constructedName files st).2 = loads st ++ files
  ∧ validator (startTasks constructedName files st).2 = validator st.
Proof.
  induction files as [|f files IH] using rev_ind.
  { split; [|done]. by rewrite app_nil_r. }
  rewrite startTasks_snoc. destruct IH as (Hl & Hv).
  destruct (startTasks constructedName files st) as [ts st1].
  unfold startTask, registerSchema_begin.
  destruct (createSchema_fields constructedName f noOptions st1)
    as (_ & _ & _ & _ & _ & _ & Hv1 & Hl1).
  destruct (createSchema constructedName f noOptions st1) as [schema st2].
  cbn [fst snd] in *. rewrite Hl1, Hv1, Hl, Hv. by rewrite app_assoc.
Qed.

Lemma logRejections_loads (ts : list (string * Task)) (st : State) :
  loads (logRejections ts st) = loads st
  ∧ validator (logRejections ts st) = validator st.
Proof.
  unfold logRejections. destruct (forallb isSettled ts); [|done].
  generalize (rejections ts). intros es. revert st.
  induction es as [|e es IH]; intros st; [done|].
  cbn [foldl]. destruct (IH (log "warn" [LogError e] st)) as (-> & ->). done.
Qed.

Lemma resume_loads (path : string) (options : RegisterSchemaOptions)
    (schema : NewSchema) (st : State) :
  loads (registerSchema_resume readSchema path options schema st).2 = loads st
  ∧ validator (registerSchema_resume readSchema path options schema st).2 = validator st.
Proof.
  destruct (resume_cases readSchema path options schema st)
    as [(e & _ & ->)|(doc & _ & ->)]; [done|].
  match goal with |- context [registerLoaded _ _ ?v _] => set (loaded := v) end.
  destruct (registerLoaded_cases path options loaded st)
    as [(_ & _ & ->)|(Hfree & _)]; [done|].
  destruct (registerLoaded_proceeds path options loaded st Hfree)
    as (_ & _ & _ & Hv & Hl & _). done.
Qed.

Lemma step_loadsInvariant (st : State) (p : Pass) (ev : Event) :
  loadsInvariant globs st p → loadsInvariant globs st (step constructedName readSchema globs p ev).
Proof.
  intros (ds & Hnd & Hds & Hl & Hv).
  assert (Hnew : ∀ d ts, started p !! d = None →
            NoDup (ds ++ [d])
            ∧ ∀ d', d' ∈ ds ++ [d] ↔ is_Some (<[d := ts]> (started p) !! d')).
  { intros d ts Hd. split.
    - apply NoDup_app. split; [done|]. split; [|apply NoDup_singleton].
      intros d' Hin ->%list_elem_of_singleton. apply Hds in Hin.
      rewrite Hd in Hin. by destruct Hin.
    - intros d'. rewrite elem_of_app, list_elem_of_singleton, Hds, lookup_insert.
      case_decide as Hdd; [subst d'|].
      + split; [eauto|by right].
      + split; [by intros [?|?]|by left]. }
  destruct ev as [d|d i]; cbn [step].
  - destruct (started p !! d) as [ts|] eqn:Hd; [by exists ds|].
    destruct (globs !! d) as [[e|files]|] eqn:Hg; [| |by exists ds].
    + destruct (Hnew d [] Hd) as (Hnd' & Hds').
      exists (ds ++ [d]). cbn [registry started]. repeat split; try apply Hds'; try done.
      assert (foundBy globs d = []) as Hfound by (unfold foundBy; by rewrite Hg).
      rewrite flat_map_app. cbn [flat_map]. by rewrite Hfound, !app_nil_r.
    + destruct (startTasks_loads files (registry p)) as (Hl1 & Hv1).
      destruct (startTasks constructedName files (registry p)) as [ts st1].
      cbn [fst snd] in Hl1, Hv1.
      destruct (logRejections_loads ts st1) as (Hl2 & Hv2).
      destruct (Hnew d ts Hd) as (Hnd' & Hds').
      exists (ds ++ [d]). cbn [registry started]. repeat split; try apply Hds'; try done.
      * assert (foundBy globs d = files) as Hfound by (unfold foundBy; by rewrite Hg).
        rewrite Hl2, Hl1, Hl, flat_map_app. cbn [flat_map].
        by rewrite Hfound, app_nil_r, app_assoc.
      * by rewrite Hv2, Hv1.
  - destruct (started p !! d) as [ts|] eqn:Hd; [|by exists ds].
    destruct (ts !! i) as [[f [schema|r]]|] eqn:Hi; [|by exists ds|by exists ds].
    destruct (resume_loads f noOptions schema (registry p)) as (Hl1 & Hv1).
    destruct (registerSchema_resume readSchema f noOptions schema (registry p))
      as [r st1].
    cbn [fst snd] in Hl1, Hv1.
    destruct (logRejections_loads (<[i := (f, Settled r)]> ts) st1) as (Hl2 & Hv2).
    exists ds. cbn [registry started]. split; [done|]. split; [|split].
    + intros d'. rewrite Hds, lookup_insert. case_decide as Hdd; [subst d'|done].
      rewrite Hd. split; eauto.
    + by rewrite Hl2, Hl1.
    + by rewrite Hv2, Hv1.
Qed.

Lemma registerSchemas_loadsInvariant (schedule : list Event) (st : State) :
  loadsInvariant globs st (registerSchemas constructedName readSchema globs schedule st).
Proof.
  unfold registerSchemas, runEvents.
  induction schedule as [|ev schedule IH] using rev_ind.
  - exists []. cbn [foldl registry started flat_map]. repeat split; try done.
    + apply NoDup_nil_2.
    + by intros ?%elem_of_nil.
    + rewrite lookup_empty. by intros [? ?].
    + by rewrite app_nil_r.
  - rewrite foldl_snoc. by apply step_loadsInvariant.
Qed.

(** X13. A pass starts one load for each file of each glob that has
    called back, in glob order within a dependency, and no other: the
    loads started since the pass began are the files found, dependency by
    dependency in the order the globs called back.  Once the pass has
    finished every discovered file has been loaded exactly once, also
    those whose registration was rejected.  The validator is never
    touched. *)
Theorem registerSchemas_loads_each_file_once (schedule : list Event) (st : State) :
  let p := registerSchemas constructedName readSchema globs schedule st in
  validator (registry p) = validator st
  ∧ (∃ ds, NoDup ds
           ∧ (∀ d, d ∈ ds ↔ is_Some (started p !! d))
           ∧ loads (registry p) = loads st ++ flat_map (foundBy globs) ds)
  ∧ (finished globs p = true →
     loads (registry p)
     ≡ₚ loads st ++ flat_map (foundBy globs) (seq 0 (length globs))).
Proof.
  cbv zeta.
  destruct (registerSchemas_loadsInvariant schedule st) as (ds & Hnd & Hds & Hl & Hv).
  destruct (registerSchemas_discoveryInvariant constructedName readSchema globs
              schedule st) as [_ I2 _ _ _ _ _].
  set (p := registerSchemas constructedName readSchema globs schedule st) in *.
  split; [done|]. split; [by exists ds|].
  intros Hfin. rewrite Hl. apply Permutation_app_head.
  apply Permutation_flat_map. apply NoDup_Permutation; [done|apply NoDup_seq|].
  intros d. rewrite Hds, elem_of_seq. split.
  - intros [ts Hts]. destruct (I2 d ts Hts) as (g & Hg & _).
    apply lookup_lt_Some in Hg. lia.
  - intros [_ Hlt]. destruct (lookup_lt_is_Some_2 globs d) as [g Hg]; [lia|].
    destruct (finished_started globs p d g Hfin Hg) as (ts & Hts & _). eauto.
Qed.
End PassLoads.

(** ** The properties above on the sample files *)

(** [course] registered while [course-ext] was deferred, then resolved. *)
Lemma registerSchema_then_getSchema_witness :
  ∃ u, (getSchema buildSummary "course" {| compiled := None |}
          (registerSchema nameSetByLoad sampleFiles (JsString coursePath) noOptions
             extOnly).2).1
       = inr (buildSummary u {| compiled := None |})
       ∧ name u = "course" ∧ "course-ext" ∈ extensions u.
Proof.
  assert (Hok : (registerSchema nameSetByLoad sampleFiles (JsString coursePath) noOptions
                   extOnly).1 = inr tt)
    by (vm_compute; reflexivity).
  destruct (registerSchema_then_getSchema nameSetByLoad sampleFiles buildSummary
              coursePath noOptions extOnly (plainDocument "course")
              {| compiled := None |} eq_refl Hok)
    as (u & Hget & Hn & _ & _ & Hpend & _).
  exists u. split; [exact Hget|]. split; [exact Hn|].
  apply Hpend. compute_done.
Defined.

(** Registering [course] leaves the entry of [course-ext] alone. *)
Lemma registerSchema_touches_two_names_witness :
  schemas (registerSchema nameSetByLoad sampleFiles (JsString coursePath) noOptions
             courseThenExt).2 !! "course-ext"
  = schemas courseThenExt !! "course-ext"
  ∧ schemaExtensions (registerSchema nameSetByLoad sampleFiles (JsString coursePath)
                        noOptions extOnly).2 !! "course"
    = schemaExtensions extOnly !! "course".
Proof.
  destruct (registerSchema_touches_two_names nameSetByLoad sampleFiles coursePath
              noOptions courseThenExt (plainDocument "course") eq_refl)
    as (Hcat & _ & _).
  destruct (registerSchema_touches_two_names nameSetByLoad sampleFiles coursePath
              noOptions extOnly (plainDocument "course") eq_refl)
    as (_ & Hled & _).
  split; [apply Hcat|apply Hled]; done.
Defined.

(** The deferred [course-ext] is still pending under [course], or [orphan]
    has it, once [orphan] is registered. *)
Lemma registerSchema_conserves_pending_witness :
  "course-ext" ∈ pending "course"
    (registerSchema nameSetByLoad sampleFiles (JsString orphanPath) noOptions extOnly).2
  ∨ ∃ u, schemas (registerSchema nameSetByLoad sampleFiles (JsString orphanPath)
                    noOptions extOnly).2 !! "orphan" = Some u
         ∧ "course-ext" ∈ extensions u.
Proof.
  assert (Hok : (registerSchema nameSetByLoad sampleFiles (JsString orphanPath) noOptions
                   extOnly).1 = inr tt)
    by (vm_compute; reflexivity).
  assert (Hpend : "course-ext" ∈ pending "course" extOnly) by compute_done.
  exact (registerSchema_conserves_pending nameSetByLoad sampleFiles orphanPath
           noOptions extOnly (patchDocument "orphan" None) "course" "course-ext"
           eq_refl Hok Hpend).
Defined.

(** [course-ext] registered after [course] and deregistered again: [course]
    keeps the extension. *)
Lemma registerSchema_then_deregisterSchema_witness :
  let st := (registerSchema nameSetByLoad sampleFiles (JsString coursePath) noOptions
               initialState).2 in
  let st' := deregisterSchema "course-ext"
               (registerSchema nameSetByLoad sampleFiles (JsString courseExtPath)
                  noOptions st).2 in
  schemas st' !! "course-ext" = None
  ∧ ∃ base, schemas st !! "course" = Some base
            ∧ schemas st' = <[ "course" := addExtension "course-ext" base ]> (schemas st).
Proof.
  cbv zeta.
  set (st := (registerSchema nameSetByLoad sampleFiles (JsString coursePath) noOptions
                initialState).2).
  assert (Hfree : schemas st !! docName (patchDocument "course-ext" (Some "course"))
                  = None) by (vm_compute; reflexivity).
  assert (Hbase : ∃ base, schemas st !! "course" = Some base).
  { eexists. vm_compute. reflexivity. }
  destruct Hbase as [base Hbase].
  assert (Hplain : plainCatalog st) by (vm_compute; reflexivity).
  destruct (registerSchema_then_deregisterSchema nameSetByLoad sampleFiles courseExtPath
              noOptions st (patchDocument "course-ext" (Some "course")) eq_refl Hfree
              eq_refl Hplain)
    as (Hgone & Hcat).
  split; [exact Hgone|]. exists base. split; [exact Hbase|].
  cbn [patch docRaw patchDocument source_ref propertyKey default from_option id] in Hcat.
  rewrite Hbase in Hcat. exact Hcat.
Defined.

(** [course] and [course-ext], in either order. *)
Lemma registerSchema_order_independent_witness :
  schemas courseThenExt
  = schemas (registerSchema nameSetByLoad sampleFiles (JsString coursePath) noOptions
               extOnly).2
  ∧ schemaExtensions courseThenExt = ∅.
Proof.
  assert (Hne : docName (plainDocument "course")
                ≠ docName (patchDocument "course-ext" (Some "course")))
    by discriminate.
  destruct (registerSchema_order_independent nameSetByLoad sampleFiles
              coursePath courseExtPath noOptions noOptions initialState
              (plainDocument "course") (patchDocument "course-ext" (Some "course"))
              {| source_ref := Some "course" |}
              eq_refl eq_refl eq_refl eq_refl eq_refl Hne eq_refl eq_refl eq_refl
              eq_refl eq_refl eq_refl)
    as (_ & _ & _ & _ & Hsame & _ & Hempty).
  split; [exact Hsame|exact Hempty].
Defined.

(** The module stays consistent from its initial state on. *)
Lemma operations_keep_consistency_witness :
  consistent extOnly ∧ consistent (deregisterSchema "course" initialState).
Proof.
  destruct (operations_keep_consistency nameSetByLoad sampleFiles initialState
              consistent_initialState) as (Hreg & Hdereg & _).
  split; [apply (Hreg (JsString courseExtPath) noOptions)|apply Hdereg].
Defined.

(** [course] named as extended by [course-ext] before and after it is
    registered. *)
Lemma extendSchema_deferred_or_direct_witness :
  schemas (registerSchema nameSetByLoad sampleFiles (JsString coursePath) noOptions
             (extendSchema (Some "course") "course-ext" initialState).2).2
  = schemas (extendSchema (Some "course") "course-ext"
               (registerSchema nameSetByLoad sampleFiles (JsString coursePath) noOptions
                  initialState).2).2.
Proof.
  assert (Hself : ∀ p, patch (docRaw (plainDocument "course")) = Some p →
                       propertyKey (source_ref p) ≠ docName (plainDocument "course")).
  { intros p [=]. }
  assert (Hsource : ∀ p, patch (docRaw (plainDocument "course")) = Some p →
                         inherited (propertyKey (source_ref p)) = false).
  { intros p [=]. }
  destruct (extendSchema_deferred_or_direct nameSetByLoad sampleFiles
              coursePath noOptions initialState (plainDocument "course")
              "course-ext" eq_refl eq_refl eq_refl Hself Hsource eq_refl)
    as (_ & _ & _ & Hsame & _).
  exact Hsame.
Defined.

(** Two orders of events for the same globs, from two modules. *)
Lemma registerSchemas_names_schedule_free_witness :
  let globs := [inr [coursePath; brokenPath]; inr [courseExtPath]] in
  dom (schemas (registry (registerSchemas nameSetByLoad sampleFiles globs
                            (inOrder globs) initialState)))
  = dom (schemas (registry (registerSchemas nameSetByLoad sampleFiles globs
                              [GlobDone 1; GlobDone 0; LoadDone 1 0; LoadDone 0 1;
                               LoadDone 0 0] courseThenExt))).
Proof.
  cbv zeta.
  refine (proj1 (proj2 (registerSchemas_names_schedule_free nameSetByLoad sampleFiles
                          [inr [coursePath; brokenPath]; inr [courseExtPath]] _ _
                          initialState courseThenExt _ _))); vm_compute; reflexivity.
Defined.

(** When two files share a name, the one whose load ends first is
    registered: the file under the name depends on the order of events. *)
Example registerSchemas_shared_name_first_wins :
  let globs := [inr [courseExtPath; courseExtPlainPath]] in
  let first := registerSchemas nameSetByLoad sampleFiles globs
                 [GlobDone 0; LoadDone 0 0; LoadDone 0 1] initialState in
  let second := registerSchemas nameSetByLoad sampleFiles globs
                  [GlobDone 0; LoadDone 0 1; LoadDone 0 0] initialState in
  filePath <$> schemas (registry first) !! "course-ext" = Some courseExtPath
  ∧ filePath <$> schemas (registry second) !! "course-ext" = Some courseExtPlainPath.
Proof. cbv zeta. split; vm_compute; reflexivity. Qed.
